(** * EurekAnno: object-set store, annotation canvas and YOLO export

  A shallow embedding of three parts of the repository:

  - [AppContext] : the React context that owns the per-image detection
    results and the per-image list of hidden object indices
    (frontend/src/context/AppContext.js);
  - [Canvas] : the pure geometry helpers and the pointer / keyboard
    handlers of the annotation canvas
    (frontend/src/components/AnnotationCanvas.jsx);
  - [Conversion] : the YOLO text export (app/utils/conversion.py).

  JavaScript numbers and Python floats are IEEE-754 binary64 values; they
  are modelled by Rocq's primitive [float], whose operations are the
  correctly rounded binary64 operations.  Array indices are modelled by
  [Z] (an integer-valued number), so that negative and too large indices
  are part of the model.  Statements about numeric tolerances read a
  float as the real number it stands for and are proved from the
  rounding of each operation. *)

From Stdlib Require Import ZArith List String Floats Lia Reals Lra Psatz SplitAbsolu.
From stdpp Require Import base option list gmap strings pretty.


(** ** JavaScript array and Math primitives used by the sources *)

Module Js.

(** [a[i]] for an integer-valued [i]: [undefined] (here [None]) when [i]
    is negative or not below the length. *)
Definition at_ {A : Type} (a : list A) (i : Z) : option A :=
  if (i <? 0)%Z then None else a !! Z.to_nat i.

(** [a[i]] read as a number inside an arithmetic expression: a missing
    element is [undefined], which every arithmetic operator turns into
    NaN. *)
Definition num_at (a : list float) (i : nat) : float := nth i a nan.

(** The array left by [a.splice(start, 1)]: a negative [start] counts
    from the end, a [start] beyond the end removes nothing. *)
Definition splice1 {A : Type} (a : list A) (start : Z) : list A :=
  let len := Z.of_nat (length a) in
  let s := if (start <? 0)%Z then Z.max (len + start) 0 else Z.min start len in
  take (Z.to_nat s) a ++ drop (S (Z.to_nat s)) a.

(** [a.includes(x)] on an array of integers. *)
Definition includes (a : list Z) (x : Z) : bool := existsb (Z.eqb x) a.

(** [a.filter(i => i !== x)]. *)
Definition filter_ne (a : list Z) (x : Z) : list Z :=
  List.filter (fun i => negb (i =? x)%Z) a.

(** [Math.min(x, y)], [Math.max(x, y)] and [Math.abs(x)]: NaN when an
    argument is NaN, and -0 is below +0. *)
Definition min (x y : float) : float :=
  if is_nan x || is_nan y then nan
  else if (x <? y)%float then x
  else if (y <? x)%float then y
  else if get_sign x then x else y.

Definition max (x y : float) : float :=
  if is_nan x || is_nan y then nan
  else if (y <? x)%float then x
  else if (x <? y)%float then y
  else if get_sign x then y else x.

Definition abs (x : float) : float := PrimFloat.abs x.

(** What [JSON.parse(JSON.stringify(x))] gives for a number [x]:
    [JSON.stringify] writes [null] for NaN and for the two infinities
    and ["0"] for both zeros, and writes every other number so that
    [JSON.parse] reads the same number back.  [None] is [null]. *)
Definition json_number (x : float) : option float :=
  if is_nan x || is_infinity x then None
  else if is_zero x then Some 0%float
  else Some x.

(** [ToNumber]: what an arithmetic operator reads from a slot that holds
    a number or [null]; [null] reads as [+0]. *)
Definition to_number (v : option float) : float := default 0%float v.

End Js.

(** ** The application context (AppContext.js) *)

Module AppContext.

(** [DETECTION_MODES] *)
Inductive DetectionMode := TEXT_PROMPT | IMAGE_PROMPT | PROMPT_FREE.

#[global] Instance DetectionMode_eq_dec : EqDecision DetectionMode.
Proof. solve_decision. Defined.

(** One detected or hand-drawn object: [{ class_id, bbox, mask,
    confidence }].  [bbox] is the array [[x1, y1, x2, y2]] in normalized
    coordinates, [mask] is [null] or an array of [[x, y]] points in
    pixels. *)
Record DetObject := mkObject {
  class_id : Z;
  bbox : list float;
  mask : option (list (float * float));
  confidence : float
}.

(** The result set of one image: [{ classes, objects }]. *)
Record Results := mkResults {
  objects : list DetObject;
  classes : list string
}.

(** An entry of [images] (the file handle and object URL are left out). *)
Record Image := mkImage {
  img_id : string;
  img_name : string;
  img_width : float;
  img_height : float
}.

(** [imagePrompts = { bboxes, cls }] *)
Record ImagePrompts := mkPrompts {
  bboxes : list (list float);
  cls : list Z
}.

(** The [useState] cells of [AppProvider] that the modelled functions
    read or write. *)
Record State := mkState {
  images : list Image;
  currentImageIndex : Z;
  detectionMode : DetectionMode;
  imagePrompts : ImagePrompts;
  detectionResults : gmap string Results;
  hiddenObjects : gmap string (list Z)
}.

Definition set_detectionResults (f : gmap string Results -> gmap string Results)
    (st : State) : State :=
  mkState (images st) (currentImageIndex st) (detectionMode st) (imagePrompts st)
          (f (detectionResults st)) (hiddenObjects st).

Definition set_hiddenObjects (f : gmap string (list Z) -> gmap string (list Z))
    (st : State) : State :=
  mkState (images st) (currentImageIndex st) (detectionMode st) (imagePrompts st)
          (detectionResults st) (f (hiddenObjects st)).

Definition set_objects (os : list DetObject) (r : Results) : Results :=
  mkResults os (classes r).

Definition set_bbox (b : list float) (o : DetObject) : DetObject :=
  mkObject (class_id o) b (mask o) (confidence o).

Definition set_mask (m : option (list (float * float))) (o : DetObject) : DetObject :=
  mkObject (class_id o) (bbox o) m (confidence o).

Definition set_class_id (c : Z) (o : DetObject) : DetObject :=
  mkObject c (bbox o) (mask o) (confidence o).

(** [clone = v => JSON.parse(JSON.stringify(v))]: the JSON round trip,
    by the shape of the value.  Strings, integers, arrays, [null] and
    objects come back equal, component by component.  A number comes
    back as [Js.json_number] says: [-0] becomes [+0], and NaN and the
    infinities become [null].  The number slots of the store are typed
    [float] here, so a slot that holds [null] after the round trip is
    represented by the number that every arithmetic read of it gives,
    [+0] ([Js.to_number]); the functions below read the numbers of the
    store in arithmetic only ([bbox[0] * imgW], [pt[0] + dx]), where
    [null] and [+0] read alike.  Under [json_stable] no slot is changed
    by the round trip at all. *)
Class Clone (A : Type) := clone : A -> A.
#[global] Hint Mode Clone ! : typeclass_instances.

#[global] Instance clone_float : Clone float :=
  fun x => Js.to_number (Js.json_number x).
#[global] Instance clone_Z : Clone Z := fun z => z.
#[global] Instance clone_string : Clone string := fun s => s.
#[global] Instance clone_list {A} `{Clone A} : Clone (list A) :=
  fun l => List.map clone l.
#[global] Instance clone_option {A} `{Clone A} : Clone (option A) :=
  fun o => match o with Some v => Some (clone v) | None => None end.
#[global] Instance clone_pair {A B} `{Clone A} `{Clone B} : Clone (A * B) :=
  fun p => (clone (fst p), clone (snd p)).
#[global] Instance clone_DetObject : Clone DetObject :=
  fun o => mkObject (clone (class_id o)) (clone (bbox o)) (clone (mask o))
                    (clone (confidence o)).
#[global] Instance clone_Results : Clone Results :=
  fun r => mkResults (clone (objects r)) (clone (classes r)).
#[global] Instance clone_map {A} `{Clone A} : Clone (gmap string A) :=
  fun m => clone <$> m.

(** A value that the JSON round trip gives back as it is: every number
    in it is finite and is not [-0]. *)
Definition json_stable {A} `{Clone A} (v : A) : Prop := clone v = v.

(** A type whose JSON copy is a projection: copying a copy changes
    nothing. *)
Class CloneIdem (A : Type) `{Clone A} : Prop :=
  clone_idem : forall v : A, clone (clone v) = clone v.

(** [currentImage]: the image at [currentImageIndex], or [null]. *)
Definition currentImage (st : State) : option Image :=
  if ((0 <=? currentImageIndex st)%Z
      && (currentImageIndex st <? Z.of_nat (length (images st)))%Z)%bool
  then images st !! Z.to_nat (currentImageIndex st)
  else None.

(** [currentResults = currentImage?.id ? detectionResults[currentImage.id] : null] *)
Definition currentResults (st : State) : option Results :=
  match currentImage st with
  | Some img => detectionResults st !! img_id img
  | None => None
  end.

(** [currentHiddenObjects = currentImage ? (hiddenObjects[currentImage.id] || []) : []] *)
Definition currentHiddenObjects (st : State) : list Z :=
  match currentImage st with
  | Some img => default [] (hiddenObjects st !! img_id img)
  | None => []
  end.

Definition setDetectionMode (m : DetectionMode) (st : State) : State :=
  mkState (images st) (currentImageIndex st) m (imagePrompts st)
          (detectionResults st) (hiddenObjects st).

Definition updateImagePrompts (bs : list (list float)) (cs : list Z) (st : State) : State :=
  mkState (images st) (currentImageIndex st) (detectionMode st) (mkPrompts bs cs)
          (detectionResults st) (hiddenObjects st).

(** [addImage(file)]: appends the image (its dimensions are not known
    yet) and moves to the next index. *)
Definition addImage (id name : string) (st : State) : State :=
  mkState (images st ++ [mkImage id name 0%float 0%float])
          (if (currentImageIndex st <? 0)%Z then 0 else currentImageIndex st + 1)%Z
          (detectionMode st) (imagePrompts st)
          (detectionResults st) (hiddenObjects st).

Definition goToImage (idx : Z) (st : State) : State :=
  if ((0 <=? idx)%Z && (idx <? Z.of_nat (length (images st)))%Z)%bool
  then mkState (images st) idx (detectionMode st) (imagePrompts st)
               (detectionResults st) (hiddenObjects st)
  else st.

(** [removeImage]: drops the image, clamps the current index, and deletes
    the image's results and hidden list. *)
Definition removeImage (id : string) (st : State) : State :=
  let nxt := List.filter (fun img => negb (String.eqb (img_id img) id)) (images st) in
  let n := Z.of_nat (length nxt) in
  let idx := currentImageIndex st in
  mkState nxt (if (n <=? idx)%Z then n - 1 else idx)%Z
          (detectionMode st) (imagePrompts st)
          (delete id (detectionResults st)) (delete id (hiddenObjects st)).

(** [addDetectionResult]: [{ ...prev, [imageId]: clone(result) }] *)
Definition addDetectionResult (imageId : string) (result : Results) (st : State) : State :=
  set_detectionResults (fun prev => <[imageId := clone result]> prev) st.

(** [addBboxToResults(bbox, classId = 0, mask = null)] *)
Definition addBboxToResults (b : list float) (classId : Z)
    (m : option (list (float * float))) (st : State) : State :=
  match currentImage st with
  | None => st
  | Some img =>
      set_detectionResults (fun prev =>
        let res := clone prev in
        match res !! img_id img with
        | None => prev
        | Some r =>
            <[img_id img := set_objects (objects r ++ [mkObject classId b m 1%float]) r]> res
        end) st
  end.

(** [updateBboxInResults(index, updatedBbox, updatedMask = null)] *)
Definition updateBboxInResults (index : Z) (updatedBbox : list float)
    (updatedMask : option (list (float * float))) (st : State) : State :=
  match currentImage st with
  | None => st
  | Some img =>
      set_detectionResults (fun prev =>
        let res := clone prev in
        match res !! img_id img ≫= (fun r => Js.at_ (objects r) index) with
        | None => prev
        | Some obj =>
            let obj1 := set_bbox updatedBbox obj in
            let obj2 := match updatedMask with
                        | Some m => set_mask (Some m) obj1
                        | None => obj1
                        end in
            alter (fun r => set_objects (<[Z.to_nat index := obj2]> (objects r)) r)
                  (img_id img) res
        end) st
  end.

(** [removeBboxFromResults(index)]: the [splice] on the objects, then the
    update of the hidden list. *)
Definition removeBboxFromResults (index : Z) (st : State) : State :=
  match currentImage st with
  | None => st
  | Some img =>
      let st1 :=
        set_detectionResults (fun prev =>
          let res := clone prev in
          match res !! img_id img with
          | None => prev
          | Some r => <[img_id img := set_objects (Js.splice1 (objects r) index) r]> res
          end) st in
      set_hiddenObjects (fun prev =>
        let hidden := default [] (prev !! img_id img) in
        if negb (Js.includes hidden index) then prev
        else
          let newHidden :=
            List.map (fun i => if (index <? i)%Z then (i - 1)%Z else i)
                     (Js.filter_ne hidden index) in
          <[img_id img := newHidden]> prev) st1
  end.

(** [updateObjectClass(index, newClassId)] *)
Definition updateObjectClass (index : Z) (newClassId : Z) (st : State) : State :=
  match currentImage st with
  | None => st
  | Some img =>
      set_detectionResults (fun prev =>
        let res := clone prev in
        match res !! img_id img ≫= (fun r => Js.at_ (objects r) index) with
        | None => prev
        | Some obj =>
            alter (fun r => set_objects
                              (<[Z.to_nat index := set_class_id newClassId obj]> (objects r)) r)
                  (img_id img) res
        end) st
  end.

(** [toggleObjectVisibility(index)] *)
Definition toggleObjectVisibility (index : Z) (st : State) : State :=
  match currentImage st with
  | None => st
  | Some img =>
      set_hiddenObjects (fun prev =>
        let hidden := default [] (prev !! img_id img) in
        let newHidden :=
          if Js.includes hidden index then Js.filter_ne hidden index
          else hidden ++ [index] in
        <[img_id img := newHidden]> prev) st
  end.

(** [nextImage] and [prevImage]: a guarded increment and decrement of
    the current index. *)
Definition set_currentImageIndex (idx : Z) (st : State) : State :=
  mkState (images st) idx (detectionMode st) (imagePrompts st)
          (detectionResults st) (hiddenObjects st).

Definition nextImage (st : State) : State :=
  if (currentImageIndex st <? Z.of_nat (length (images st)) - 1)%Z
  then set_currentImageIndex (currentImageIndex st + 1) st
  else st.

Definition prevImage (st : State) : State :=
  if (0 <? currentImageIndex st)%Z
  then set_currentImageIndex (currentImageIndex st - 1) st
  else st.

(** [!x] for a number: true for both zeros and for NaN. *)
Definition falsy (x : float) : bool := (x =? 0)%float || is_nan x.

(** [updateImageDimensions(id, w, h)] *)
Definition updateImageDimensions (id : string) (w h : float) (st : State) : State :=
  if falsy w || falsy h then st
  else
    mkState (List.map (fun img => if String.eqb (img_id img) id
                                  then mkImage (img_id img) (img_name img) w h
                                  else img) (images st))
            (currentImageIndex st) (detectionMode st) (imagePrompts st)
            (detectionResults st) (hiddenObjects st).

(** The updaters of the [textPrompts] cell: [addTextPrompt(p)],
    [removeTextPrompt(idx)], which keeps the entries whose index is not
    [idx], and [clearTextPrompts()]. *)
Definition addTextPrompt (p : string) (prev : list string) : list string := prev ++ [p].

Definition removeTextPrompt (idx : Z) (p : list string) : list string :=
  List.map snd
    (List.filter (fun ip => negb (Z.of_nat (fst ip) =? idx)%Z)
                 (combine (seq 0 (length p)) p)).

Definition clearTextPrompts (prev : list string) : list string := [].

End AppContext.

(** ** The annotation canvas (AnnotationCanvas.jsx) *)

Module Canvas.
Import AppContext.

(** *** Geometry helpers *)

(** An axis-aligned box in pixels, [{ x, y, width, height }]: the value
    of [denormalizeBbox] and of the [currentBox] state cell. *)
Record Box := mkBox {
  box_x : float;
  box_y : float;
  box_width : float;
  box_height : float
}.

(** [getLocalMaskPoints(maskPoints, boxX, boxY)]: the flattened list of
    the points relative to the box origin. *)
Definition getLocalMaskPoints (maskPoints : list (float * float)) (boxX boxY : float)
    : list float :=
  flat_map (fun pt => [(fst pt - boxX)%float; (snd pt - boxY)%float]) maskPoints.

(** [denormalizeBbox(bbox, imgW, imgH)] *)
Definition denormalizeBbox (b : list float) (imgW imgH : float) : Box :=
  mkBox (Js.num_at b 0 * imgW)
        (Js.num_at b 1 * imgH)
        ((Js.num_at b 2 - Js.num_at b 0) * imgW)
        ((Js.num_at b 3 - Js.num_at b 1) * imgH).

(** The normalization written out in [handleMouseUp] for a finished box:
    [[x / W, y / H, (x + width) / W, (y + height) / H]]. *)
Definition normalizeBox (bx : Box) (imgW imgH : float) : list float :=
  [ (box_x bx / imgW)%float;
    (box_y bx / imgH)%float;
    ((box_x bx + box_width bx) / imgW)%float;
    ((box_y bx + box_height bx) / imgH)%float ].

(** [shiftBboxAndMask(obj, dx, dy, imgW, imgH)], returning
    [{ nbbox, nmask }] as a pair. *)
Definition shiftBboxAndMask (obj : DetObject) (dx dy imgW imgH : float)
    : list float * option (list (float * float)) :=
  let bX1 := (Js.num_at (bbox obj) 0 * imgW + dx)%float in
  let bY1 := (Js.num_at (bbox obj) 1 * imgH + dy)%float in
  let bX2 := (Js.num_at (bbox obj) 2 * imgW + dx)%float in
  let bY2 := (Js.num_at (bbox obj) 3 * imgH + dy)%float in
  let nbbox := [ (bX1 / imgW)%float; (bY1 / imgH)%float;
                 (bX2 / imgW)%float; (bY2 / imgH)%float ] in
  let nmask :=
    match mask obj with
    | Some m => Some (List.map (fun pt => ((fst pt + dx)%float, (snd pt + dy)%float)) m)
    | None => None
    end in
  (nbbox, nmask).

(** [scaleBboxAndMask(obj, scaleX, scaleY, anchorX, anchorY, imgW, imgH)]
    (the anchor arguments are not used by the source). *)
Definition scaleBboxAndMask (obj : DetObject) (scaleX scaleY anchorX anchorY imgW imgH : float)
    : list float * option (list (float * float)) :=
  let absX1 := (Js.num_at (bbox obj) 0 * imgW)%float in
  let absY1 := (Js.num_at (bbox obj) 1 * imgH)%float in
  let absW := ((Js.num_at (bbox obj) 2 - Js.num_at (bbox obj) 0) * imgW)%float in
  let absH := ((Js.num_at (bbox obj) 3 - Js.num_at (bbox obj) 1) * imgH)%float in
  let newW := (absW * scaleX)%float in
  let newH := (absH * scaleY)%float in
  let bX2 := (absX1 + newW)%float in
  let bY2 := (absY1 + newH)%float in
  let nbbox := [ (absX1 / imgW)%float; (absY1 / imgH)%float;
                 (bX2 / imgW)%float; (bY2 / imgH)%float ] in
  let nmask :=
    match mask obj with
    | Some m =>
        Some (List.map (fun pt =>
                let localX := (fst pt - absX1)%float in
                let localY := (snd pt - absY1)%float in
                ((absX1 + localX * scaleX)%float, (absY1 + localY * scaleY)%float)) m)
    | None => None
    end in
  (nbbox, nmask).

(** *** Component state *)

(** [EDIT_MODES] *)
Inductive EditMode := SELECT | DRAW | PAN.

#[global] Instance EditMode_eq_dec : EqDecision EditMode.
Proof. solve_decision. Defined.

(** The [useState] cells of [AnnotationCanvas] that the handlers read or
    write, and the loaded image ([useImage]): its pixel width and height,
    or [None] while it is not loaded. *)
Record Local := mkLocal {
  image : option (float * float);
  scale : float;
  drawing : bool;
  startPoint : float * float;
  currentBox : option Box;
  selectedObjectIndex : option Z;
  editMode : EditMode;
  stagePosition : float * float;
  isDragging : bool;
  stageSize : float * float
}.

(** The context state together with the component state. *)
Record World := mkWorld {
  app : AppContext.State;
  ui : Local
}.

Definition set_selected (s : option Z) (u : Local) : Local :=
  mkLocal (image u) (scale u) (drawing u) (startPoint u) (currentBox u) s
          (editMode u) (stagePosition u) (isDragging u) (stageSize u).

Definition set_editMode (m : EditMode) (u : Local) : Local :=
  mkLocal (image u) (scale u) (drawing u) (startPoint u) (currentBox u)
          (selectedObjectIndex u) m (stagePosition u) (isDragging u) (stageSize u).

Definition set_isDragging (d : bool) (u : Local) : Local :=
  mkLocal (image u) (scale u) (drawing u) (startPoint u) (currentBox u)
          (selectedObjectIndex u) (editMode u) (stagePosition u) d (stageSize u).

Definition set_stagePosition (p : float * float) (u : Local) : Local :=
  mkLocal (image u) (scale u) (drawing u) (startPoint u) (currentBox u)
          (selectedObjectIndex u) (editMode u) p (isDragging u) (stageSize u).

Definition set_gesture (d : bool) (sp : float * float) (b : option Box) (u : Local) : Local :=
  mkLocal (image u) (scale u) d sp b
          (selectedObjectIndex u) (editMode u) (stagePosition u) (isDragging u) (stageSize u).

Definition set_image (i : option (float * float)) (u : Local) : Local :=
  mkLocal i (scale u) (drawing u) (startPoint u) (currentBox u)
          (selectedObjectIndex u) (editMode u) (stagePosition u) (isDragging u) (stageSize u).

(** The pointer position of the stage in image space:
    [(pointerPos.x - stagePosition.x) / scale], and the same for [y]. *)
Definition pointerToImage (u : Local) (pointerPos : float * float) : float * float :=
  (((fst pointerPos - fst (stagePosition u)) / scale u)%float,
   ((snd pointerPos - snd (stagePosition u)) / scale u)%float).

(** [Math.min(sX, sY, 1)] with [sX = cW / image.width] and
    [sY = cH / image.height]: the scale that the image effect, the resize
    listener and [handleResetView] compute from the container size. *)
Definition fitScale (cW cH imgW imgH : float) : float :=
  Js.min (Js.min (cW / imgW) (cH / imgH)) 1.

Definition set_scale (s : float) (u : Local) : Local :=
  mkLocal (image u) s (drawing u) (startPoint u) (currentBox u)
          (selectedObjectIndex u) (editMode u) (stagePosition u) (isDragging u)
          (stageSize u).

Definition set_stageSize (sz : float * float) (u : Local) : Local :=
  mkLocal (image u) (scale u) (drawing u) (startPoint u) (currentBox u)
          (selectedObjectIndex u) (editMode u) (stagePosition u) (isDragging u) sz.

(** [setScale(newScale); setStageSize({ width: image.width * newScale,
    height: image.height * newScale })] for a container of size
    [cW] by [cH]. *)
Definition fitToContainer (cW cH imgW imgH : float) (u : Local) : Local :=
  let newScale := fitScale cW cH imgW imgH in
  set_stageSize ((imgW * newScale)%float, (imgH * newScale)%float)
                (set_scale newScale u).

(** *** Event handlers *)

(** [handleMouseDown(e)]: [onStage] is [e.target === e.target.getStage()],
    [pointerPos] is [getPointerPosition()] ([None] for [null]). *)
Definition handleMouseDown (onStage : bool) (pointerPos : option (float * float))
    (w : World) : World :=
  if onStage then
    let u1 := set_selected None (ui w) in
    match editMode u1 with
    | PAN => mkWorld (app w) (set_isDragging true u1)
    | DRAW =>
        match pointerPos with
        | None => mkWorld (app w) u1
        | Some p =>
            let '(x, y) := pointerToImage u1 p in
            mkWorld (app w)
              (set_gesture true (x, y) (Some (mkBox x y 0%float 0%float)) u1)
        end
    | SELECT => mkWorld (app w) u1
    end
  else w.

(** [handleMouseMove(e)]: [movement] is [(e.evt.movementX, e.evt.movementY)]. *)
Definition handleMouseMove (pointerPos : option (float * float)) (movement : float * float)
    (w : World) : World :=
  let u := ui w in
  if isDragging u && bool_decide (editMode u = PAN) then
    mkWorld (app w)
      (set_stagePosition ((fst (stagePosition u) + fst movement)%float,
                          (snd (stagePosition u) + snd movement)%float) u)
  else if drawing u && bool_decide (editMode u = DRAW) then
    match pointerPos with
    | None => w
    | Some p =>
        let '(x, y) := pointerToImage u p in
        let sp := startPoint u in
        mkWorld (app w)
          (set_gesture (drawing u) sp
             (Some (mkBox (Js.min x (fst sp)) (Js.min y (snd sp))
                          (Js.abs (x - fst sp)) (Js.abs (y - snd sp)))) u)
    end
  else w.

(** [handleMouseUp()] *)
Definition handleMouseUp (w : World) : World :=
  let u := ui w in
  if isDragging u && bool_decide (editMode u = PAN) then
    mkWorld (app w) (set_isDragging false u)
  else
    match drawing u, currentBox u, image u, editMode u with
    | true, Some cb, Some (imgW, imgH), DRAW =>
        let app1 :=
          if ((5 <? box_width cb)%float && (5 <? box_height cb)%float)%bool then
            match detectionMode (app w) with
            | IMAGE_PROMPT =>
                updateImagePrompts
                  (bboxes (imagePrompts (app w)) ++ [normalizeBox cb imgW imgH])
                  (cls (imagePrompts (app w)) ++ [0%Z])
                  (app w)
            | _ =>
                match currentResults (app w) with
                | Some _ => addBboxToResults (normalizeBox cb imgW imgH) 0 None (app w)
                | None => app w
                end
            end
          else app w in
        mkWorld app1 (set_gesture false (startPoint u) None u)
    | _, _, _, _ => w
    end.

(** The [keydown] listener, for the Delete and the Escape key, and
    [handleDeleteSelected]. *)
Definition handleDeleteSelected (w : World) : World :=
  match selectedObjectIndex (ui w), currentResults (app w) with
  | Some i, Some _ =>
      mkWorld (removeBboxFromResults i (app w)) (set_selected None (ui w))
  | _, _ => w
  end.

Definition handleKeyDelete (w : World) : World := handleDeleteSelected w.

Definition handleKeyEscape (w : World) : World :=
  let u1 := set_selected None (ui w) in
  mkWorld (app w) (set_gesture false (startPoint u1) None u1).

(** [handleBoxSelect(e, index, shapeRef)] *)
Definition handleBoxSelect (index : Z) (w : World) : World :=
  match editMode (ui w) with
  | SELECT => mkWorld (app w) (set_selected (Some index) (ui w))
  | _ => w
  end.

(** [handleGroupDragEnd(e, index)], where [(dx, dy)] is the offset of the
    dragged group. *)
Definition handleGroupDragEnd (index : Z) (dx dy : float) (w : World) : World :=
  match image (ui w), currentResults (app w) with
  | Some (imgW, imgH), Some r =>
      match Js.at_ (objects r) index with
      | Some obj =>
          let '(nbbox, nmask) := shiftBboxAndMask obj dx dy imgW imgH in
          mkWorld (updateBboxInResults index nbbox nmask (app w)) (ui w)
      | None => w
      end
  | _, _ => w
  end.

(** [handleTransformEnd(e, index)], where [scaleX], [scaleY] and the node
    position are read from the transformed node. *)
Definition handleTransformEnd (index : Z) (scaleX scaleY nodeX nodeY : float) (w : World)
    : World :=
  match image (ui w), currentResults (app w) with
  | Some (imgW, imgH), Some r =>
      match Js.at_ (objects r) index with
      | Some obj =>
          let '(nbbox, nmask) :=
            scaleBboxAndMask obj scaleX scaleY nodeX nodeY imgW imgH in
          mkWorld (updateBboxInResults index nbbox nmask (app w)) (ui w)
      | None => w
      end
  | _, _ => w
  end.

(** [handleClassChange(newClassId)] *)
Definition handleClassChange (newClassId : Z) (w : World) : World :=
  match selectedObjectIndex (ui w), currentResults (app w) with
  | Some i, Some _ => mkWorld (updateObjectClass i newClassId (app w)) (ui w)
  | _, _ => w
  end.

(** The mode buttons: [onClick={() => setEditMode(m)}]. *)
Definition setEditMode (m : EditMode) (w : World) : World :=
  mkWorld (app w) (set_editMode m (ui w)).

(** *** Effects *)

(** "Clear selection if the selected object becomes hidden": the effect
    with dependencies [[hiddenObjects, selectedObjectIndex]]. *)
Definition hiddenSelectionEffect (w : World) : World :=
  match selectedObjectIndex (ui w) with
  | Some i =>
      if Js.includes (currentHiddenObjects (app w)) i
      then mkWorld (app w) (set_selected None (ui w))
      else w
  | None => w
  end.

(** "Set appropriate edit mode when detection mode changes": the effect
    with dependency [[detectionMode]]. *)
Definition detectionModeEffect (w : World) : World :=
  match detectionMode (app w) with
  | IMAGE_PROMPT => setEditMode DRAW w
  | _ => setEditMode SELECT w
  end.

(** "Ensure canvas switches to editing mode when detection results are
    received": the effect with dependency [[currentResults]]. *)
Definition resultsEffect (w : World) : World :=
  match currentResults (app w) with
  | Some _ => setEditMode SELECT w
  | None => w
  end.

(** "When the image is loaded, compute scaling to fit inside container":
    the effect with dependencies [[image, currentImage]].  [container] is
    the size of [containerRef.current], [None] when the ref is not set.
    The effect fits the scale, records the pixel size of an image whose
    stored width or height is still [0], and resets the stage position,
    the selection and the edit mode. *)
Definition imageEffect (container : option (float * float)) (w : World) : World :=
  match image (ui w), container with
  | Some (imgW, imgH), Some (cW, cH) =>
      let a :=
        match currentImage (app w) with
        | Some img =>
            if ((img_width img =? 0)%float || (img_height img =? 0)%float)%bool
            then updateImageDimensions (img_id img) imgW imgH (app w)
            else app w
        | None => app w
        end in
      mkWorld a
        (set_editMode SELECT
           (set_selected None
              (set_stagePosition (0%float, 0%float)
                 (fitToContainer cW cH imgW imgH (ui w)))))
  | _, _ => w
  end.

(** "Handle window resizing": the [resize] listener. *)
Definition onResize (container : option (float * float)) (w : World) : World :=
  match image (ui w), container with
  | Some (imgW, imgH), Some (cW, cH) =>
      mkWorld (app w) (fitToContainer cW cH imgW imgH (ui w))
  | _, _ => w
  end.

(** Whether [renderDetections] draws a group for object [i]: only drawn
    objects receive clicks and drags. *)
Definition rendered (w : World) (i : Z) : bool :=
  match image (ui w), currentResults (app w) with
  | Some _, Some r =>
      match Js.at_ (objects r) i with
      | Some obj =>
          negb (Js.includes (currentHiddenObjects (app w)) i)
          && (0 <=? class_id obj)%Z
          && (class_id obj <? Z.of_nat (length (classes r)))%Z
      | None => false
      end
  | _, _ => false
  end.

(** *** Events and steps *)

(** What can happen to the canvas: pointer and keyboard events on the
    stage, clicks on the mode buttons, clicks and drags on a drawn
    object, the visibility toggle of the results panel, the context
    operations that other panels call, and the two mode effects above,
    which React runs after a render in which their dependency changed,
    the arrival of the loaded image and a resize of the window. *)
Inductive Event :=
| EMouseDown (onStage : bool) (pointerPos : option (float * float))
| EMouseMove (pointerPos : option (float * float)) (movement : float * float)
| EMouseUp
| ESetEditMode (m : EditMode)
| EKeyDelete
| EKeyEscape
| EBoxSelect (index : Z)
| EGroupDragEnd (index : Z) (dx dy : float)
| ETransformEnd (index : Z) (scaleX scaleY nodeX nodeY : float)
| EClassChange (newClassId : Z)
| EToggleVisibility (index : Z)
| EAddDetectionResult (imageId : string) (result : Results)
| ESetDetectionMode (m : DetectionMode)
| EAddImage (id name : string)
| EGoToImage (idx : Z)
| ERemoveImage (id : string)
| EImageLoaded (imgW imgH : float) (container : option (float * float))
| EResize (container : option (float * float))
| EDetectionModeEffect
| EResultsEffect.

(** Installing a new context state: [useImage] drops the loaded image
    when the URL of the current image changes. *)
Definition withApp (a : AppContext.State) (w : World) : World :=
  if bool_decide (img_id <$> currentImage a = img_id <$> currentImage (app w))
  then mkWorld a (ui w)
  else mkWorld a (set_image None (ui w)).

Definition handle (e : Event) (w : World) : World :=
  match e with
  | EMouseDown onStage p => handleMouseDown onStage p w
  | EMouseMove p mv => handleMouseMove p mv w
  | EMouseUp => handleMouseUp w
  | ESetEditMode m => setEditMode m w
  | EKeyDelete => handleKeyDelete w
  | EKeyEscape => handleKeyEscape w
  | EBoxSelect i => if rendered w i then handleBoxSelect i w else w
  | EGroupDragEnd i dx dy =>
      if rendered w i && bool_decide (editMode (ui w) = SELECT)
      then handleGroupDragEnd i dx dy w else w
  | ETransformEnd i sx sy nx ny =>
      if rendered w i && bool_decide (selectedObjectIndex (ui w) = Some i)
         && bool_decide (editMode (ui w) = SELECT)
      then handleTransformEnd i sx sy nx ny w else w
  | EClassChange c => handleClassChange c w
  | EToggleVisibility i => mkWorld (toggleObjectVisibility i (app w)) (ui w)
  | EAddDetectionResult id r => mkWorld (addDetectionResult id r (app w)) (ui w)
  | ESetDetectionMode m => mkWorld (setDetectionMode m (app w)) (ui w)
  | EAddImage id name => withApp (addImage id name (app w)) w
  | EGoToImage idx => withApp (goToImage idx (app w)) w
  | ERemoveImage id => withApp (removeImage id (app w)) w
  | EImageLoaded imgW imgH container =>
      (* [useImage] delivers the image of the current URL, and the
         effect on [[image, currentImage]] runs; without a current
         image the URL is empty and nothing is loaded *)
      match currentImage (app w) with
      | Some _ =>
          imageEffect container
            (mkWorld (app w) (set_image (Some (imgW, imgH)) (ui w)))
      | None => w
      end
  | EResize container => onResize container w
  | EDetectionModeEffect => detectionModeEffect w
  | EResultsEffect => resultsEffect w
  end.

(** One step: the handler, then the hidden-selection effect.  That effect
    depends on the hidden list and on the selection; it changes nothing
    when neither changed, so running it after every handler is the same
    as running it on a change. *)
Definition step (e : Event) (w : World) : World :=
  hiddenSelectionEffect (handle e w).

Definition run (es : list Event) (w : World) : World :=
  fold_left (fun w e => step e w) es w.

(** The state after mounting with no image. *)
Definition initialApp : AppContext.State :=
  mkState [] (-1) TEXT_PROMPT (mkPrompts [] []) ∅ ∅.

Definition initialLocal : Local :=
  mkLocal None 1%float false (0%float, 0%float) None None SELECT
          (0%float, 0%float) false (0%float, 0%float).

Definition initialWorld : World := mkWorld initialApp initialLocal.

Inductive reachable : World -> Prop :=
| reachable_init : reachable initialWorld
| reachable_step w e : reachable w -> reachable (step e w).

(** *** The view *)

(** [handleResetView()]: [container] is the size of [containerRef.current],
    [None] when the ref is not set. *)
Definition handleResetView (container : option (float * float)) (w : World) : World :=
  let u1 := set_stagePosition (0%float, 0%float) (ui w) in
  match image u1, container with
  | Some (imgW, imgH), Some (cW, cH) =>
      mkWorld (app w) (set_scale (fitScale cW cH imgW imgH) u1)
  | _, _ => mkWorld (app w) u1
  end.

(** The [boundBoxFunc] of the transformer: a resize below 5 pixels in
    width or height is refused. *)
Definition boundBoxFunc (oldBox newBox : Box) : Box :=
  if ((box_width newBox <? 5)%float || (box_height newBox <? 5)%float)%bool
  then oldBox else newBox.

End Canvas.

(** ** The YOLO export (app/utils/conversion.py) *)

Module Conversion.

(** The Python values an annotation dictionary can hold. *)
#[local] Unset Elimination Schemes.
Inductive PyVal :=
| PyNone
| PyInt (z : Z)
| PyFloat (f : float)
| PyStr (s : string)
| PyList (l : list PyVal)
| PyDict (d : list (string * PyVal)).
#[local] Set Elimination Schemes.

(** The exceptions the function body can raise. *)
Inductive PyExn := KeyError | TypeError | ValueError | IndexError | OverflowError.

#[global] Instance PyExn_eq_dec : EqDecision PyExn.
Proof. solve_decision. Defined.

(** A computation that returns or raises. *)
Inductive res (A : Type) :=
| Ok (a : A)
| Raise (e : PyExn).
Arguments Ok {A} a.
Arguments Raise {A} e.

#[global] Instance res_ret : MRet res := fun _ a => Ok a.
#[global] Instance res_bind : MBind res := fun _ _ f m =>
  match m with
  | Ok a => f a
  | Raise e => Raise e
  end.

(** An annotation is a dictionary with string keys. *)
Abbreviation annotation := (gmap string PyVal).

(** A record of [logging.warning]: the annotation skipped for its
    missing or unknown category name, or the caught exception together
    with the annotation. *)
Inductive Warning :=
| WCategory (ann : annotation)
| WError (e : PyExn) (ann : annotation).

(** A [str] is held as its UTF-8 bytes, and its items are its code
    points: a byte [10xxxxxx] continues the character before it. *)
Definition continuation (c : Ascii.ascii) : bool :=
  let n := Ascii.nat_of_ascii c in (128 <=? n)%nat && (n <? 192)%nat.

(** The continuation bytes a string starts with, and the characters
    after them. *)
Fixpoint split_points (s : string) : string * list string :=
  match s with
  | EmptyString => (EmptyString, [])
  | String c rest =>
      let '(pending, chars) := split_points rest in
      if continuation c then (String c pending, chars)
      else (EmptyString, String c pending :: chars)
  end.

Definition code_points (s : string) : list string :=
  let '(pending, chars) := split_points s in
  match pending with
  | EmptyString => chars
  | _ => pending :: chars
  end.

(** [v[i]] for a non-negative integer literal [i]. *)
Definition subscript (v : PyVal) (i : nat) : res PyVal :=
  match v with
  | PyList l => match l !! i with Some x => Ok x | None => Raise IndexError end
  | PyStr s =>
      match code_points s !! i with
      | Some c => Ok (PyStr c)
      | None => Raise IndexError
      end
  | PyDict _ => Raise KeyError
  | PyNone | PyInt _ | PyFloat _ => Raise TypeError
  end.

(** The conversion of a Python [int] to a [float]: the nearest binary64
    value, ties to even; [OverflowError] when that is beyond the largest
    finite value. *)
Definition float_of_int (z : Z) : res float :=
  let f := SF2Prim (binary_normalize prec emax z 0 false) in
  if is_infinity f then Raise OverflowError else Ok f.

(** [".6f"]: the exact value of the float, rounded to six decimals with
    ties to even. *)
Fixpoint digits (k : nat) (n : Z) : string :=
  match k with
  | O => EmptyString
  | S k' => digits k' (n / 10) +:+ pretty (n mod 10)%Z
  end.

Definition round_micro (m : positive) (e : Z) : Z :=
  let num := (Z.pos m * 1000000)%Z in
  if (0 <=? e)%Z then (num * 2 ^ e)%Z
  else
    let den := (2 ^ (- e))%Z in
    let q := (num / den)%Z in
    let r := (num mod den)%Z in
    match (2 * r ?= den)%Z with
    | Lt => q
    | Gt => (q + 1)%Z
    | Eq => if Z.even q then q else (q + 1)%Z
    end.

Definition format_6f (f : float) : string :=
  match Prim2SF f with
  | S754_nan => "nan"
  | S754_infinity s => if s then "-inf" else "inf"
  | S754_zero s => (if s then "-" else "") +:+ "0.000000"
  | S754_finite s m e =>
      let n := round_micro m e in
      (if s then "-" else "") +:+ pretty (n / 1000000)%Z +:+ "." +:+ digits 6 (n mod 1000000)
  end.

(** The builtins [min(1.0, v)] and [max(0.0, v)]: the first argument is
    kept unless the second compares strictly below (above) it. *)
Definition clamp01 (v : float) : float :=
  let m := if (v <? 1)%float then v else 1%float in
  if (0 <? m)%float then m else 0%float.

Section YoloExport.

(** The builtin [float] on a [str]: the parsed value, or [None] for
    [ValueError]. *)
Variable float_of_str : string -> option float.

(** [float(v)] *)
Definition py_float (v : PyVal) : res float :=
  match v with
  | PyFloat f => Ok f
  | PyInt z => float_of_int z
  | PyStr s => match float_of_str s with Some f => Ok f | None => Raise ValueError end
  | PyNone | PyList _ | PyDict _ => Raise TypeError
  end.

(** [float(ann.get(key, ann.get('bbox', [0, 0, 0, 0])[i]))]: the default
    argument is evaluated before the lookup of [key]. *)
Definition field (ann : annotation) (key : string) (i : nat) : res float :=
  d ← subscript (default (PyList [PyInt 0; PyInt 0; PyInt 0; PyInt 0]) (ann !! "bbox")) i;
  py_float (default d (ann !! key)).

(** The line of an annotation: [f"{class_id} {x:.6f} {y:.6f} {w:.6f} {h:.6f}"]. *)
Definition yolo_line (class_id : Z) (xc yc w h : float) : string :=
  pretty class_id +:+ " " +:+ format_6f xc +:+ " " +:+ format_6f yc +:+ " "
    +:+ format_6f w +:+ " " +:+ format_6f h.

(** The body of the [try] for one annotation: [inl] the line to append,
    [inr] the warning of the [continue] branch, or a raised exception. *)
Definition try_body (ann : annotation) (image_width image_height : Z)
    (class_name_to_id : gmap string Z) : res (string + Warning) :=
  let class_name := default PyNone (ann !! "category_name") in
  match class_name with
  | PyNone => Ok (inr (WCategory ann))
  | PyList _ | PyDict _ => Raise TypeError
  | PyInt _ | PyFloat _ => Ok (inr (WCategory ann))
  | PyStr name =>
      match class_name_to_id !! name with
      | None => Ok (inr (WCategory ann))
      | Some class_id =>
          x_min ← field ann "x" 0;
          y_min ← field ann "y" 1;
          width ← field ann "width" 2;
          height ← field ann "height" 3;
          let x_center := (x_min + width / 2)%float in
          let y_center := (y_min + height / 2)%float in
          fw ← float_of_int image_width;
          let x_center_norm := (x_center / fw)%float in
          fh ← float_of_int image_height;
          let y_center_norm := (y_center / fh)%float in
          let width_norm := (width / fw)%float in
          let height_norm := (height / fh)%float in
          Ok (inl (yolo_line class_id (clamp01 x_center_norm) (clamp01 y_center_norm)
                             (clamp01 width_norm) (clamp01 height_norm)))
      end
  end.

(** [except (KeyError, TypeError, ValueError, IndexError)] *)
Definition caught (e : PyExn) : bool :=
  match e with
  | KeyError | TypeError | ValueError | IndexError => true
  | OverflowError => false
  end.

(** The [for] loop: the lines and warnings so far, then the rest of the
    annotations. *)
Fixpoint loop (annotations : list annotation) (image_width image_height : Z)
    (class_name_to_id : gmap string Z) (yolo_lines : list string) (log : list Warning)
    : res (list string) * list Warning :=
  match annotations with
  | [] => (Ok yolo_lines, log)
  | ann :: rest =>
      match try_body ann image_width image_height class_name_to_id with
      | Ok (inl line) =>
          loop rest image_width image_height class_name_to_id (yolo_lines ++ [line]) log
      | Ok (inr w) =>
          loop rest image_width image_height class_name_to_id yolo_lines (log ++ [w])
      | Raise e =>
          if caught e then
            loop rest image_width image_height class_name_to_id yolo_lines
                 (log ++ [WError e ann])
          else (Raise e, log)
      end
  end.

(** ["\n".join(lines)] *)
Fixpoint join_lines (lines : list string) : string :=
  match lines with
  | [] => EmptyString
  | [l] => l
  | l :: rest => l +:+ String (Ascii.ascii_of_nat 10) (join_lines rest)
  end.

(** [convert_to_yolo_format(annotations, image_width, image_height,
    class_name_to_id)]: the returned string or the exception that
    escapes, and the warnings logged. *)
Definition convert_to_yolo_format (annotations : list annotation)
    (image_width image_height : Z) (class_name_to_id : gmap string Z)
    : res string * list Warning :=
  match annotations with
  | [] => (Ok EmptyString, [])
  | _ =>
      if ((image_width <=? 0)%Z || (image_height <=? 0)%Z)%bool
      then (Ok EmptyString, [])
      else
        let '(r, log) :=
          loop annotations image_width image_height class_name_to_id [] [] in
        (match r with
         | Ok yolo_lines => Ok (join_lines yolo_lines)
         | Raise e => Raise e
         end, log)
  end.

End YoloExport.

End Conversion.

(** * Statements: auxiliary notions, sample states and the claims as stated *)

Section Statements.
Import AppContext Canvas.

(** What the claim asks of the hidden list after the removal of [k]. *)
Definition renumbered (k : Z) (hidden hidden' : list Z) : Prop :=
  forall j, j ∈ hidden' <-> ((j < k)%Z /\ j ∈ hidden) \/ ((k <= j)%Z /\ (j + 1)%Z ∈ hidden).

(** A store with three objects of which the last is hidden. *)
Definition obj_a : DetObject := mkObject 0 [0; 0; 0.5; 0.5]%float None 1%float.
Definition obj_b : DetObject := mkObject 1 [0.25; 0.25; 0.5; 0.5]%float None 0.5%float.
Definition obj_c : DetObject := mkObject 0 [0.5; 0.5; 1; 1]%float None 0.75%float.

Definition three_objects : State :=
  mkState [mkImage "img1" "a.png" 200%float 100%float] 0 TEXT_PROMPT (mkPrompts [] [])
          {[ "img1" := mkResults [obj_a; obj_b; obj_c] ["person"; "car"] ]}
          {[ "img1" := [2%Z] ]}.

(** C10 as the claim states it: for an index in range,
    [updateBboxInResults(i, b, null)] replaces the [bbox] of object [i]
    and leaves its other fields and every other object as they were. *)
Definition update_replaces_only_bbox_claim : Prop :=
  forall st img r i (b : list float) o,
    currentImage st = Some img ->
    detectionResults st !! img_id img = Some r ->
    Js.at_ (objects r) i = Some o ->
    exists r',
      detectionResults (updateBboxInResults i b None st) !! img_id img = Some r'
      /\ Js.at_ (objects r') i = Some (mkObject (class_id o) b (mask o) (confidence o))
      /\ (forall j, j ≠ i -> Js.at_ (objects r') j = Js.at_ (objects r) j).

(** No selected index is in the hidden list of the current image. *)
Definition selection_visible (w : World) : Prop :=
  forall i, selectedObjectIndex (ui w) = Some i ->
            Js.includes (currentHiddenObjects (app w)) i = false.

(** The container of the canvas in the sample sessions: 800 by 600
    pixels, in which an image of 200 by 100 is shown at scale 1. *)
Definition sample_container : option (float * float) := Some (800, 600)%float.

(** A session in text-prompt mode: an image is added and loaded, the
    Draw button is clicked, and a box of 100 by 50 pixels is dragged out
    (the pointer is still down). *)
Definition draw_gesture : list Event :=
  [ ESetEditMode DRAW;
    EMouseDown true (Some (50, 25)%float);
    EMouseMove (Some (150, 75)%float) (100, 50)%float ].

Definition text_session : World :=
  run ([ EAddImage "img1" "a.png"; EImageLoaded 200 100 sample_container ]
       ++ draw_gesture) initialWorld.

(** The same gesture after detection results arrived for the image. *)
Definition results_session : World :=
  run ([ EAddImage "img1" "a.png"; EImageLoaded 200 100 sample_container;
         EAddDetectionResult "img1" (mkResults [obj_a] ["person"]); EResultsEffect ]
       ++ draw_gesture) initialWorld.

(** The same gesture in the image-prompt workflow. *)
Definition prompt_session : World :=
  run [ EAddImage "img1" "a.png"; EImageLoaded 200 100 sample_container;
        ESetDetectionMode IMAGE_PROMPT; EDetectionModeEffect;
        EMouseDown true (Some (50, 25)%float);
        EMouseMove (Some (150, 75)%float) (100, 50)%float ] initialWorld.

(** Pointer-up finds a draw gesture to finish: the box [cb] is being
    drawn in Draw mode on the loaded image. *)
Definition finishing_draw (w : World) (cb : Box) (imgW imgH : float) : Prop :=
  drawing (ui w) = true /\ currentBox (ui w) = Some cb
  /\ image (ui w) = Some (imgW, imgH) /\ editMode (ui w) = DRAW.

(** The size test of [handleMouseUp]. *)
Definition above_threshold (cb : Box) : bool :=
  ((5 <? box_width cb)%float && (5 <? box_height cb)%float)%bool.

(** What finishing the box [cb] on an image of [imgW] by [imgH] pixels
    stores ([handleMouseUp]): above the threshold, the normalized box
    goes to the prompt list in image-prompt mode, and to the result set
    of the current image when there is one; otherwise nothing is
    stored. *)
Definition committed (cb : Box) (imgW imgH : float) (a : AppContext.State)
    : AppContext.State :=
  if above_threshold cb then
    match detectionMode a with
    | IMAGE_PROMPT =>
        updateImagePrompts (bboxes (imagePrompts a) ++ [normalizeBox cb imgW imgH])
                           (cls (imagePrompts a) ++ [0%Z]) a
    | _ =>
        match currentResults a with
        | Some _ => addBboxToResults (normalizeBox cb imgW imgH) 0 None a
        | None => a
        end
    end
  else a.


(** C9 as the claim states it: finishing an above-threshold box on an
    image without a result set creates the result set with that
    object. *)
Definition first_box_creates_store_claim : Prop :=
  forall w cb imgW imgH img,
    finishing_draw w cb imgW imgH ->
    above_threshold cb = true ->
    currentImage (app w) = Some img ->
    detectionResults (app w) !! img_id img = None ->
    exists r o,
      detectionResults (app (handleMouseUp w)) !! img_id img = Some r
      /\ last (objects r) = Some o
      /\ bbox o = normalizeBox cb imgW imgH.

(** The events the claim lets follow the switch: pointer moves, pointer
    up, and further clicks on the mode buttons. *)
Inductive pointer_or_mode : Event -> Prop :=
| pm_move p mv : pointer_or_mode (EMouseMove p mv)
| pm_up : pointer_or_mode EMouseUp
| pm_mode m : pointer_or_mode (ESetEditMode m).

(** C6 as the claim states it: once the mode is switched away from Draw
    during a gesture, nothing of the gesture is ever committed. *)
Definition mode_switch_discards_claim : Prop :=
  forall w m es,
    reachable w ->
    drawing (ui w) = true -> editMode (ui w) = DRAW ->
    m ≠ DRAW ->
    Forall pointer_or_mode es ->
    app (run (ESetEditMode m :: es) w) = app w.

(** The events that keep the mode away from Draw. *)
Inductive gated : Event -> Prop :=
| gated_move p mv : gated (EMouseMove p mv)
| gated_up : gated EMouseUp
| gated_mode m : m ≠ DRAW -> gated (ESetEditMode m).

(** Sample export input: the class map of the source's self-test, an
    annotation of the documented shape (a category name and a box of four
    numbers), and one whose box holds an integer beyond the binary64 range
    and a [None]. *)
Definition class_map : gmap string Z := {[ "person" := 0%Z; "car" := 1%Z; "dog" := 2%Z ]}.

Definition box_annotation (name : string) (x1 y1 w h : Conversion.PyVal) : Conversion.annotation :=
  {[ "category_name" := Conversion.PyStr name; "bbox" := Conversion.PyList [x1; y1; w; h] ]}.

Definition good_annotation : Conversion.annotation :=
  box_annotation "person" (Conversion.PyInt 0) (Conversion.PyInt 0)
                 (Conversion.PyInt 100) (Conversion.PyInt 50).

Definition overflowing_annotation : Conversion.annotation :=
  box_annotation "person" (Conversion.PyInt (10 ^ 400)) (Conversion.PyInt 0)
                 Conversion.PyNone (Conversion.PyInt 5).

(** A parser for [float] on strings that accepts nothing; the sample
    inputs hold no strings in their boxes. *)
Definition no_parse (s : string) : option float := None.



(** What the export reads from an annotation of the documented shape:
    the class id and the absolute box [[x_min, y_min, width, height]]. *)
Record Row := mkRow {
  row_class : Z;
  row_x : float;
  row_y : float;
  row_width : float;
  row_height : float
}.


(** The clamp as the specification words it: a value at or below 0
    becomes 0, a value at or above 1 becomes 1, a value in between is
    kept.  NaN, which no comparison orders, comes out as 1. *)
Definition truncate01 (v : float) : float :=
  if (v <=? 0)%float then 0%float
  else if (1 <=? v)%float then 1%float
  else if is_nan v then 1%float
  else v.

(** The line of a row on an image of width [fW] and height [fH], as the
    specification words it: the class id, then the normalized center and
    size, each truncated into [[0, 1]] and written with six decimals. *)
Definition spec_line (fW fH : float) (row : Row) : string :=
  let xc := (row_x row + row_width row / 2)%float in
  let yc := (row_y row + row_height row / 2)%float in
  pretty (row_class row)
    +:+ " " +:+ Conversion.format_6f (truncate01 (xc / fW))
    +:+ " " +:+ Conversion.format_6f (truncate01 (yc / fH))
    +:+ " " +:+ Conversion.format_6f (truncate01 (row_width row / fW))
    +:+ " " +:+ Conversion.format_6f (truncate01 (row_height row / fH)).



(** ** The real value of a binary64 number *)

(** [2 ^ e] for an integer exponent. *)
Definition pow2 (e : Z) : R := powerRZ 2 e.

(** The real number a finite float stands for; zero for the others. *)
Definition SF2R (x : spec_float) : R :=
  match x with
  | S754_finite s m e => ((if s then -1 else 1) * IZR (Zpos m) * pow2 e)%R
  | _ => 0%R
  end.

Definition F2R (f : float) : R := SF2R (Prim2SF f).

(** Zeros and finite numbers, as opposed to NaN and the infinities. *)
Definition SF_finite (x : spec_float) : bool :=
  match x with
  | S754_finite _ _ _ | S754_zero _ => true
  | _ => false
  end.

Definition finite (f : float) : Prop := SF_finite (Prim2SF f) = true.

(** The unit roundoff [2 ^ -53] and the underflow unit [2 ^ -1075]. *)
Definition u64 : R := pow2 (-53).
Definition eta64 : R := pow2 (-1075).

(** Where a real [x] lies with respect to [m * 2 ^ e]: what a [location]
    records. *)
Definition located (m e : Z) (l : location) (x : R) : Prop :=
  match l with
  | loc_Exact => x = (IZR m * pow2 e)%R
  | loc_Inexact Lt => (IZR m * pow2 e < x < (IZR m + / 2) * pow2 e)%R
  | loc_Inexact Eq => x = ((IZR m + / 2) * pow2 e)%R
  | loc_Inexact Gt => ((IZR m + / 2) * pow2 e < x < (IZR m + 1) * pow2 e)%R
  end.

(** A computed float [r] is finite and within [tol] of the real [v]. *)
Definition within (tol : R) (r : float) (v : R) : Prop :=
  finite r /\ (Rabs (F2R r - v) <= tol)%R.

(** A computed float [r] is finite and within [tol] of the value of [b]. *)
Definition close (tol : R) (r b : float) : Prop := within tol r (F2R b).

(** A float within the bounds [-2^500] and [2^500]. *)
Definition in_range (v : float) : Prop :=
  (-0x1p500 <=? v)%float = true /\ (v <=? 0x1p500)%float = true.

(** The tolerance of a translation by [d] of a quantity [x]: a relative
    [10^-13] of their magnitudes (and of one unit). *)
Definition tolerance (x d : R) : R := (/ 10000000000000 * (Rabs x + Rabs d + 1))%R.

(** An image dimension: a pixel count, at least one (and below [2^500]). *)
Definition image_dimension (W : float) : Prop :=
  (1 <=? W)%float = true /\ (W <=? 0x1p500)%float = true.

(** A normalized box [[x1, y1, x2, y2]] with [0 <= x1 <= x2 <= 1] and
    [0 <= y1 <= y2 <= 1]. *)
Definition unit_box (b : list float) : Prop :=
  match b with
  | [x1; y1; x2; y2] =>
      ((0 <=? x1)%float = true /\ (x1 <=? x2)%float = true /\ (x2 <=? 1)%float = true)
      /\ ((0 <=? y1)%float = true /\ (y1 <=? y2)%float = true /\ (y2 <=? 1)%float = true)
  | _ => False
  end.

(** The object after a drag by [(dx, dy)]: [handleGroupDragEnd] passes the
    shifted box and mask to [updateBboxInResults], which stores the box
    and, when it is not null, the mask. *)
Definition translate (obj : DetObject) (dx dy imgW imgH : float) : DetObject :=
  let '(nbbox, nmask) := shiftBboxAndMask obj dx dy imgW imgH in
  let obj1 := set_bbox nbbox obj in
  match nmask with
  | Some m => set_mask (Some m) obj1
  | None => obj1
  end.

(** The coordinate [r] is [x] moved by [d], and the coordinate [r] is [x]
    again, each within the tolerance of a translation by [d]. *)
Definition moved_by (d : R) (x r : float) : Prop :=
  within (tolerance (F2R x) d) r (F2R x + d)%R.

Definition restored (d : R) (x r : float) : Prop :=
  within (tolerance (F2R x) d) r (F2R x).

(** The coordinate [r] is [x] taken to pixels with the dimension
    [fst Wd], moved there by the pixel offset [snd Wd], and normalized
    again. *)
Definition pixel_shift (Wd : float * float) (x r : float) : Prop :=
  r = ((x * fst Wd + snd Wd) / fst Wd)%float.

(** A relation between coordinates, taken over the four coordinates of a
    box (with the offset [dX] for the first and third, [dY] for the
    others), and over the points of an optional mask. *)
Definition box_rel {D : Type} (P : D -> float -> float -> Prop) (dX dY : D)
    (b b' : list float) : Prop :=
  match b, b' with
  | [x1; y1; x2; y2], [r1; s1; r2; s2] => P dX x1 r1 /\ P dY y1 s1 /\ P dX x2 r2 /\ P dY y2 s2
  | _, _ => False
  end.

Definition mask_rel (P : R -> float -> float -> Prop) (dX dY : R)
    (m m' : option (list (float * float))) : Prop :=
  match m, m' with
  | Some l, Some l' =>
      Forall2 (fun p q => P dX (fst p) (fst q) /\ P dY (snd p) (snd q)) l l'
  | None, None => True
  | _, _ => False
  end.

(** The coordinates of an object are within the bounds. *)
Definition object_in_range (obj : DetObject) : Prop :=
  length (bbox obj) = 4%nat
  /\ Forall in_range (bbox obj)
  /\ match mask obj with
     | Some m => Forall (fun pt => in_range (fst pt) /\ in_range (snd pt)) m
     | None => True
     end.

(** A sample object with a triangular mask, in an image of 200 by 100. *)
Definition masked_object : DetObject :=
  mkObject 0 [0.25; 0.25; 0.75; 0.5]%float
           (Some [(50, 25); (150, 25); (150, 50)]%float) 1%float.

(** The coordinate [r] is [x] again, within a tolerance that does not
    depend on any offset: a relative [10^-6] of [x] (and of one unit),
    far above the rounding error of a single operation. *)
Definition returned (x r : float) : Prop :=
  within (/ 1000000 * (Rabs (F2R x) + 1))%R r (F2R x).

(** C8 as the claim states it: for every offset, the drag by [(dx, dy)]
    followed by the drag by [(-dx, -dy)] returns the box and the mask
    points, within floating-point tolerance. *)
Definition translate_restores_claim : Prop :=
  forall (obj : DetObject) (dx dy W H : float),
    object_in_range obj -> in_range dx -> in_range dy ->
    image_dimension W -> image_dimension H ->
    let back := translate (translate obj dx dy W H) (- dx)%float (- dy)%float W H in
    box_rel (fun _ : unit => returned) tt tt (bbox obj) (bbox back)
    /\ mask_rel (fun _ => returned) 0 0 (mask obj) (mask back).

(** ** The context operations as a whole *)

(** The operations of the context that act on the modelled cells. *)
Inductive Op :=
| OAddImage (id name : string)
| ORemoveImage (id : string)
| OGoToImage (idx : Z)
| ONextImage
| OPrevImage
| OUpdateImageDimensions (id : string) (w h : float)
| OSetDetectionMode (m : DetectionMode)
| OUpdateImagePrompts (bs : list (list float)) (cs : list Z)
| OAddDetectionResult (imageId : string) (result : Results)
| OAddBboxToResults (b : list float) (classId : Z) (m : option (list (float * float)))
| OUpdateBboxInResults (index : Z) (b : list float) (m : option (list (float * float)))
| ORemoveBboxFromResults (index : Z)
| OUpdateObjectClass (index : Z) (newClassId : Z)
| OToggleObjectVisibility (index : Z).

Definition perform (o : Op) (st : State) : State :=
  match o with
  | OAddImage id name => addImage id name st
  | ORemoveImage id => removeImage id st
  | OGoToImage idx => goToImage idx st
  | ONextImage => nextImage st
  | OPrevImage => prevImage st
  | OUpdateImageDimensions id w h => updateImageDimensions id w h st
  | OSetDetectionMode m => setDetectionMode m st
  | OUpdateImagePrompts bs cs => updateImagePrompts bs cs st
  | OAddDetectionResult id r => addDetectionResult id r st
  | OAddBboxToResults b c m => addBboxToResults b c m st
  | OUpdateBboxInResults i b m => updateBboxInResults i b m st
  | ORemoveBboxFromResults i => removeBboxFromResults i st
  | OUpdateObjectClass i c => updateObjectClass i c st
  | OToggleObjectVisibility i => toggleObjectVisibility i st
  end.

Definition performAll (ops : list Op) (st : State) : State :=
  fold_left (fun st o => perform o st) ops st.

(** The current index is [-1] while there is no image, and the index of
    an image otherwise. *)
Definition index_ok (st : State) : Prop :=
  (images st = [] /\ currentImageIndex st = (-1)%Z)
  \/ (0 <= currentImageIndex st < Z.of_nat (length (images st)))%Z.

(** Object [j] of the current image is hidden. *)
Definition hidden_now (st : State) (j : Z) : bool :=
  Js.includes (currentHiddenObjects st) j.

(** A store with two images, the second one current. *)
Definition two_images : State :=
  mkState [mkImage "img1" "a.png" 200%float 100%float;
           mkImage "img2" "b.png" 0%float 0%float] 1 TEXT_PROMPT (mkPrompts [] [])
          {[ "img1" := mkResults [obj_a; obj_b; obj_c] ["person"; "car"] ]}
          {[ "img1" := [2%Z] ]}.

(** ** The canvas as a whole *)

(** No box is being drawn. *)
Definition gesture_idle (w : World) : Prop :=
  drawing (ui w) = false /\ currentBox (ui w) = None.

(** The image prompts are aligned: as many class ids as boxes, every box
    with four coordinates, every class id 0. *)
Definition prompts_aligned (ip : ImagePrompts) : Prop :=
  length (bboxes ip) = length (cls ip)
  /\ Forall (fun b => length b = 4%nat) (bboxes ip)
  /\ Forall (fun c => c = 0%Z) (cls ip).

(** The pointer events of the stage. *)
Inductive stage_pointer : Event -> Prop :=
| sp_down onStage p : stage_pointer (EMouseDown onStage p)
| sp_move p mv : stage_pointer (EMouseMove p mv)
| sp_up : stage_pointer EMouseUp.

(** The object that [updateBboxInResults] leaves in place of [obj] for
    the box [b] and the mask argument [m]. *)
Definition stored (b : list float) (m : option (list (float * float))) (obj : DetObject)
    : DetObject :=
  match m with
  | Some m' => set_mask (Some m') (set_bbox b obj)
  | None => set_bbox b obj
  end.

(** The results session with the pointer released, Select mode and the
    first object selected. *)
Definition selected_session : World :=
  run [EKeyEscape; ESetEditMode SELECT; EBoxSelect 0] results_session.

(** A box is held exactly while the draw gesture is on. *)
Definition gesture_coherent (w : World) : Prop :=
  drawing (ui w) = true <-> is_Some (currentBox (ui w)).

(** The mask points of an object are within the bounds. *)
Definition mask_in_range (obj : DetObject) : Prop :=
  match mask obj with
  | Some m => Forall (fun pt => in_range (fst pt) /\ in_range (snd pt)) m
  | None => True
  end.

(** ** More export samples *)

(** An annotation of a class that the map does not know, and one with the
    four explicit keys and a box that is too short. *)
Definition unknown_annotation : Conversion.annotation :=
  box_annotation "cat" (Conversion.PyInt 0) (Conversion.PyInt 0)
                 (Conversion.PyInt 10) (Conversion.PyInt 10).

Definition keyed_annotation (box : list Conversion.PyVal) : Conversion.annotation :=
  {[ "category_name" := Conversion.PyStr "person";
     "bbox" := Conversion.PyList box;
     "x" := Conversion.PyFloat 0; "y" := Conversion.PyFloat 0;
     "width" := Conversion.PyFloat 100; "height" := Conversion.PyFloat 50 ]}.

End Statements.

(** * Properties of the object-set store *)

Section StoreFacts.
Import AppContext.

Implicit Types (st : State) (img : Image) (r : Results) (k i j : Z).

(** In-range reads and the splice. *)
Lemma at_Some_range {A} (a : list A) i x :
  Js.at_ a i = Some x -> (0 <= i < Z.of_nat (length a))%Z.
Proof.
  unfold Js.at_. destruct (Z.ltb_spec i 0); [done|].
  intros H1%lookup_lt_Some. lia.
Qed.

Lemma at_None_range {A} (a : list A) i :
  Js.at_ a i = None <-> (i < 0 \/ Z.of_nat (length a) <= i)%Z.
Proof.
  unfold Js.at_. destruct (Z.ltb_spec i 0).
  - split; [auto | done].
  - rewrite lookup_ge_None. lia.
Qed.

Lemma at_nat {A} (a : list A) (n : nat) : Js.at_ a (Z.of_nat n) = a !! n.
Proof.
  unfold Js.at_. destruct (Z.ltb_spec (Z.of_nat n) 0); [lia|].
  by rewrite Nat2Z.id.
Qed.

Lemma splice1_in_range {A} (a : list A) k :
  (0 <= k < Z.of_nat (length a))%Z ->
  Js.splice1 a k = take (Z.to_nat k) a ++ drop (S (Z.to_nat k)) a.
Proof.
  intros Hk. unfold Js.splice1.
  destruct (Z.ltb_spec k 0); [lia|].
  by rewrite Z.min_l by lia.
Qed.

(** Reading the spliced array: the part before [k] is kept, the part
    after it moves down by one. *)
Lemma splice1_lookup {A} (a : list A) k j :
  (0 <= k < Z.of_nat (length a))%Z ->
  Js.at_ (Js.splice1 a k) j = if (j <? k)%Z then Js.at_ a j else Js.at_ a (j + 1).
Proof.
  intros Hk. rewrite splice1_in_range by done.
  unfold Js.at_.
  destruct (Z.ltb_spec j 0) as [Hj|Hj].
  - destruct (Z.ltb_spec j k); [done|lia].
  - destruct (Z.ltb_spec j k) as [Hjk|Hjk].
    + rewrite lookup_app_l by (rewrite length_take; lia).
      rewrite lookup_take_lt by lia. done.
    + destruct (Z.ltb_spec (j + 1) 0); [lia|].
      rewrite lookup_app_r by (rewrite length_take; lia).
      rewrite length_take, lookup_drop. f_equal. lia.
Qed.

Lemma splice1_length {A} (a : list A) k :
  (0 <= k < Z.of_nat (length a))%Z ->
  S (length (Js.splice1 a k)) = length a.
Proof.
  intros Hk. rewrite splice1_in_range by done.
  rewrite length_app, length_take, length_drop. lia.
Qed.

Lemma includes_spec (a : list Z) x : Js.includes a x = true <-> x ∈ a.
Proof.
  unfold Js.includes. rewrite existsb_exists, list_elem_of_In. split.
  - intros (y & Hy & ->%Z.eqb_eq). done.
  - intros Hx. exists x. by rewrite Z.eqb_refl.
Qed.

Lemma includes_false (a : list Z) x : Js.includes a x = false <-> x ∉ a.
Proof. rewrite <- includes_spec. by destruct (Js.includes a x). Qed.

Lemma filter_ne_spec (a : list Z) x j : j ∈ Js.filter_ne a x <-> j ∈ a /\ j ≠ x.
Proof.
  unfold Js.filter_ne. rewrite !list_elem_of_In, filter_In.
  rewrite negb_true_iff, Z.eqb_neq. done.
Qed.

(** The [filter] and [map] of [removeBboxFromResults] renumber the list. *)
Lemma filter_map_renumbered k (hidden : list Z) :
  renumbered k hidden
    (List.map (fun i => if (k <? i)%Z then (i - 1)%Z else i) (Js.filter_ne hidden k)).
Proof.
  intros j. rewrite list_elem_of_In, in_map_iff. split.
  - intros (i & <- & Hi%list_elem_of_In%filter_ne_spec). destruct Hi as [Hi Hne].
    destruct (Z.ltb_spec k i).
    + right. split; [lia|]. by replace (i - 1 + 1)%Z with i by lia.
    + left. split; [lia|done].
  - intros [[Hlt Hj]|[Hge Hj]].
    + exists j. split.
      * destruct (Z.ltb_spec k j); [lia|done].
      * apply list_elem_of_In, filter_ne_spec. split; [done|lia].
    + exists (j + 1)%Z. split.
      * destruct (Z.ltb_spec k (j + 1)); lia.
      * apply list_elem_of_In, filter_ne_spec. split; [done|lia].
Qed.

Lemma currentResults_Some st img r :
  currentImage st = Some img -> detectionResults st !! img_id img = Some r ->
  currentResults st = Some r.
Proof. unfold currentResults. by intros -> ->. Qed.

(** The JSON copy, entry by entry. *)
Lemma clone_lookup (m : gmap string Results) (id : string) :
  clone m !! id = clone <$> m !! id.
Proof. unfold clone at 1, clone_map. apply lookup_fmap. Qed.

Lemma clone_strings (l : list string) : clone l = l.
Proof. unfold clone, clone_list, clone_string. apply map_id. Qed.

Lemma clone_length {A} `{Clone A} (l : list A) : length (clone l) = length l.
Proof. unfold clone at 1, clone_list. apply length_map. Qed.

Lemma clone_app {A} `{Clone A} (l1 l2 : list A) : clone (l1 ++ l2) = clone l1 ++ clone l2.
Proof. unfold clone at 1 2 3, clone_list. apply map_app. Qed.

Lemma clone_insert (m : gmap string Results) (id : string) (r : Results) :
  clone (<[id := r]> m) = <[id := clone r]> (clone m).
Proof. unfold clone at 1 3, clone_map. apply fmap_insert. Qed.

Lemma clone_Results_eq (r : Results) : clone r = mkResults (clone (objects r)) (classes r).
Proof. unfold clone at 1, clone_Results. by rewrite clone_strings. Qed.

(** The parts of a value that the copy leaves as it is are left as they
    are. *)
Lemma stable_lookup (m : gmap string Results) (id : string) (r : Results) :
  json_stable m -> m !! id = Some r -> json_stable r.
Proof.
  unfold json_stable. intros Hm Hr.
  pose proof (clone_lookup m id) as Hl. rewrite Hm, Hr in Hl. by injection Hl.
Qed.

Lemma stable_objects (r : Results) : json_stable r -> json_stable (objects r).
Proof. unfold json_stable. intros Hr. by apply (f_equal objects) in Hr. Qed.

Lemma at_clone {A} `{Clone A} (l : list A) i : Js.at_ (clone l) i = clone <$> Js.at_ l i.
Proof.
  unfold Js.at_. destruct (i <? 0)%Z; [done|].
  unfold clone at 1, clone_list. change (List.map clone l) with (clone <$> l).
  apply list_lookup_fmap.
Qed.

(** The objects after a removal: always the splice of the copy. *)
Lemma removeBbox_objects_clone st img r k :
  currentImage st = Some img ->
  detectionResults st !! img_id img = Some r ->
  detectionResults (removeBboxFromResults k st) !! img_id img
    = Some (mkResults (Js.splice1 (objects (clone r)) k) (classes r)).
Proof.
  intros Himg Hr. unfold removeBboxFromResults. rewrite Himg. simpl.
  rewrite clone_lookup, Hr. simpl. rewrite lookup_insert_eq.
  unfold set_objects. simpl. by rewrite clone_strings.
Qed.

Lemma removeBbox_objects st img r k :
  json_stable (detectionResults st) ->
  currentImage st = Some img ->
  detectionResults st !! img_id img = Some r ->
  detectionResults (removeBboxFromResults k st) !! img_id img
    = Some (mkResults (Js.splice1 (objects r) k) (classes r)).
Proof.
  intros Hst Himg Hr. unfold removeBboxFromResults. rewrite Himg. simpl.
  rewrite !Hst, Hr. by rewrite lookup_insert_eq.
Qed.

(** The hidden list after a removal, when [k] was hidden: renumbered. *)
Lemma removeBbox_hidden_of_hidden st img k :
  currentImage st = Some img ->
  Js.includes (default [] (hiddenObjects st !! img_id img)) k = true ->
  exists hidden',
    hiddenObjects (removeBboxFromResults k st) !! img_id img = Some hidden'
    /\ renumbered k (default [] (hiddenObjects st !! img_id img)) hidden'.
Proof.
  intros Himg Hin. unfold removeBboxFromResults. rewrite Himg. simpl.
  rewrite Hin. simpl. eexists. rewrite lookup_insert_eq. split; [done|].
  apply filter_map_renumbered.
Qed.

(** The hidden list after a removal, when [k] was not hidden: the early
    [return prev] leaves every entry as it was. *)
Lemma removeBbox_hidden_of_visible st img k :
  currentImage st = Some img ->
  Js.includes (default [] (hiddenObjects st !! img_id img)) k = false ->
  hiddenObjects (removeBboxFromResults k st) = hiddenObjects st.
Proof.
  intros Himg Hin. unfold removeBboxFromResults. rewrite Himg. simpl.
  by rewrite Hin.
Qed.

(** C1, at a store of three objects with hidden list [[2]]: removing the
    visible object 0 deletes it, and the hidden list stays [[2]]; the
    entry 2 > 0 is not shifted to 1, so the list is not the renumbered
    one (the object that was hidden is now at index 1, and shown). *)
Theorem removeBbox_visible_keeps_stale_hidden :
  detectionResults (removeBboxFromResults 0 three_objects) !! "img1"
    = Some (mkResults [obj_b; obj_c] ["person"; "car"])
  /\ hiddenObjects (removeBboxFromResults 0 three_objects) !! "img1" = Some [2%Z]
  /\ ~ renumbered 0 [2%Z] [2%Z].
Proof.
  split; [|split].
  - vm_compute. reflexivity.
  - vm_compute. reflexivity.
  - intros H. specialize (H 1%Z). destruct H as [_ H].
    assert (Hin : 1%Z ∈ [2%Z]).
    { apply H. right. split; [lia|]. simpl. apply list_elem_of_here. }
    apply list_elem_of_singleton in Hin. lia.
Qed.


Lemma set_detectionResults_id st : set_detectionResults (fun prev => prev) st = st.
Proof. by destruct st. Qed.

(** C10 as stated fails: [updateBboxInResults(1, b1, null)] stores the
    box [b1 = [-0, 0, 0.5, 0.5]] for object 1 of the three-object store;
    the following [updateBboxInResults(0, b0, null)] replaces the result
    map by its JSON copy, in which the first coordinate of object 1 is
    [0] and no longer [-0]: an object other than the updated one has
    changed. *)
Lemma update_replaces_only_bbox_fails : ~ update_replaces_only_bbox_claim.
Proof.
  intros H.
  pose (b1 := [(-0)%float; 0%float; 0.5%float; 0.5%float]).
  pose (st := updateBboxInResults 1 b1 None three_objects).
  specialize (H st (mkImage "img1" "a.png" 200%float 100%float)
                (mkResults [obj_a; set_bbox b1 obj_b; obj_c] ["person"; "car"])
                0%Z [0; 0; 1; 1]%float obj_a).
  destruct H as (r' & Hr' & _ & Hrest); [vm_compute; reflexivity ..|].
  specialize (Hrest 1%Z ltac:(lia)).
  assert (Hr2 : detectionResults (updateBboxInResults 0 [0; 0; 1; 1]%float None st) !! "img1"
                = Some (mkResults [set_bbox [0; 0; 1; 1]%float obj_a;
                                   set_bbox [0; 0; 0.5; 0.5]%float obj_b; obj_c]
                                  ["person"; "car"])) by (vm_compute; reflexivity).
  change (img_id _) with "img1" in Hr'. rewrite Hr2 in Hr'.
  injection Hr' as <-.
  apply (f_equal (fun o => match o with
                           | Some ob => get_sign (Js.num_at (bbox ob) 0)
                           | None => false
                           end)) in Hrest.
  vm_compute in Hrest. discriminate.
Qed.

(** C10, amended: [updateBboxInResults(i, b, null)] on the result set
    [r] of the current image.  For an index in range the object at [i]
    gets the box [b]; the number of objects, the class list, the hidden
    lists and every other state cell are as before.  The result map is
    replaced by its JSON copy: when the copy equals the original (every
    stored number is finite and not [-0]), the mask, class and
    confidence of object [i], every other object and the result sets of
    the other images are as before.  For an index out of range the state
    is unchanged. *)
Theorem updateBbox_null_mask_frame st img r i (b : list float) :
  currentImage st = Some img ->
  detectionResults st !! img_id img = Some r ->
  let st' := updateBboxInResults i b None st in
  (forall o, Js.at_ (objects r) i = Some o ->
     exists r',
       detectionResults st' !! img_id img = Some r'
       /\ (exists o', Js.at_ (objects r') i = Some o' /\ bbox o' = b)
       /\ length (objects r') = length (objects r)
       /\ classes r' = classes r
       /\ hiddenObjects st' = hiddenObjects st
       /\ images st' = images st
       /\ currentImageIndex st' = currentImageIndex st
       /\ detectionMode st' = detectionMode st
       /\ imagePrompts st' = imagePrompts st
       /\ (json_stable (detectionResults st) ->
             Js.at_ (objects r') i = Some (mkObject (class_id o) b (mask o) (confidence o))
             /\ (forall j, j ≠ i -> Js.at_ (objects r') j = Js.at_ (objects r) j)
             /\ (forall id, id ≠ img_id img ->
                   detectionResults st' !! id = detectionResults st !! id)))
  /\ ((i < 0 \/ Z.of_nat (length (objects r)) <= i)%Z -> st' = st).
Proof.
  intros Himg Hr st'. subst st'. unfold updateBboxInResults. rewrite Himg.
  unfold set_detectionResults. cbn [detectionResults hiddenObjects images
    currentImageIndex detectionMode imagePrompts].
  rewrite clone_lookup, Hr. cbn [fmap option_fmap option_map mbind option_bind].
  change (objects (clone r)) with (clone (objects r)). rewrite at_clone.
  split.
  - intros o Ho. rewrite Ho.
    cbn [fmap option_fmap option_map detectionResults hiddenObjects images
         currentImageIndex detectionMode imagePrompts].
    pose proof (at_Some_range _ _ _ Ho) as Hrange.
    eexists. split; [by rewrite lookup_alter_eq, clone_lookup, Hr|].
    cbn [fmap option_fmap option_map objects classes set_objects].
    change (objects (clone r)) with (clone (objects r)).
    change (classes (clone r)) with (clone (classes r)).
    split; [|split; [|split; [|split; [|split; [|split; [|split; [|split]]]]]]]; try done.
    + exists (set_bbox b (clone o)). split; [|done].
      unfold Js.at_. destruct (Z.ltb_spec i 0); [lia|].
      apply list_lookup_insert_eq. rewrite clone_length. lia.
    + by rewrite length_insert, clone_length.
    + apply clone_strings.
    + intros Hst.
      assert (Hcr : clone r = r).
      { pose proof (clone_lookup (detectionResults st) (img_id img)) as Hl.
        rewrite Hst, Hr in Hl. by injection Hl. }
      assert (Hco : clone o = o).
      { pose proof (at_clone (objects r) i) as Hl.
        change (clone (objects r)) with (objects (clone r)) in Hl.
        rewrite Hcr, Ho in Hl. by injection Hl. }
      change (clone (objects r)) with (objects (clone r)). rewrite Hcr, Hco.
      split; [|split].
      * unfold Js.at_ in *. destruct (Z.ltb_spec i 0); [lia|].
        rewrite list_lookup_insert_eq by lia. done.
      * intros j Hj. unfold Js.at_. destruct (Z.ltb_spec j 0); [done|].
        apply list_lookup_insert_ne. lia.
      * intros id Hid. rewrite lookup_alter_ne by done. by rewrite Hst.
  - intros Hout. apply at_None_range in Hout. rewrite Hout.
    by destruct st.
Qed.

(** An instance of C10 on the three-object store: the box of object 1
    is replaced, objects 0 and 2 and the hidden list [[2]] stay. *)
Lemma updateBbox_null_mask_frame_witness :
  exists r',
    detectionResults (updateBboxInResults 1 [0; 0; 1; 1]%float None three_objects) !! "img1"
      = Some r'
    /\ Js.at_ (objects r') 1 = Some (mkObject 1 [0; 0; 1; 1]%float None 0.5%float)
    /\ Js.at_ (objects r') 0 = Some obj_a
    /\ Js.at_ (objects r') 2 = Some obj_c
    /\ hiddenObjects (updateBboxInResults 1 [0; 0; 1; 1]%float None three_objects)
       = {[ "img1" := [2%Z] ]}.
Proof.
  destruct (updateBbox_null_mask_frame three_objects
              (mkImage "img1" "a.png" 200%float 100%float)
              (mkResults [obj_a; obj_b; obj_c] ["person"; "car"]) 1 [0; 0; 1; 1]%float
              eq_refl eq_refl) as [Hin _].
  destruct (Hin obj_b eq_refl)
    as (r' & Hr' & _ & _ & _ & Hhid & _ & _ & _ & _ & Hst).
  destruct Hst as (Hi & Hrest & _); [vm_compute; reflexivity|].
  exists r'. split; [exact Hr'|]. split; [exact Hi|].
  split; [|split].
  - rewrite (Hrest 0%Z) by lia. reflexivity.
  - rewrite (Hrest 2%Z) by lia. reflexivity.
  - exact Hhid.
Defined.

End StoreFacts.

(** * Properties of the canvas state machine *)

Section CanvasFacts.
Import AppContext Canvas.

Implicit Types (w : World) (e : Event) (i : Z).

(** ** The hidden-selection invariant *)

Lemma hiddenSelectionEffect_app w : app (hiddenSelectionEffect w) = app w.
Proof.
  unfold hiddenSelectionEffect. destruct (selectedObjectIndex (ui w)); [|done].
  by destruct (Js.includes _ _).
Qed.

Lemma hiddenSelectionEffect_visible w : selection_visible (hiddenSelectionEffect w).
Proof.
  intros i. unfold hiddenSelectionEffect.
  destruct (selectedObjectIndex (ui w)) as [k|] eqn:Hsel.
  - destruct (Js.includes (currentHiddenObjects (app w)) k) eqn:Hin.
    + simpl. done.
    + rewrite Hsel. by intros [= ->].
  - by rewrite Hsel.
Qed.

Lemma reachable_selection_visible w : reachable w -> selection_visible w.
Proof.
  induction 1 as [|w e Hw IH].
  - intros i. simpl. done.
  - apply hiddenSelectionEffect_visible.
Qed.

Lemma includes_app_here (a : list Z) i : Js.includes (a ++ [i]) i = true.
Proof. apply includes_spec, elem_of_app. right. apply list_elem_of_here. Qed.

(** C5: in every reachable state the selected index is not hidden; and
    hiding the selected object of the current image (the visibility
    toggle on its index) leaves no selection. *)
Theorem hidden_object_never_selected w i img :
  reachable w ->
  selectedObjectIndex (ui w) = Some i ->
  currentImage (app w) = Some img ->
  Js.includes (currentHiddenObjects (app w)) i = false
  /\ Js.includes (currentHiddenObjects (app (step (EToggleVisibility i) w))) i = true
  /\ selectedObjectIndex (ui (step (EToggleVisibility i) w)) = None
  /\ (forall e, selection_visible (step e w)).
Proof.
  intros Hw Hsel Himg.
  pose proof (reachable_selection_visible w Hw i Hsel) as Hvis.
  assert (Hhid : currentHiddenObjects (toggleObjectVisibility i (app w))
                 = currentHiddenObjects (app w) ++ [i]).
  { unfold currentHiddenObjects in *. unfold toggleObjectVisibility.
    rewrite Himg in *. destruct (app w) as [ims idx dm ip dr ho]. simpl in *.
    unfold currentImage in *. simpl in *. rewrite Himg.
    rewrite lookup_insert_eq. simpl. by rewrite Hvis. }
  split; [done|]. split; [|split].
  - unfold step. rewrite hiddenSelectionEffect_app. simpl.
    rewrite Hhid. apply includes_app_here.
  - unfold step, hiddenSelectionEffect. simpl. rewrite Hsel, Hhid.
    by rewrite includes_app_here.
  - intros e. apply hiddenSelectionEffect_visible.
Qed.

(** ** Concrete sessions *)

Lemma run_reachable es w : reachable w -> reachable (run es w).
Proof.
  revert w. induction es as [|e es IH]; intros w Hw; [done|].
  simpl. apply IH. by constructor.
Qed.

Lemma text_session_reachable : reachable text_session.
Proof. apply run_reachable. constructor. Qed.

Lemma results_session_reachable : reachable results_session.
Proof. apply run_reachable. constructor. Qed.

Lemma prompt_session_reachable : reachable prompt_session.
Proof. apply run_reachable. constructor. Qed.

(** An instance of C5: in the session with results, object 0 is selected
    and then hidden from the results panel. *)
Lemma hidden_object_never_selected_witness :
  let w := run [EKeyEscape; ESetEditMode SELECT; EBoxSelect 0] results_session in
  Js.includes (currentHiddenObjects (app w)) 0 = false
  /\ Js.includes (currentHiddenObjects (app (step (EToggleVisibility 0) w))) 0 = true
  /\ selectedObjectIndex (ui (step (EToggleVisibility 0) w)) = None
  /\ (forall e, selection_visible (step e w)).
Proof.
  apply (hidden_object_never_selected
           (run [EKeyEscape; ESetEditMode SELECT; EBoxSelect 0] results_session) 0
           (mkImage "img1" "a.png" 200 100)).
  - apply run_reachable, results_session_reachable.
  - vm_compute; reflexivity.
  - vm_compute; reflexivity.
Defined.



(** ** Finishing a draw gesture *)

Lemma handleMouseUp_finishing w cb imgW imgH :
  finishing_draw w cb imgW imgH ->
  handleMouseUp w =
    mkWorld (committed cb imgW imgH (app w))
            (set_gesture false (startPoint (ui w)) None (ui w)).
Proof.
  intros (Hd & Hb & Hi & Hm). unfold handleMouseUp, committed, above_threshold.
  rewrite Hd, Hb, Hi, Hm.
  rewrite andb_false_r. done.
Qed.

(** [addBboxToResults] on an image with a result set: the new object
    is pushed onto the JSON copy of the objects. *)
Lemma addBbox_existing_clone st img r (b : list float) c m :
  currentImage st = Some img ->
  detectionResults st !! img_id img = Some r ->
  detectionResults (addBboxToResults b c m st)
    = <[img_id img := mkResults (clone (objects r) ++ [mkObject c b m 1%float]) (classes r)]>
        (clone (detectionResults st)).
Proof.
  intros Himg Hr. unfold addBboxToResults. rewrite Himg. simpl.
  rewrite clone_lookup, Hr. simpl. unfold set_objects. simpl.
  by rewrite clone_strings.
Qed.

Lemma addBbox_existing st img r (b : list float) c m :
  json_stable (detectionResults st) ->
  currentImage st = Some img ->
  detectionResults st !! img_id img = Some r ->
  detectionResults (addBboxToResults b c m st)
    = <[img_id img := mkResults (objects r ++ [mkObject c b m 1%float]) (classes r)]>
        (detectionResults st).
Proof.
  intros Hst Himg Hr. unfold addBboxToResults. rewrite Himg. simpl.
  rewrite !Hst. by rewrite Hr.
Qed.

Lemma addBbox_absent st img (b : list float) c m :
  currentImage st = Some img ->
  detectionResults st !! img_id img = None ->
  addBboxToResults b c m st = st.
Proof.
  intros Himg Hr. unfold addBboxToResults. rewrite Himg.
  unfold set_detectionResults. rewrite clone_lookup, Hr. by destruct st.
Qed.







(** ** Creation of the store *)

(** The text-prompt session has no result set for its image, and none
    after the box is finished. *)
Lemma first_box_creates_store_fails : ~ first_box_creates_store_claim.
Proof.
  intros H.
  destruct (H text_session (mkBox 50 25 100 50) 200%float 100%float
              (mkImage "img1" "a.png" 200 100)) as (r & o & Hr & _).
  - repeat split; vm_compute; reflexivity.
  - vm_compute; reflexivity.
  - vm_compute; reflexivity.
  - vm_compute; reflexivity.
  - vm_compute in Hr. discriminate Hr.
Qed.

(** C9, amended: the result set of an image is created when detection
    results arrive for it: [addDetectionResult] stores their JSON copy,
    with as many objects and the same classes, and equal to them when
    the copy changes nothing (their numbers are finite and not [-0]).
    Finishing an above-threshold box, outside the image-prompt mode, on
    an image that has a result set leaves a result set with one object
    more, the last one being the drawn box (class 0, no mask,
    confidence 1); when the JSON copy changes nothing in the stored
    results, the objects before it are the ones the image had.  On an
    image without a result set the box creates none, in any mode. *)
Theorem store_created_by_detection_only w cb imgW imgH img :
  finishing_draw w cb imgW imgH ->
  above_threshold cb = true ->
  currentImage (app w) = Some img ->
  (forall id r st,
     exists r', detectionResults (addDetectionResult id r st) !! id = Some r'
       /\ length (objects r') = length (objects r)
       /\ classes r' = classes r
       /\ (json_stable r -> r' = r))
  /\ (forall r, detectionResults (app w) !! img_id img = Some r ->
       detectionMode (app w) ≠ IMAGE_PROMPT ->
       exists r', detectionResults (app (handleMouseUp w)) !! img_id img = Some r'
         /\ last (objects r') = Some (mkObject 0 (normalizeBox cb imgW imgH) None 1%float)
         /\ length (objects r') = S (length (objects r))
         /\ classes r' = classes r
         /\ (json_stable (detectionResults (app w)) ->
               r' = mkResults
                      (objects r ++ [mkObject 0 (normalizeBox cb imgW imgH) None 1%float])
                      (classes r)))
  /\ (detectionResults (app w) !! img_id img = None ->
       detectionResults (app (handleMouseUp w)) = detectionResults (app w)).
Proof.
  intros Hf Hth Himg. rewrite (handleMouseUp_finishing _ _ _ _ Hf).
  unfold committed. rewrite Hth. simpl.
  split; [|split].
  - intros id r st. exists (clone r). split; [|split; [|split]].
    + unfold addDetectionResult. simpl. apply lookup_insert_eq.
    + apply clone_length.
    + apply clone_strings.
    + done.
  - intros r Hr Hm. rewrite (currentResults_Some _ _ _ Himg Hr).
    exists (mkResults (clone (objects r)
                       ++ [mkObject 0 (normalizeBox cb imgW imgH) None 1%float])
                      (classes r)).
    split; [|split; [|split; [|split]]].
    + destruct (detectionMode (app w)); [|done|];
        by rewrite (addBbox_existing_clone _ _ _ _ _ _ Himg Hr), lookup_insert_eq.
    + simpl. apply last_snoc.
    + simpl. rewrite length_app, clone_length. simpl. lia.
    + done.
    + intros Hst. f_equal. f_equal.
      pose proof (clone_lookup (detectionResults (app w)) (img_id img)) as Hl.
      rewrite Hst, Hr in Hl. injection Hl as Hl.
      by apply (f_equal objects) in Hl.
  - intros Hr. unfold currentResults. rewrite Himg, Hr.
    by destruct (detectionMode (app w)).
Qed.

(** An instance of C9 in the session with results: the drawn box is
    appended to the one detected object. *)
Lemma store_created_by_detection_only_witness :
  detectionResults (app (handleMouseUp results_session)) !! "img1"
    = Some (mkResults
              [obj_a; mkObject 0 (normalizeBox (mkBox 50 25 100 50) 200 100) None 1%float]
              ["person"]).
Proof.
  destruct (store_created_by_detection_only results_session (mkBox 50 25 100 50)
              200%float 100%float (mkImage "img1" "a.png" 200 100))
    as (_ & Hadd & _).
  - repeat split; vm_compute; reflexivity.
  - vm_compute; reflexivity.
  - vm_compute; reflexivity.
  - destruct (Hadd (mkResults [obj_a] ["person"])) as (r' & Hr' & _ & _ & _ & Heq).
    + vm_compute; reflexivity.
    + vm_compute; discriminate.
    + change (img_id _) with "img1" in Hr'. rewrite Hr'. f_equal.
      apply Heq. vm_compute; reflexivity.
Defined.

(** ** Switching the mode during a draw gesture *)

(** In the image-prompt session: switch to Select, back to Draw, pointer
    up; the half-drawn box is in the prompt list. *)
Lemma mode_switch_discards_fails : ~ mode_switch_discards_claim.
Proof.
  intros H.
  specialize (H prompt_session SELECT [ESetEditMode DRAW; EMouseUp]
                prompt_session_reachable).
  assert (Hne : bboxes (imagePrompts (app (run [ESetEditMode SELECT; ESetEditMode DRAW; EMouseUp]
                                            prompt_session)))
                ≠ bboxes (imagePrompts (app prompt_session))).
  { vm_compute. discriminate. }
  apply Hne. rewrite H; [done| | |done|].
  - vm_compute; reflexivity.
  - vm_compute; reflexivity.
  - repeat constructor.
Qed.

Lemma step_app e w : app (step e w) = app (handle e w).
Proof. unfold step. apply hiddenSelectionEffect_app. Qed.

Lemma hiddenSelectionEffect_gesture w :
  let w' := hiddenSelectionEffect w in
  drawing (ui w') = drawing (ui w) /\ currentBox (ui w') = currentBox (ui w)
  /\ startPoint (ui w') = startPoint (ui w) /\ editMode (ui w') = editMode (ui w).
Proof.
  unfold hiddenSelectionEffect. destruct (selectedObjectIndex (ui w)); [|done].
  by destruct (Js.includes _ _).
Qed.

(** One gated event outside Draw mode: the stored data and the gesture
    cells are untouched, and the mode stays outside Draw. *)
Lemma gated_step e w :
  gated e -> editMode (ui w) ≠ DRAW ->
  app (step e w) = app w
  /\ drawing (ui (step e w)) = drawing (ui w)
  /\ currentBox (ui (step e w)) = currentBox (ui w)
  /\ startPoint (ui (step e w)) = startPoint (ui w)
  /\ editMode (ui (step e w)) ≠ DRAW.
Proof.
  intros He Hm. rewrite step_app. unfold step.
  destruct (hiddenSelectionEffect_gesture (handle e w)) as (-> & -> & -> & ->).
  destruct He as [p mv| |m Hne]; simpl.
  - unfold handleMouseMove.
    destruct (isDragging (ui w) && bool_decide (editMode (ui w) = PAN)); [done|].
    rewrite (bool_decide_eq_false_2 _ Hm), andb_false_r. done.
  - unfold handleMouseUp.
    destruct (isDragging (ui w) && bool_decide (editMode (ui w) = PAN)); [done|].
    destruct (drawing (ui w)) eqn:Hd, (currentBox (ui w)) eqn:Hb,
      (image (ui w)) as [[? ?]|] eqn:Hi, (editMode (ui w)) eqn:He;
      rewrite ?Hd, ?Hb, ?Hi, ?He; done.
  - done.
Qed.

Lemma hiddenSelectionEffect_image w :
  image (ui (hiddenSelectionEffect w)) = image (ui w).
Proof.
  unfold hiddenSelectionEffect. destruct (selectedObjectIndex (ui w)); [|done].
  by destruct (Js.includes _ _).
Qed.

Lemma gated_step_image e w :
  gated e -> editMode (ui w) ≠ DRAW -> image (ui (step e w)) = image (ui w).
Proof.
  intros He Hm. unfold step. rewrite hiddenSelectionEffect_image.
  destruct He as [p mv| |m Hne]; simpl.
  - unfold handleMouseMove.
    destruct (isDragging (ui w) && bool_decide (editMode (ui w) = PAN)); [done|].
    rewrite (bool_decide_eq_false_2 _ Hm), andb_false_r. done.
  - unfold handleMouseUp.
    destruct (isDragging (ui w) && bool_decide (editMode (ui w) = PAN)); [done|].
    destruct (drawing (ui w)) eqn:Hd, (currentBox (ui w)) eqn:Hb,
      (image (ui w)) as [[? ?]|] eqn:Hi, (editMode (ui w)) eqn:He;
      rewrite ?Hd, ?Hb, ?Hi, ?He; done.
  - done.
Qed.

(** What finishing the box [cb] on an image of [imgW] by [imgH] pixels
    stores, by the branches of [handleMouseUp]. *)
Lemma finish_after_switch w cb imgW imgH :
  drawing (ui w) = true -> currentBox (ui w) = Some cb ->
  image (ui w) = Some (imgW, imgH) ->
  let w' := run [ESetEditMode DRAW; EMouseUp] w in
  app w' = committed cb imgW imgH (app w)
  /\ drawing (ui w') = false /\ currentBox (ui w') = None.
Proof.
  intros Hd Hb Hi. simpl.
  set (v := step (ESetEditMode DRAW) w).
  assert (Hv : finishing_draw v cb imgW imgH /\ app v = app w).
  { subst v. unfold finishing_draw, step.
    rewrite hiddenSelectionEffect_image, hiddenSelectionEffect_app.
    destruct (hiddenSelectionEffect_gesture (handle (ESetEditMode DRAW) w))
      as (-> & -> & _ & ->).
    done. }
  destruct Hv as [Hf Ha]. unfold step.
  destruct (hiddenSelectionEffect_gesture (handle EMouseUp v)) as (-> & -> & _ & _).
  rewrite hiddenSelectionEffect_app. simpl.
  rewrite (handleMouseUp_finishing _ _ _ _ Hf). simpl. rewrite Ha.
  done.
Qed.

(** C6, amended: switching away from Draw gates the gesture and does not
    discard it.  After the switch, as long as the mode buttons only
    select modes other than Draw, pointer moves and pointer up commit
    nothing, and the half-drawn box is still held.  After a switch back
    to Draw, a pointer up finishes the held box as it finishes any draw
    gesture: a box above the threshold is added to the prompt list in
    image-prompt mode and to the object set when the image has a result
    set, in every other case nothing is committed; and the gesture is
    over. *)
Theorem mode_switch_gates_gesture w m es :
  m ≠ DRAW ->
  Forall gated es ->
  let w' := run (ESetEditMode m :: es) w in
  app w' = app w
  /\ drawing (ui w') = drawing (ui w)
  /\ currentBox (ui w') = currentBox (ui w)
  /\ startPoint (ui w') = startPoint (ui w)
  /\ editMode (ui w') ≠ DRAW
  /\ (forall cb imgW imgH,
        drawing (ui w) = true -> currentBox (ui w) = Some cb ->
        image (ui w) = Some (imgW, imgH) ->
        let w'' := run [ESetEditMode DRAW; EMouseUp] w' in
        app w'' = committed cb imgW imgH (app w)
        /\ drawing (ui w'') = false /\ currentBox (ui w'') = None).
Proof.
  intros Hm Hes. cbv zeta.
  assert (Hinv : let w' := run (ESetEditMode m :: es) w in
                 (app w' = app w
                  /\ drawing (ui w') = drawing (ui w)
                  /\ currentBox (ui w') = currentBox (ui w)
                  /\ startPoint (ui w') = startPoint (ui w)
                  /\ editMode (ui w') ≠ DRAW)
                 /\ image (ui w') = image (ui w)).
  { simpl.
    assert (Hstart : (app (step (ESetEditMode m) w) = app w
                      /\ drawing (ui (step (ESetEditMode m) w)) = drawing (ui w)
                      /\ currentBox (ui (step (ESetEditMode m) w)) = currentBox (ui w)
                      /\ startPoint (ui (step (ESetEditMode m) w)) = startPoint (ui w)
                      /\ editMode (ui (step (ESetEditMode m) w)) ≠ DRAW)
                     /\ image (ui (step (ESetEditMode m) w)) = image (ui w)).
    { split.
      - rewrite step_app. unfold step.
        destruct (hiddenSelectionEffect_gesture (handle (ESetEditMode m) w))
          as (-> & -> & -> & ->). done.
      - unfold step. by rewrite hiddenSelectionEffect_image. }
    revert Hstart. generalize (step (ESetEditMode m) w) as v.
    induction Hes as [|e es He Hes IH]; intros v Hv; [done|].
    simpl. apply IH.
    destruct Hv as ((Ha & Hd & Hb & Hs & Hmode) & Hi).
    rewrite (gated_step_image e v He Hmode).
    destruct (gated_step e v He Hmode) as (-> & -> & -> & -> & ?). done. }
  cbv zeta in Hinv. destruct Hinv as ((Ha & Hd & Hb & Hs & Hmode) & Hi).
  repeat (split; [assumption|]).
  intros cb imgW imgH Hd0 Hb0 Hi0.
  rewrite <- Ha. apply finish_after_switch; congruence.
Qed.

(** An instance of C6 in the image-prompt session: the mode goes to
    Select and to Pan while the pointer moves and goes up, nothing is
    committed; back in Draw the pointer up puts the held box of 100 by
    50 pixels into the prompt list. *)
Lemma mode_switch_gates_gesture_witness :
  app (run [ESetEditMode SELECT; EMouseMove (Some (160, 80)%float) (10, 5)%float;
            EMouseUp; ESetEditMode PAN; EMouseUp] prompt_session)
    = app prompt_session
  /\ bboxes (imagePrompts (app (run [ESetEditMode DRAW; EMouseUp]
        (run [ESetEditMode SELECT; EMouseMove (Some (160, 80)%float) (10, 5)%float;
              EMouseUp; ESetEditMode PAN; EMouseUp] prompt_session))))
     = [normalizeBox (mkBox 50 25 100 50) 200 100].
Proof.
  destruct (mode_switch_gates_gesture prompt_session SELECT
              [EMouseMove (Some (160, 80)%float) (10, 5)%float;
               EMouseUp; ESetEditMode PAN; EMouseUp])
    as (Ha & _ & _ & _ & _ & Hfin).
  - discriminate.
  - repeat constructor. discriminate.
  - split; [exact Ha|].
    destruct (Hfin (mkBox 50 25 100 50) 200%float 100%float) as (-> & _);
      vm_compute; reflexivity.
Defined.

End CanvasFacts.

(** * Properties of the YOLO export *)

Section ExportFacts.
Import Conversion.

Variable float_of_str : string -> option float.

Implicit Types (ann : annotation) (m : gmap string Z) (W H : Z).

(** ** Float comparisons *)


Lemma SFcompare_swap (a b : spec_float) :
  SFcompare b a = option_map CompOpp (SFcompare a b).
Proof.
  destruct a as [sa|sa| |sa ma ea], b as [sb|sb| |sb mb eb]; simpl;
    try done; try (by destruct sa); try (by destruct sb); try (by destruct sa, sb).
  rewrite !Pos.compare_cont_spec, (Z.compare_antisym ea eb), (Pos.compare_antisym ma mb).
  simpl. destruct sa, sb; simpl; try done;
    destruct (ea ?= eb)%Z; simpl; try done; by destruct (ma ?= mb)%positive.
Qed.

Lemma SFcompare_refl (a : spec_float) :
  a ≠ S754_nan -> SFcompare a a = Some Eq.
Proof.
  destruct a as [s|s| |s m e]; simpl; intros H; try done; try (by destruct s).
  rewrite Z.compare_refl, Pos.compare_cont_spec, Pos.compare_refl. by destruct s.
Qed.

Lemma SFcompare_None (a b : spec_float) :
  SFcompare a b = None <-> a = S754_nan \/ b = S754_nan.
Proof.
  destruct a as [sa|sa| |sa ma ea], b as [sb|sb| |sb mb eb]; simpl;
    split; try done; try tauto; intros [H|H]; discriminate H.
Qed.

Lemma SFcompare_Eq_finite (a : spec_float) (s : bool) (m : positive) (e : Z) :
  SFcompare a (S754_finite s m e) = Some Eq -> a = S754_finite s m e.
Proof.
  destruct a as [sa|sa| |sa ma ea]; simpl; try done; try (by destruct sa);
    try (by destruct s).
  rewrite Pos.compare_cont_spec.
  destruct sa, s; try done; destruct (Z.compare_spec ea e); try done;
    destruct (Pos.compare_spec ma m); simpl; try done; intros _; congruence.
Qed.

Lemma is_nan_spec (x : float) :
  is_nan x = match Prim2SF x with S754_nan => true | _ => false end.
Proof.
  unfold is_nan. rewrite FloatAxioms.eqb_spec. unfold SFeqb.
  destruct (Prim2SF x) as [s|s| |s m e] eqn:Hx; try done.
  - by destruct s.
  - by rewrite SFcompare_refl.
Qed.

(** The clamp of the code is the truncation into [[0, 1]]. *)
Lemma clamp01_truncate (v : float) : clamp01 v = truncate01 v.
Proof.
  unfold clamp01, truncate01. rewrite is_nan_spec, !leb_spec, !ltb_spec.
  change (Prim2SF 0) with (S754_zero false).
  change (Prim2SF 1) with (S754_finite false 4503599627370496 (-52)).
  unfold SFleb, SFltb.
  rewrite (SFcompare_swap (Prim2SF v) (S754_finite false 4503599627370496 (-52))).
  destruct (Prim2SF v) as [[]|[]| |[] m e] eqn:Hv; cbn [SFcompare option_map CompOpp];
    rewrite ?Hv; cbn [SFcompare option_map CompOpp]; try reflexivity.
  destruct (e ?= -52)%Z; cbn [option_map CompOpp]; rewrite ?Hv; try reflexivity;
    destruct (Pos.compare_cont Eq m 4503599627370496);
    cbn [option_map CompOpp]; rewrite ?Hv; reflexivity.
Qed.


(** ** The loop *)

Lemma loop_app (a1 a2 : list annotation) W H m lines log :
  loop float_of_str (a1 ++ a2) W H m lines log =
    match loop float_of_str a1 W H m lines log with
    | (Ok lines', log') => loop float_of_str a2 W H m lines' log'
    | (Raise e, log') => (Raise e, log')
    end.
Proof.
  revert lines log. induction a1 as [|ann a1 IH]; intros lines log; [done|].
  simpl. destruct (try_body float_of_str ann W H m) as [[line|w]|e]; try apply IH.
  destruct (caught e); [apply IH|done].
Qed.


Lemma loop_continue ann rest W H m lines log w :
  try_body float_of_str ann W H m = Ok (inr w) ->
  loop float_of_str (ann :: rest) W H m lines log
    = loop float_of_str rest W H m lines (log ++ [w]).
Proof. intros Hb. simpl. by rewrite Hb. Qed.

Lemma loop_caught ann rest W H m lines log e :
  try_body float_of_str ann W H m = Raise e -> caught e = true ->
  loop float_of_str (ann :: rest) W H m lines log
    = loop float_of_str rest W H m lines (log ++ [WError e ann]).
Proof. intros Hb He. simpl. by rewrite Hb, He. Qed.

Lemma loop_escapes ann rest W H m lines log e :
  try_body float_of_str ann W H m = Raise e -> caught e = false ->
  loop float_of_str (ann :: rest) W H m lines log = (Raise e, log).
Proof. intros Hb He. simpl. by rewrite Hb, He. Qed.

(** ** Empty and invalid input *)

Lemma export_empty W H m :
  convert_to_yolo_format float_of_str [] W H m = (Ok EmptyString, []).
Proof. done. Qed.

Lemma export_invalid_dimensions (anns : list annotation) W H m :
  (W <= 0 \/ H <= 0)%Z ->
  convert_to_yolo_format float_of_str anns W H m = (Ok EmptyString, []).
Proof.
  intros HWH. unfold convert_to_yolo_format. destruct anns; [done|].
  destruct (Z.leb_spec W 0); [done|]. destruct (Z.leb_spec H 0); [done|]. lia.
Qed.

(** ** Skipped records *)

(** A record with a missing or unresolvable class name takes the
    [continue] branch or raises [TypeError] (an unhashable name). *)
Lemma try_body_unresolvable ann W H m :
  match ann !! "category_name" with
  | Some (PyStr name) => m !! name = None
  | _ => True
  end ->
  (exists w, try_body float_of_str ann W H m = Ok (inr w))
  \/ try_body float_of_str ann W H m = Raise TypeError.
Proof.
  unfold try_body. destruct (ann !! "category_name") as [[| | |name| |]|]; simpl; eauto.
  intros ->. eauto.
Qed.

(** X21. A record that is skipped (for its class, or by a caught exception)
    changes nothing in the returned value: the export of the list with the
    record equals the export of the list without it. *)
Lemma export_skips_record (a1 a2 : list annotation) ann W H m :
  (0 < W)%Z -> (0 < H)%Z ->
  ((exists w, try_body float_of_str ann W H m = Ok (inr w))
   \/ exists e, try_body float_of_str ann W H m = Raise e /\ caught e = true) ->
  (forall a, a ∈ a1 -> forall e, try_body float_of_str a W H m = Raise e -> caught e = true) ->
  (convert_to_yolo_format float_of_str (a1 ++ ann :: a2) W H m).1
    = (convert_to_yolo_format float_of_str (a1 ++ a2) W H m).1
  /\ exists w, w ∈ (convert_to_yolo_format float_of_str (a1 ++ ann :: a2) W H m).2.
Proof.
  intros HW HH Hbad Ha1.
  assert (Hprefix : forall lines log, exists lines' log',
             loop float_of_str a1 W H m lines log = (Ok lines', log')).
  { clear Hbad. induction a1 as [|a a1 IH]; intros lines log; [by eexists _, _|].
    simpl. destruct (try_body float_of_str a W H m) as [[line|w]|e] eqn:Hb.
    - apply IH. intros a' Ha'. apply Ha1. by right.
    - apply IH. intros a' Ha'. apply Ha1. by right.
    - rewrite (Ha1 a (list_elem_of_here _ _) e Hb).
      apply IH. intros a' Ha'. apply Ha1. by right. }
  assert (Hlog : forall (a : list annotation) lines log,
             exists log', (loop float_of_str a W H m lines log).2 = log ++ log').
  { clear. induction a as [|x a IH]; intros lines log; simpl.
    - exists []. by rewrite app_nil_r.
    - destruct (try_body float_of_str x W H m) as [[line|w]|e].
      + apply IH.
      + destruct (IH lines (log ++ [w])) as [l' ->]. exists (w :: l').
        by rewrite <- app_assoc.
      + destruct (caught e); [|exists []; by rewrite app_nil_r].
        destruct (IH lines (log ++ [WError e x])) as [l' ->].
        exists (WError e x :: l'). by rewrite <- app_assoc. }
  assert (Hloop : exists w, forall lines log,
             loop float_of_str (ann :: a2) W H m lines log
             = loop float_of_str a2 W H m lines (log ++ [w])).
  { destruct Hbad as [[w Hw]|(e & He & Hc)].
    - exists w. intros. by apply loop_continue.
    - exists (WError e ann). intros. by apply loop_caught. }
  destruct Hloop as [w Hloop].
  assert (Hdims : ((W <=? 0)%Z || (H <=? 0)%Z)%bool = false).
  { destruct (Z.leb_spec W 0); [lia|]. destruct (Z.leb_spec H 0); [lia|]. done. }
  destruct (Hprefix [] []) as (l1 & g1 & H1).
  assert (Hwith : convert_to_yolo_format float_of_str (a1 ++ ann :: a2) W H m
                  = let '(r, log) := loop float_of_str a2 W H m l1 (g1 ++ [w]) in
                    (match r with Ok ls => Ok (join_lines ls) | Raise e => Raise e end, log)).
  { unfold convert_to_yolo_format. destruct (a1 ++ ann :: a2) eqn:Hl.
    - by destruct a1.
    - rewrite <- Hl, Hdims, loop_app, H1, Hloop. done. }
  assert (Hwithout : (convert_to_yolo_format float_of_str (a1 ++ a2) W H m).1
                  = (let '(r, log) := loop float_of_str a2 W H m l1 g1 in
                    (match r with Ok ls => Ok (join_lines ls) | Raise e => Raise e end, log)).1).
  { unfold convert_to_yolo_format. destruct (a1 ++ a2) eqn:Hl.
    - apply app_eq_nil in Hl as [-> ->]. simpl in H1. by injection H1 as <- <-.
    - rewrite <- Hl, Hdims, loop_app, H1. done. }
  rewrite Hwith, Hwithout. split.
  - assert (Hind : forall (a : list annotation) lines g g',
               (loop float_of_str a W H m lines g).1 = (loop float_of_str a W H m lines g').1).
    { clear. induction a as [|x a IH]; intros lines g g'; [done|]. simpl.
      destruct (try_body float_of_str x W H m) as [[line|w]|e]; [apply IH|apply IH|].
      destruct (caught e); [apply IH|done]. }
    specialize (Hind a2 l1 (g1 ++ [w]) g1).
    destruct (loop float_of_str a2 W H m l1 (g1 ++ [w])) as [r g].
    destruct (loop float_of_str a2 W H m l1 g1) as [r' g'].
    simpl in *. by subst.
  - exists w. destruct (Hlog a2 l1 (g1 ++ [w])) as [l' Hl'].
    destruct (loop float_of_str a2 W H m l1 (g1 ++ [w])) as [r g]. simpl in *. subst g.
    apply elem_of_app. left. apply elem_of_app. right. apply list_elem_of_here.
Qed.

(** ** The emitted line *)






End ExportFacts.


(** C3, at a list of three records whose second has a box with an integer
    beyond the binary64 range and a [None]: the conversion of the integer
    raises [OverflowError], which the [except] clause does not list, so
    the export raises instead of skipping the record and returning the
    two lines of the others. *)
Theorem export_aborts_on_overflowing_record :
  Conversion.convert_to_yolo_format no_parse
    [good_annotation; overflowing_annotation; good_annotation] 200 100 class_map
    = (Conversion.Raise Conversion.OverflowError, [])
  /\ Conversion.caught Conversion.OverflowError = false
  /\ Conversion.convert_to_yolo_format no_parse
       [good_annotation; good_annotation] 200 100 class_map
     = (Conversion.Ok (Conversion.join_lines
                         ["0 0.250000 0.250000 0.500000 0.500000"%string;
                          "0 0.250000 0.250000 0.500000 0.500000"%string]), []).
Proof.
  split; [|split].
  - vm_compute. reflexivity.
  - reflexivity.
  - vm_compute. reflexivity.
Qed.

(** * Rounding of the binary64 operations

    The error of one multiplication, division, addition or subtraction,
    from the specification of the operations on [spec_float]. *)


Section Pow2.
Local Open Scope R_scope.

Lemma pow2_pos e : 0 < pow2 e.
Proof. apply powerRZ_lt. lra. Qed.

Lemma pow2_add a b : pow2 (a + b) = pow2 a * pow2 b.
Proof. apply powerRZ_add. lra. Qed.

Lemma pow2_0 : pow2 0 = 1.
Proof. reflexivity. Qed.

Lemma pow2_1 : pow2 1 = 2.
Proof. unfold pow2. simpl. lra. Qed.

Lemma pow2_succ e : pow2 (e + 1) = 2 * pow2 e.
Proof. rewrite pow2_add, pow2_1. lra. Qed.

Lemma pow2_pred e : pow2 (e - 1) = pow2 e / 2.
Proof.
  replace e with ((e - 1) + 1)%Z at 2 by lia. rewrite pow2_succ. lra.
Qed.

Lemma pow2_opp e : pow2 (- e) = / pow2 e.
Proof.
  apply (Rmult_eq_reg_l (pow2 e)); [|pose proof (pow2_pos e); lra].
  rewrite <- pow2_add, Z.add_opp_diag_r, pow2_0.
  rewrite Rinv_r; [done|]. pose proof (pow2_pos e). lra.
Qed.

Lemma pow2_le a b : (a <= b)%Z -> pow2 a <= pow2 b.
Proof.
  intros Hab. replace b with (a + (b - a))%Z by lia. rewrite pow2_add.
  assert (1 <= pow2 (b - a)).
  { unfold pow2. destruct (b - a)%Z as [|p|p] eqn:Hp; [simpl; lra| |lia].
    simpl. apply pow_R1_Rle. lra. }
  pose proof (pow2_pos a). nra.
Qed.

Lemma pow2_lt a b : (a < b)%Z -> pow2 a < pow2 b.
Proof.
  intros Hab. apply Rlt_le_trans with (pow2 (a + 1)).
  - rewrite pow2_succ. pose proof (pow2_pos a). lra.
  - apply pow2_le. lia.
Qed.

Lemma pow2_IZR n : (0 <= n)%Z -> pow2 n = IZR (2 ^ n).
Proof.
  intros Hn. unfold pow2. destruct n as [|p|p]; [done| |lia].
  simpl. rewrite <- Z2Nat.inj_pos. rewrite pow_IZR. f_equal.
  rewrite Z2Nat.id by lia. done.
Qed.

Lemma pow2_lt_inv a b : pow2 a < pow2 b -> (a < b)%Z.
Proof.
  intros H. destruct (Z.lt_ge_cases a b) as [|Hge]; [done|].
  apply pow2_le in Hge. lra.
Qed.

End Pow2.

Section Digits.
Local Open Scope Z_scope.

Lemma digits2_pos_bounds (m : positive) :
  (2 ^ (Zpos (digits2_pos m) - 1) <= Zpos m < 2 ^ Zpos (digits2_pos m))%Z.
Proof.
  induction m as [m IH|m IH|]; simpl digits2_pos; [| |simpl; lia].
  all: rewrite Pos2Z.inj_succ.
  all: set (d := Z.pos (digits2_pos m)) in *.
  all: assert (Hd : (0 < d)%Z) by (subst d; lia); clearbody d.
  all: replace (Z.succ d - 1)%Z with d by lia.
  all: assert (H2 : (2 ^ d = 2 * 2 ^ (d - 1))%Z)
         by (rewrite <- Z.pow_succ_r by lia; f_equal; lia).
  all: rewrite Z.pow_succ_r by lia.
  - rewrite (Pos2Z.inj_xI m). lia.
  - rewrite (Pos2Z.inj_xO m). lia.
Qed.

Lemma Zdigits2_nonneg (m : Z) : (0 <= Zdigits2 m)%Z.
Proof. destruct m; simpl; lia. Qed.

Lemma Zdigits2_bounds (m : Z) :
  (0 < m)%Z -> (2 ^ (Zdigits2 m - 1) <= m < 2 ^ Zdigits2 m)%Z.
Proof. destruct m as [|p|p]; [lia| |lia]. intros _. apply digits2_pos_bounds. Qed.

(** The number of digits is determined by the enclosing powers of two. *)
Lemma Zdigits2_unique (m d : Z) :
  (2 ^ (d - 1) <= m < 2 ^ d)%Z -> (0 < m)%Z -> Zdigits2 m = d.
Proof.
  intros [Hlo Hhi] Hm. pose proof (Zdigits2_bounds m Hm) as [Hlo' Hhi'].
  pose proof (Zdigits2_nonneg m).
  assert (0 < d)%Z.
  { destruct (Z.lt_ge_cases 0 d); [done|]. 
    assert (2 ^ d <= 1)%Z; [|lia].
    destruct (Z.eq_dec d 0) as [->|]; [done|]. rewrite Z.pow_neg_r by lia. lia. }
  destruct (Z.lt_trichotomy (Zdigits2 m) d) as [Hlt|[Heq|Hgt]]; [|done|].
  - assert (2 ^ Zdigits2 m <= 2 ^ (d - 1))%Z by (apply Z.pow_le_mono_r; lia). lia.
  - assert (2 ^ d <= 2 ^ (Zdigits2 m - 1))%Z by (apply Z.pow_le_mono_r; lia). lia.
Qed.

Lemma Zdigits2_le (m d : Z) : (0 <= m < 2 ^ d)%Z -> (0 <= d)%Z -> (Zdigits2 m <= d)%Z.
Proof.
  intros [Hm Hhi] Hd. destruct (Z.eq_dec m 0) as [->|]; [simpl; lia|].
  pose proof (Zdigits2_bounds m ltac:(lia)) as [Hlo _].
  destruct (Z.le_gt_cases (Zdigits2 m) d); [done|].
  assert (2 ^ d <= 2 ^ (Zdigits2 m - 1))%Z by (apply Z.pow_le_mono_r; lia). lia.
Qed.

Lemma Zdigits2_ge (m d : Z) : (2 ^ (d - 1) <= m)%Z -> (0 < m)%Z -> (d <= Zdigits2 m)%Z.
Proof.
  intros Hlo Hm. pose proof (Zdigits2_bounds m Hm) as [_ Hhi].
  destruct (Z.le_gt_cases d (Zdigits2 m)); [done|].
  assert (2 ^ Zdigits2 m <= 2 ^ (d - 1))%Z by (apply Z.pow_le_mono_r; pose proof (Zdigits2_nonneg m); lia). lia.
Qed.

End Digits.

Section Shift.
Local Open Scope R_scope.

Lemma IZR_xO p : IZR (Zpos p~0) = 2 * IZR (Zpos p).
Proof. rewrite Pos2Z.inj_xO, mult_IZR. done. Qed.

Lemma IZR_xI p : IZR (Zpos p~1) = 2 * IZR (Zpos p) + 1.
Proof. rewrite Pos2Z.inj_xI, plus_IZR, mult_IZR. done. Qed.

Lemma shr_record_of_loc_m m l : shr_m (shr_record_of_loc m l) = m.
Proof. by destruct l as [|[]]. Qed.

Lemma loc_of_shr_record_of_loc m l : loc_of_shr_record (shr_record_of_loc m l) = l.
Proof. by destruct l as [|[]]. Qed.

(** One shift keeps the location of the real and halves the mantissa. *)
Lemma shr_1_located (mrs : shr_record) e x :
  (0 <= shr_m mrs)%Z ->
  located (shr_m mrs) e (loc_of_shr_record mrs) x ->
  located (shr_m (shr_1 mrs)) (e + 1) (loc_of_shr_record (shr_1 mrs)) x
  /\ shr_m (shr_1 mrs) = (shr_m mrs / 2)%Z.
Proof.
  destruct mrs as [m r s]. simpl shr_m. intros Hm H.
  pose proof (pow2_pos e) as Ht. pose proof (pow2_succ e) as Hs.
  destruct m as [|p|p]; [| |lia].
  - split; [|done].
    destruct r, s; simpl in *; rewrite Hs; lra.
  - destruct p as [p|p|].
    + split.
      * pose proof (IZR_xI p) as Hp.
        assert (0 < IZR (Z.pos p)) by (apply IZR_lt; lia).
        destruct r, s; simpl in *; rewrite Hs; rewrite Hp in H; nra.
      * simpl shr_m. rewrite (Pos2Z.inj_xI p).
        destruct r, s; simpl; rewrite Z.add_comm, Z.mul_comm, Z.div_add by lia; done.
    + split.
      * pose proof (IZR_xO p) as Hp.
        assert (0 < IZR (Z.pos p)) by (apply IZR_lt; lia).
        destruct r, s; simpl in *; rewrite Hs; rewrite Hp in H; nra.
      * simpl shr_m. rewrite (Pos2Z.inj_xO p).
        destruct r, s; simpl; rewrite Z.mul_comm, Z.div_mul by lia; done.
    + split; [|by destruct r, s].
      destruct r, s; simpl in *; rewrite Hs; lra.
Qed.

Lemma iter_swap {A} (f : A -> A) (n : nat) x : Nat.iter n f (f x) = f (Nat.iter n f x).
Proof. induction n as [|n IH]; [done|]. simpl. by rewrite IH. Qed.

Lemma iter_pos_nat {A} (f : A -> A) p x :
  SpecFloat.iter_pos f p x = Nat.iter (Pos.to_nat p) f x.
Proof.
  revert x. induction p as [p IH|p IH|]; intros x; simpl SpecFloat.iter_pos.
  - rewrite !IH, Pos2Nat.inj_xI.
    change (Nat.iter (S (2 * Pos.to_nat p)) f x)
      with (f (Nat.iter (2 * Pos.to_nat p) f x)).
    replace (2 * Pos.to_nat p)%nat with (Pos.to_nat p + Pos.to_nat p)%nat by lia.
    by rewrite Nat.iter_add, !iter_swap.
  - rewrite !IH, Pos2Nat.inj_xO.
    replace (2 * Pos.to_nat p)%nat with (Pos.to_nat p + Pos.to_nat p)%nat by lia.
    by rewrite Nat.iter_add.
  - done.
Qed.

Lemma shr_iter_located (n : nat) (mrs : shr_record) e x :
  (0 <= shr_m mrs)%Z ->
  located (shr_m mrs) e (loc_of_shr_record mrs) x ->
  let mrs' := Nat.iter n shr_1 mrs in
  located (shr_m mrs') (e + Z.of_nat n) (loc_of_shr_record mrs') x
  /\ shr_m mrs' = (shr_m mrs / 2 ^ Z.of_nat n)%Z
  /\ (0 <= shr_m mrs')%Z.
Proof.
  intros Hm Hl. induction n as [|n IH].
  - simpl. rewrite Z.add_0_r, Z.div_1_r. done.
  - destruct IH as (Hloc & Hdiv & Hpos). simpl Nat.iter.
    destruct (shr_1_located _ _ _ Hpos Hloc) as [Hloc' Hdiv'].
    rewrite Nat2Z.inj_succ. split; [|split].
    + replace (e + Z.succ (Z.of_nat n))%Z with (e + Z.of_nat n + 1)%Z by lia. done.
    + rewrite Hdiv', Hdiv. rewrite Z.pow_succ_r by lia.
      rewrite Z.div_div by lia. f_equal. lia.
    + rewrite Hdiv'. apply Z.div_pos; lia.
Qed.

(** [shr]: the mantissa is divided by [2 ^ n] when [n] is positive, and
    the real keeps its location. *)
Lemma shr_located (mrs : shr_record) e n x :
  (0 <= shr_m mrs)%Z ->
  located (shr_m mrs) e (loc_of_shr_record mrs) x ->
  located (shr_m (shr mrs e n).1) (shr mrs e n).2 (loc_of_shr_record (shr mrs e n).1) x
  /\ (shr mrs e n).2 = (e + Z.max n 0)%Z
  /\ shr_m (shr mrs e n).1 = (shr_m mrs / 2 ^ Z.max n 0)%Z
  /\ (0 <= shr_m (shr mrs e n).1)%Z.
Proof.
  intros Hm Hl. destruct n as [|p|p]; simpl.
  - rewrite Z.add_0_r, Z.div_1_r. done.
  - rewrite iter_pos_nat.
    destruct (shr_iter_located (Pos.to_nat p) mrs e x Hm Hl) as (H1 & H2 & H3).
    rewrite positive_nat_Z in *. done.
  - rewrite Z.add_0_r, Z.div_1_r. done.
Qed.

(** Rounding to nearest: the chosen mantissa is within half a unit. *)
Lemma round_nearest_even_error m e l x :
  located m e l x ->
  (m <= round_nearest_even m l <= m + 1)%Z
  /\ Rabs (IZR (round_nearest_even m l) * pow2 e - x) <= pow2 e / 2
  /\ (l = loc_Exact -> round_nearest_even m l = m).
Proof.
  pose proof (pow2_pos e) as Ht.
  destruct l as [|[]]; simpl; intros H.
  - split; [lia|]. split; [|done]. subst x. rewrite Rminus_diag, Rabs_R0. lra.
  - split; [|split; [|done]].
    + destruct (Z.even m); lia.
    + subst x. destruct (Z.even m).
      * apply Rabs_le. lra.
      * rewrite plus_IZR. apply Rabs_le. lra.
  - split; [lia|]. split; [|done]. apply Rabs_le. lra.
  - split; [lia|]. split; [|done]. rewrite plus_IZR. apply Rabs_le. lra.
Qed.

End Shift.

Section RoundAux.
Local Open Scope R_scope.

Lemma fexp64 e : fexp prec emax e = Z.max (e - 53) (-1074).
Proof. reflexivity. Qed.

Lemma shr_carry e1 :
  shr (shr_record_of_loc 9007199254740992 loc_Exact) e1 1
  = (Build_shr_record 4503599627370496 false false, (e1 + 1)%Z).
Proof. reflexivity. Qed.

Lemma located_nonneg m e l x : (0 <= m)%Z -> located m e l x -> 0 <= x.
Proof.
  intros Hm%IZR_le. pose proof (pow2_pos e).
  destruct l as [|[]]; simpl; intros; nra.
Qed.

Lemma located_lower m e l x : located m e l x -> IZR m * pow2 e <= x.
Proof.
  pose proof (pow2_pos e).
  destruct l as [|[]]; simpl; intros; nra.
Qed.

Lemma sign_error (s : bool) (v x : R) :
  Rabs ((if s then -1 else 1) * v - (if s then -1 else 1) * x) = Rabs (v - x).
Proof.
  destruct s.
  - replace (-1 * v - -1 * x) with (- (v - x)) by lra. apply Rabs_Ropp.
  - f_equal. lra.
Qed.

(** The core of every operation: a real located at [(m, e, l)], with at
    least as many digits as the format keeps, is rounded to a finite
    number within [u * x + eta], unless it is too large. *)
Lemma binary_round_aux_error (s : bool) (m e : Z) (l : location) (x : R) :
  (0 <= m)%Z ->
  located m e l x ->
  (e <= fexp prec emax (Zdigits2 m + e))%Z ->
  x < pow2 1023 ->
  SF_finite (binary_round_aux prec emax s m e l) = true
  /\ Rabs (SF2R (binary_round_aux prec emax s m e l) - (if s then -1 else 1) * x)
     <= u64 * x + eta64.
Proof.
  intros Hm Hloc Hn Hx.
  pose proof (located_nonneg _ _ _ _ Hm Hloc) as Hx0.
  unfold binary_round_aux, shr_fexp.
  set (d := Zdigits2 m) in *.
  set (e1 := fexp prec emax (d + e)) in *.
  assert (He1 : e1 = Z.max (d + e - 53) (-1074)) by apply fexp64.
  pose proof (shr_located (shr_record_of_loc m l) e (e1 - e) x) as Hshr.
  rewrite shr_record_of_loc_m, loc_of_shr_record_of_loc in Hshr.
  specialize (Hshr Hm Hloc).
  destruct (shr (shr_record_of_loc m l) e (e1 - e)) as [mrs' e'].
  simpl fst in Hshr. simpl snd in Hshr.
  destruct Hshr as (Hloc' & He' & Hq & Hq0).
  rewrite Z.max_l in He', Hq by lia.
  replace (e + (e1 - e))%Z with e1 in He' by lia. subst e'.
  set (q := shr_m mrs') in *.
  destruct (round_nearest_even_error q e1 _ x Hloc') as (Hm1 & Herr & _).
  set (m1 := round_nearest_even q (loc_of_shr_record mrs')) in *.
  (* the quotient has at most 53 digits *)
  assert (Hd0 : (0 <= d)%Z) by apply Zdigits2_nonneg.
  assert (Hqlt : (q < 2 ^ 53)%Z).
  { rewrite Hq. destruct (Z.eq_dec m 0%Z) as [->|Hm0]; [by rewrite Z.div_0_l by lia|].
    pose proof (Zdigits2_bounds m ltac:(lia)) as [_ Hhi]. fold d in Hhi.
    apply Z.div_lt_upper_bound; [lia|].
    rewrite <- Z.pow_add_r by lia.
    eapply Z.lt_le_trans; [exact Hhi|]. apply Z.pow_le_mono_r; lia. }
  (* error of the first rounding, in the two regimes of the exponent *)
  assert (Hbound : pow2 e1 / 2 <= u64 * x + eta64 /\ (e1 <= 970 \/ e1 = -1074)%Z).
  { pose proof (pow2_pos (-53)). pose proof (pow2_pos (-1075)).
    unfold u64, eta64.
    destruct (Z.eq_dec e1 (-1074)%Z) as [->|Hne].
    - split; [|lia]. rewrite <- pow2_pred. change (-1074 - 1)%Z with (-1075)%Z. nra.
    - assert (He1' : e1 = (d + e - 53)%Z) by lia.
      assert (Hmpos : (0 < m)%Z).
      { destruct (Z.eq_dec m 0%Z) as [Hz|]; [|lia]. subst d. rewrite Hz in *. simpl in *. lia. }
      pose proof (Zdigits2_bounds m Hmpos) as [Hlo _]. fold d in Hlo.
      assert (Hxlo : pow2 (e1 + 52) <= x).
      { eapply Rle_trans; [|apply (located_lower _ _ _ _ Hloc)].
        replace (e1 + 52)%Z with ((d - 1) + e)%Z by lia. rewrite pow2_add.
        apply Rmult_le_compat_r; [pose proof (pow2_pos e); lra|].
        rewrite pow2_IZR by lia. by apply IZR_le. }
      split.
      + rewrite <- pow2_pred.
        replace (e1 - 1)%Z with (-53 + (e1 + 52))%Z by lia. rewrite pow2_add. nra.
      + left. assert (pow2 (e1 + 52) < pow2 1023) by lra.
        apply pow2_lt_inv in H1. lia. }
  destruct Hbound as [Hbound He1r].
  (* the second shift *)
  unfold SF_finite.
  destruct (Z.eq_dec m1 (2 ^ 53)%Z) as [Hcarry|Hnc].
  - (* carry: one more shift, exact *)
    change (2 ^ 53)%Z with 9007199254740992%Z in Hcarry.
    rewrite Hcarry in *.
    change (Zdigits2 9007199254740992) with 54%Z.
    rewrite fexp64. replace (Z.max (54 + e1 - 53) (-1074) - e1)%Z with 1%Z by lia.
    rewrite shr_carry. cbv beta iota. cbn [shr_m].
    replace (e1 + 1 <=? emax - prec)%Z with true
      by (symmetry; apply Z.leb_le; unfold emax, prec; lia).
    split; [done|]. cbn [SF2R].
    replace ((if s then -1 else 1) * IZR (Z.pos 4503599627370496) * pow2 (e1 + 1))
      with ((if s then -1 else 1) * (IZR 9007199254740992 * pow2 e1))
      by (rewrite pow2_succ; lra).
    rewrite sign_error. lra.
  - assert (Hm1lt : (m1 < 2 ^ 53)%Z) by lia.
    assert (Hsh : (fexp prec emax (Zdigits2 m1 + e1) - e1 <= 0)%Z).
    { rewrite fexp64. pose proof (Zdigits2_le m1 53%Z ltac:(lia) ltac:(lia)). lia. }
    assert (Hnoshift : shr (shr_record_of_loc m1 loc_Exact) e1
                           (fexp prec emax (Zdigits2 m1 + e1) - e1)
                       = (shr_record_of_loc m1 loc_Exact, e1)).
    { unfold shr. destruct (fexp prec emax (Zdigits2 m1 + e1) - e1)%Z; [done|lia|done]. }
    rewrite Hnoshift. simpl shr_m.
    clearbody m1. destruct m1 as [|p|p]; [| |exfalso; clear -Hm1 Hq0; lia].
    + split; [done|]. cbn [SF2R].
      replace (0 - (if s then -1 else 1) * x)
        with ((if s then -1 else 1) * 0 - (if s then -1 else 1) * x) by (destruct s; lra).
      rewrite sign_error. rewrite Rmult_0_l in Herr. lra.
    + replace (e1 <=? emax - prec)%Z with true
        by (symmetry; apply Z.leb_le; unfold emax, prec; lia).
      split; [done|]. cbn [SF2R].
      replace ((if s then -1 else 1) * IZR (Z.pos p) * pow2 e1)
        with ((if s then -1 else 1) * (IZR (Z.pos p) * pow2 e1)) by ring.
      rewrite sign_error. lra.
Qed.

End RoundAux.

Section Operations.
Local Open Scope R_scope.

(** What validity says of a finite number: the exponent is the canonical
    one of its mantissa, and not above the largest. *)
Lemma valid_finite s m e :
  valid_binary (S754_finite s m e) = true ->
  (e = Z.max (Zpos (digits2_pos m) + e - 53) (-1074) /\ e <= 971)%Z.
Proof.
  unfold SpecFloat.valid_binary, bounded, canonical_mantissa.
  intros [H1 H2]%andb_prop. apply Z.eqb_eq in H1. apply Z.leb_le in H2.
  rewrite fexp64 in H1. unfold emax, prec in H2. lia.
Qed.

Lemma SF2R_finite_abs s m e :
  SF2R (S754_finite s m e) = (if s then -1 else 1) * (IZR (Zpos m) * pow2 e).
Proof. simpl. ring. Qed.

Lemma finite_pos_value m e : 0 < IZR (Zpos m) * pow2 e.
Proof.
  apply Rmult_lt_0_compat; [apply IZR_lt; lia|apply pow2_pos].
Qed.

Lemma sign_abs (s : bool) (v : R) : 0 <= v -> Rabs ((if s then -1 else 1) * v) = v.
Proof.
  intros Hv. destruct s.
  - rewrite Rabs_left1; lra.
  - rewrite Rabs_pos_eq; lra.
Qed.

Lemma sign_xorb (a b : bool) :
  (if xorb a b then -1 else 1) = (if a then -1 else 1) * (if b then -1 else 1).
Proof. destruct a, b; simpl; lra. Qed.

(** Multiplication. *)
Lemma SFmul_error (x y : spec_float) :
  valid_binary x = true -> valid_binary y = true ->
  SF_finite x = true -> SF_finite y = true ->
  Rabs (SF2R x * SF2R y) < pow2 1023 ->
  SF_finite (SF64mul x y) = true
  /\ Rabs (SF2R (SF64mul x y) - SF2R x * SF2R y) <= u64 * Rabs (SF2R x * SF2R y) + eta64.
Proof.
  intros Vx Vy Fx Fy Hlt.
  assert (Hz : 0 <= u64 * Rabs 0 + eta64).
  { rewrite Rabs_R0. unfold eta64. pose proof (pow2_pos (-1075)). lra. }
  destruct x as [sx|sx| |sx mx ex], y as [sy|sy| |sy my ey]; try discriminate;
    unfold SF64mul; cbn [SFmul SF_finite SF2R];
    rewrite ?Rmult_0_l, ?Rmult_0_r, ?Rminus_diag, ?Rabs_R0 in *; try (split; [done|lra]).
  apply valid_finite in Vx as [Vx Vx'], Vy as [Vy Vy'].
  set (P := IZR (Z.pos (mx * my)) * pow2 (ex + ey)).
  assert (HP : (if sx then -1 else 1) * IZR (Z.pos mx) * pow2 ex
               * ((if sy then -1 else 1) * IZR (Z.pos my) * pow2 ey)
               = (if xorb sx sy then -1 else 1) * P).
  { unfold P. rewrite sign_xorb, Pos2Z.inj_mul, mult_IZR, pow2_add. ring. }
  cbn [SF2R] in Hlt. rewrite HP in *.
  assert (HP0 : 0 < P) by apply finite_pos_value.
  rewrite sign_abs in * by lra.
  apply binary_round_aux_error; [lia|done| |done].
  (* the product has enough digits *)
  rewrite fexp64.
  pose proof (digits2_pos_bounds mx) as [Hx _]. pose proof (digits2_pos_bounds my) as [Hy _].
  assert (Hd : (Z.pos (digits2_pos mx) + Z.pos (digits2_pos my) - 1
                <= Zdigits2 (Z.pos (mx * my)))%Z).
  { apply Zdigits2_ge; [|lia]. rewrite Pos2Z.inj_mul.
    replace (Z.pos (digits2_pos mx) + Z.pos (digits2_pos my) - 1 - 1)%Z
      with ((Z.pos (digits2_pos mx) - 1) + (Z.pos (digits2_pos my) - 1))%Z by lia.
    rewrite Z.pow_add_r by lia. apply Z.mul_le_mono_nonneg; lia. }
  lia.
Qed.

(** Division: the location computed from the remainder. *)
Lemma new_location_located (nb k q e : Z) :
  (0 < nb)%Z -> (0 <= k < nb)%Z ->
  located q e (new_location nb k) ((IZR q + IZR k / IZR nb) * pow2 e).
Proof.
  intros Hnb Hk. pose proof (pow2_pos e) as Ht.
  assert (Hnb' : 0 < IZR nb) by (apply IZR_lt; lia).
  assert (Hk0 : 0 <= IZR k) by (apply IZR_le; lia).
  assert (Hdiv : forall a b : Z, (a < b)%Z -> IZR a < IZR b) by apply IZR_lt.
  assert (Hfrac_lt : forall a : R, IZR k * 2 < a * IZR nb -> IZR k / IZR nb < a / 2).
  { intros a Ha. apply (Rmult_lt_reg_r (IZR nb)); [done|].
    unfold Rdiv. rewrite Rmult_assoc, Rinv_l by lra. lra. }
  assert (Hfrac_gt : forall a : R, a * IZR nb < IZR k * 2 -> a / 2 < IZR k / IZR nb).
  { intros a Ha. apply (Rmult_lt_reg_r (IZR nb)); [done|].
    unfold Rdiv at 2. rewrite Rmult_assoc, Rinv_l by lra. lra. }
  assert (Hpos : (0 < k)%Z -> 0 < IZR k / IZR nb).
  { intros H. apply Rdiv_lt_0_compat; [apply IZR_lt; lia|done]. }
  assert (H2k : IZR (2 * k) = IZR k * 2) by (rewrite mult_IZR; lra).
  unfold new_location.
  destruct (Z.eq_dec k 0%Z) as [->|Hk'].
  { destruct (Z.even nb); simpl; unfold Rdiv; rewrite Rmult_0_l, Rplus_0_r; done. }
  assert (Hkf : (k =? 0)%Z = false) by by apply Z.eqb_neq.
  specialize (Hpos ltac:(lia)).
  destruct (Z.even nb) eqn:Heven;
    unfold new_location_even, new_location_odd; rewrite Hkf.
  - destruct (Z.compare_spec (2 * k) nb) as [Heq|Hlt|Hgt]; simpl.
    + f_equal. f_equal. apply (Rmult_eq_reg_r (IZR nb)); [|lra].
      unfold Rdiv. rewrite Rmult_assoc, Rinv_l by lra.
      rewrite <- Heq, H2k. lra.
    + apply Hdiv in Hlt. rewrite H2k in Hlt.
      pose proof (Hfrac_lt 1 ltac:(lra)). nra.
    + apply Hdiv in Hgt. rewrite H2k in Hgt.
      pose proof (Hfrac_gt 1 ltac:(lra)).
      assert (IZR k / IZR nb < 1).
      { apply (Rmult_lt_reg_r (IZR nb)); [done|].
        unfold Rdiv. rewrite Rmult_assoc, Rinv_l by lra.
        assert (IZR k < IZR nb) by (apply IZR_lt; lia). lra. }
      nra.
  - assert (Hodd : (2 * k <> nb)%Z).
    { intros <-. rewrite Z.even_mul in Heven. done. }
    assert (Hlow : (2 * k < nb)%Z -> located q e (loc_Inexact Lt)
                                             ((IZR q + IZR k / IZR nb) * pow2 e)).
    { intros Hlt. apply Hdiv in Hlt. rewrite H2k in Hlt.
      pose proof (Hfrac_lt 1 ltac:(lra)). simpl. nra. }
    destruct (Z.compare_spec (2 * k + 1) nb) as [Heq|Hlt|Hgt].
    + apply Hlow. lia.
    + apply Hlow. lia.
    + assert (Hgt' : (nb < 2 * k)%Z) by lia.
      apply Hdiv in Hgt'. rewrite H2k in Hgt'.
      pose proof (Hfrac_gt 1 ltac:(lra)).
      assert (IZR k / IZR nb < 1).
      { apply (Rmult_lt_reg_r (IZR nb)); [done|].
        unfold Rdiv. rewrite Rmult_assoc, Rinv_l by lra.
        assert (IZR k < IZR nb) by (apply IZR_lt; lia). lra. }
      simpl. nra.
Qed.

Lemma SFdiv_core_located (m1 m2 : positive) (e1 e2 : Z) :
  let '(q, e', l) := SFdiv_core_binary prec emax (Zpos m1) e1 (Zpos m2) e2 in
  (0 <= q)%Z
  /\ located q e' l (IZR (Zpos m1) * pow2 e1 / (IZR (Zpos m2) * pow2 e2))
  /\ (e' <= fexp prec emax (Zdigits2 q + e'))%Z.
Proof.
  unfold SFdiv_core_binary.
  set (d1 := Zdigits2 (Z.pos m1)). set (d2 := Zdigits2 (Z.pos m2)).
  set (e' := Z.min (fexp prec emax (d1 + e1 - (d2 + e2))) (e1 - e2)).
  set (s := (e1 - e2 - e')%Z).
  assert (Hs : (0 <= s)%Z) by (subst s e'; lia).
  set (m' := match s with Z.pos _ => Z.shiftl (Z.pos m1) s | 0%Z => Z.pos m1 | Z.neg _ => 0%Z end).
  assert (Hm' : m' = (Z.pos m1 * 2 ^ s)%Z).
  { subst m'. destruct s as [|p|p] eqn:Hp; [simpl; lia| |lia].
    rewrite Z.shiftl_mul_pow2 by lia. done. }
  clearbody m'.
  pose proof (Z_div_mod m' (Z.pos m2) ltac:(lia)) as Hdm.
  destruct (Z.div_eucl m' (Z.pos m2)) as [q r]. destruct Hdm as [Hdm Hr].
  assert (Hq0 : (0 <= q)%Z).
  { assert (0 <= m')%Z by (rewrite Hm'; apply Z.mul_nonneg_nonneg; [lia|apply Z.pow_nonneg; lia]).
    nia. }
  split; [done|]. split.
  - pose proof (new_location_located (Z.pos m2) r q e' ltac:(lia) Hr) as Hloc.
    replace (IZR (Z.pos m1) * pow2 e1 / (IZR (Z.pos m2) * pow2 e2))
      with ((IZR q + IZR r / IZR (Z.pos m2)) * pow2 e'); [done|].
    assert (H2 : 0 < IZR (Z.pos m2)) by (apply IZR_lt; lia).
    pose proof (pow2_pos e2). pose proof (pow2_pos e').
    replace e1 with (s + e' + e2)%Z by (subst s; lia).
    rewrite !pow2_add.
    assert (Hm1 : IZR (Z.pos m1) * pow2 s = IZR (Z.pos m2) * IZR q + IZR r).
    { rewrite (pow2_IZR s Hs), <- mult_IZR, <- Hm', Hdm, plus_IZR, mult_IZR. done. }
    transitivity ((IZR (Z.pos m1) * pow2 s) * pow2 e' / IZR (Z.pos m2)).
    + rewrite Hm1. field. lra.
    + field. lra.
  - rewrite fexp64. subst e'. rewrite fexp64.
    destruct (Z.le_gt_cases (d1 + e1 - (d2 + e2) - 53) (-1074)) as [Hsub|Hnorm]; [lia|].
    (* the quotient has at least 53 digits *)
    assert (Hq53 : (53 <= Zdigits2 q)%Z).
    { pose proof (digits2_pos_bounds m1) as [H1 _]. pose proof (digits2_pos_bounds m2) as [_ H2].
      fold (Zdigits2 (Z.pos m1)) in H1. fold (Zdigits2 (Z.pos m2)) in H2. fold d1 in H1. fold d2 in H2.
      assert (Hs' : (53 - d1 + d2 <= s)%Z) by (subst s; rewrite fexp64; lia).
      assert (Hd2 : (0 < d2)%Z) by (subst d2; simpl; lia).
      assert (Hd1 : (0 < d1)%Z) by (subst d1; simpl; lia).
      assert (Hbig : (2 ^ 52 * Z.pos m2 <= m')%Z).
      { rewrite Hm'. 
        apply Z.le_trans with (2 ^ 52 * 2 ^ d2)%Z; [apply Z.mul_le_mono_nonneg_l; lia|].
        apply Z.le_trans with (2 ^ (d1 - 1) * 2 ^ s)%Z.
        - rewrite <- !Z.pow_add_r by lia. apply Z.pow_le_mono_r; lia.
        - apply Z.mul_le_mono_nonneg_r; [apply Z.pow_nonneg; lia|lia]. }
      assert (Hq52 : (2 ^ 52 <= q)%Z) by nia.
      apply Zdigits2_ge; [done|lia]. }
    lia.
Qed.

Lemma SFdiv_error (x y : spec_float) :
  valid_binary x = true -> valid_binary y = true ->
  SF_finite x = true -> SF_finite y = true ->
  SF2R y <> 0 ->
  Rabs (SF2R x / SF2R y) < pow2 1023 ->
  SF_finite (SF64div x y) = true
  /\ Rabs (SF2R (SF64div x y) - SF2R x / SF2R y) <= u64 * Rabs (SF2R x / SF2R y) + eta64.
Proof.
  intros Vx Vy Fx Fy Hy Hlt.
  assert (Hz : 0 <= u64 * Rabs 0 + eta64).
  { rewrite Rabs_R0. unfold eta64. pose proof (pow2_pos (-1075)). lra. }
  destruct y as [sy|sy| |sy my ey]; try discriminate; [exfalso; apply Hy; reflexivity|].
  destruct x as [sx|sx| |sx mx ex]; try discriminate.
  { unfold SF64div. cbn [SFdiv SF_finite SF2R]. unfold Rdiv.
    rewrite Rmult_0_l, Rminus_diag. rewrite Rabs_R0 in *. split; [done|lra]. }
  unfold SF64div. cbn [SFdiv].
  pose proof (SFdiv_core_located mx my ex ey) as Hcore.
  destruct (SFdiv_core_binary prec emax (Z.pos mx) ex (Z.pos my) ey) as [[mz ez] lz].
  destruct Hcore as (Hmz & Hloc & Hdig).
  set (X := IZR (Z.pos mx) * pow2 ex / (IZR (Z.pos my) * pow2 ey)) in *.
  pose proof (finite_pos_value mx ex) as Hnum. pose proof (finite_pos_value my ey) as Hden.
  assert (HX0 : 0 < X) by (apply Rdiv_lt_0_compat; done).
  assert (HX : SF2R (S754_finite sx mx ex) / SF2R (S754_finite sy my ey)
               = (if xorb sx sy then -1 else 1) * X).
  { rewrite !SF2R_finite_abs. unfold X.
    generalize dependent (IZR (Z.pos mx) * pow2 ex). generalize dependent (IZR (Z.pos my) * pow2 ey).
    intros B ? A **. destruct sx, sy; simpl; field; lra. }
  rewrite HX in *. rewrite sign_abs in * by lra.
  by apply binary_round_aux_error.
Qed.

(** Addition and subtraction: alignment, then rounding of the exact sum. *)
Lemma pos_iter_xO (m d : positive) : Zpos (Pos.iter xO m d) = (Zpos m * 2 ^ Zpos d)%Z.
Proof.
  induction d as [|d IH] using Pos.peano_ind.
  - simpl. lia.
  - rewrite Pos.iter_succ, Pos2Z.inj_xO, IH, Pos2Z.inj_succ, Z.pow_succ_r by lia. lia.
Qed.

Lemma shl_align_value (mx : positive) (ex ez : Z) :
  (ez <= ex)%Z ->
  (shl_align mx ex ez).2 = ez
  /\ Zpos (shl_align mx ex ez).1 = (Zpos mx * 2 ^ (ex - ez))%Z.
Proof.
  intros Hle. unfold shl_align.
  destruct (ez - ex)%Z as [|d|d] eqn:Hd; [| lia |].
  - assert (ex = ez) by lia. subst. simpl. rewrite Z.sub_diag. simpl. lia.
  - simpl. rewrite pos_iter_xO. split; [done|]. f_equal. f_equal. lia.
Qed.

Lemma shl_align_R (mx : positive) (ex ez : Z) :
  (ez <= ex)%Z ->
  IZR (Zpos (shl_align mx ex ez).1) * pow2 ez = IZR (Zpos mx) * pow2 ex.
Proof.
  intros Hle. destruct (shl_align_value mx ex ez Hle) as [_ ->].
  rewrite mult_IZR, <- pow2_IZR by lia.
  replace ex with ((ex - ez) + ez)%Z at 2 by lia. rewrite pow2_add. ring.
Qed.

Lemma Zdigits2_shift (m : positive) (k : Z) :
  (0 <= k)%Z -> Zdigits2 (Zpos m * 2 ^ k) = (Zdigits2 (Zpos m) + k)%Z.
Proof.
  intros Hk. pose proof (digits2_pos_bounds m) as [Hlo Hhi].
  assert (0 < 2 ^ k)%Z by (apply Z.pow_pos_nonneg; lia).
  apply Zdigits2_unique; [|nia]. simpl Zdigits2.
  replace (Z.pos (digits2_pos m) + k - 1)%Z with ((Z.pos (digits2_pos m) - 1) + k)%Z by lia.
  rewrite !Z.pow_add_r by lia. nia.
Qed.

Lemma binary_round_error (s : bool) (p : positive) (e : Z) :
  IZR (Zpos p) * pow2 e < pow2 1023 ->
  SF_finite (binary_round prec emax s p e) = true
  /\ Rabs (SF2R (binary_round prec emax s p e)
           - (if s then -1 else 1) * (IZR (Zpos p) * pow2 e))
     <= u64 * (IZR (Zpos p) * pow2 e) + eta64.
Proof.
  intros Hlt. unfold binary_round.
  set (t := fexp prec emax (Z.pos (digits2_pos p) + e)).
  destruct (Z.le_gt_cases e t) as [Hle|Hgt].
  - (* no shift *)
    assert (Hsh : shl_align p e t = (p, e)).
    { unfold shl_align. destruct (t - e)%Z eqn:Hd; [done|done|lia]. }
    rewrite Hsh. apply binary_round_aux_error; [lia|done|done|done].
  - pose proof (shl_align_value p e t ltac:(lia)) as [H2 H1].
    pose proof (shl_align_R p e t ltac:(lia)) as HR.
    destruct (shl_align p e t) as [mz ez]. simpl in *. subst ez.
    rewrite <- HR in *.
    apply binary_round_aux_error; [lia|done| |done].
    rewrite H1, Zdigits2_shift by lia. simpl Zdigits2.
    replace (Z.pos (digits2_pos p) + (e - t) + t)%Z with (Z.pos (digits2_pos p) + e)%Z by lia.
    fold t. lia.
Qed.

Lemma binary_normalize_error (m e : Z) :
  Rabs (IZR m * pow2 e) < pow2 1023 ->
  SF_finite (binary_normalize prec emax m e false) = true
  /\ Rabs (SF2R (binary_normalize prec emax m e false) - IZR m * pow2 e)
     <= u64 * Rabs (IZR m * pow2 e) + eta64.
Proof.
  intros Hlt. pose proof (pow2_pos e) as Ht.
  destruct m as [|p|p]; unfold binary_normalize.
  - cbn [SF_finite SF2R]. rewrite Rmult_0_l, Rminus_diag, Rabs_R0.
    unfold eta64. pose proof (pow2_pos (-1075)). split; [done|lra].
  - pose proof (finite_pos_value p e) as Hp.
    rewrite (Rabs_pos_eq (IZR (Z.pos p) * pow2 e)) in * by lra.
    pose proof (binary_round_error false p e Hlt) as [H1 H2].
    split; [done|]. cbv iota in H2. by rewrite Rmult_1_l in H2.
  - pose proof (finite_pos_value p e) as Hp.
    assert (Hneg : IZR (Z.neg p) * pow2 e = -1 * (IZR (Z.pos p) * pow2 e)).
    { change (Z.neg p) with (- Z.pos p)%Z. rewrite opp_IZR. ring. }
    assert (Habs : Rabs (-1 * (IZR (Z.pos p) * pow2 e)) = IZR (Z.pos p) * pow2 e)
      by (apply (sign_abs true); lra).
    rewrite Hneg, Habs in *.
    exact (binary_round_error true p e Hlt).
Qed.

Lemma cond_Zopp_R (s : bool) (m : Z) :
  IZR (cond_Zopp s m) = (if s then -1 else 1) * IZR m.
Proof. destruct s; simpl; [rewrite opp_IZR|]; lra. Qed.

Lemma aligned_sum_R (sx sy : bool) (mx my : positive) (ex ey : Z) :
  IZR (cond_Zopp sx (Zpos (shl_align mx ex (Z.min ex ey)).1)
       + cond_Zopp sy (Zpos (shl_align my ey (Z.min ex ey)).1)) * pow2 (Z.min ex ey)
  = SF2R (S754_finite sx mx ex) + SF2R (S754_finite sy my ey).
Proof.
  rewrite plus_IZR, !cond_Zopp_R, !SF2R_finite_abs.
  rewrite <- (shl_align_R mx ex (Z.min ex ey)) by lia.
  rewrite <- (shl_align_R my ey (Z.min ex ey)) by lia.
  ring.
Qed.

Lemma aligned_diff_R (sx sy : bool) (mx my : positive) (ex ey : Z) :
  IZR (cond_Zopp sx (Zpos (shl_align mx ex (Z.min ex ey)).1)
       - cond_Zopp sy (Zpos (shl_align my ey (Z.min ex ey)).1)) * pow2 (Z.min ex ey)
  = SF2R (S754_finite sx mx ex) - SF2R (S754_finite sy my ey).
Proof.
  rewrite minus_IZR, !cond_Zopp_R, !SF2R_finite_abs.
  rewrite <- (shl_align_R mx ex (Z.min ex ey)) by lia.
  rewrite <- (shl_align_R my ey (Z.min ex ey)) by lia.
  ring.
Qed.

Lemma exact_error (v : R) : Rabs (v - v) <= u64 * Rabs v + eta64.
Proof.
  rewrite Rminus_diag, Rabs_R0. pose proof (Rabs_pos v).
  unfold u64, eta64. pose proof (pow2_pos (-53)). pose proof (pow2_pos (-1075)). nra.
Qed.

Lemma SFadd_error (x y : spec_float) :
  SF_finite x = true -> SF_finite y = true ->
  Rabs (SF2R x + SF2R y) < pow2 1023 ->
  SF_finite (SF64add x y) = true
  /\ Rabs (SF2R (SF64add x y) - (SF2R x + SF2R y)) <= u64 * Rabs (SF2R x + SF2R y) + eta64.
Proof.
  intros Fx Fy Hlt.
  destruct x as [sx|sx| |sx mx ex], y as [sy|sy| |sy my ey]; try discriminate;
    unfold SF64add; cbn [SFadd].
  - destruct sx, sy; cbn [SF_finite SF2R]; rewrite Rplus_0_l; split; try done; apply exact_error.
  - split; [done|]. cbn [SF2R]. rewrite Rplus_0_l. apply exact_error.
  - split; [done|]. cbn [SF2R]. rewrite Rplus_0_r. apply exact_error.
  - rewrite <- aligned_sum_R in *. by apply binary_normalize_error.
Qed.

Lemma SFsub_error (x y : spec_float) :
  SF_finite x = true -> SF_finite y = true ->
  Rabs (SF2R x - SF2R y) < pow2 1023 ->
  SF_finite (SF64sub x y) = true
  /\ Rabs (SF2R (SF64sub x y) - (SF2R x - SF2R y)) <= u64 * Rabs (SF2R x - SF2R y) + eta64.
Proof.
  intros Fx Fy Hlt.
  destruct x as [sx|sx| |sx mx ex], y as [sy|sy| |sy my ey]; try discriminate;
    unfold SF64sub; cbn [SFsub].
  - destruct sx, sy; cbn [SF_finite SF2R]; rewrite Rminus_0_r; split; try done; apply exact_error.
  - split; [done|]. cbn [SF2R]. rewrite Rminus_0_l.
    replace (- ((if sy then -1 else 1) * IZR (Z.pos my) * pow2 ey))
      with ((if negb sy then -1 else 1) * IZR (Z.pos my) * pow2 ey)
      by (destruct sy; simpl; lra).
    apply exact_error.
  - split; [done|]. cbn [SF2R]. rewrite Rminus_0_r. apply exact_error.
  - rewrite <- aligned_diff_R in *. by apply binary_normalize_error.
Qed.

End Operations.

Section Primitive.
Local Open Scope R_scope.

(** ** The four operations on primitive floats *)

Lemma mul_error (x y : float) :
  finite x -> finite y ->
  Rabs (F2R x * F2R y) < pow2 1023 ->
  finite (x * y)
  /\ Rabs (F2R (x * y) - F2R x * F2R y) <= u64 * Rabs (F2R x * F2R y) + eta64.
Proof.
  unfold finite, F2R. rewrite mul_spec. intros.
  apply SFmul_error; auto using Prim2SF_valid.
Qed.

Lemma div_error (x y : float) :
  finite x -> finite y -> F2R y <> 0 ->
  Rabs (F2R x / F2R y) < pow2 1023 ->
  finite (x / y)
  /\ Rabs (F2R (x / y) - F2R x / F2R y) <= u64 * Rabs (F2R x / F2R y) + eta64.
Proof.
  unfold finite, F2R. rewrite div_spec. intros.
  apply SFdiv_error; auto using Prim2SF_valid.
Qed.

Lemma add_error (x y : float) :
  finite x -> finite y ->
  Rabs (F2R x + F2R y) < pow2 1023 ->
  finite (x + y)
  /\ Rabs (F2R (x + y) - (F2R x + F2R y)) <= u64 * Rabs (F2R x + F2R y) + eta64.
Proof.
  unfold finite, F2R. rewrite add_spec. intros. by apply SFadd_error.
Qed.

Lemma sub_error (x y : float) :
  finite x -> finite y ->
  Rabs (F2R x - F2R y) < pow2 1023 ->
  finite (x - y)
  /\ Rabs (F2R (x - y) - (F2R x - F2R y)) <= u64 * Rabs (F2R x - F2R y) + eta64.
Proof.
  unfold finite, F2R. rewrite sub_spec. intros. by apply SFsub_error.
Qed.

Lemma opp_exact (x : float) : finite x -> finite (- x) /\ F2R (- x) = - F2R x.
Proof.
  unfold finite, F2R. rewrite opp_spec.
  destruct (Prim2SF x) as [s|s| |s m e]; try discriminate; intros _; simpl;
    (split; [done|]); try lra.
  destruct s; simpl; lra.
Qed.

(** ** Comparisons *)

(** Between two valid finite numbers of the same sign, the one with the
    smaller exponent is the smaller in magnitude. *)
Lemma canonical_exp_lt (s1 s2 : bool) (m1 m2 : positive) (e1 e2 : Z) :
  valid_binary (S754_finite s1 m1 e1) = true ->
  valid_binary (S754_finite s2 m2 e2) = true ->
  (e1 < e2)%Z ->
  IZR (Zpos m1) * pow2 e1 < IZR (Zpos m2) * pow2 e2.
Proof.
  intros [V1 _]%valid_finite [V2 _]%valid_finite Hlt.
  pose proof (digits2_pos_bounds m1) as [_ H1]. pose proof (digits2_pos_bounds m2) as [H2 _].
  assert (Hd2 : Z.pos (digits2_pos m2) = 53%Z) by lia.
  assert (Hd1 : (Z.pos (digits2_pos m1) <= 53)%Z) by lia.
  rewrite Hd2 in H2.
  assert (Hm1 : (Z.pos m1 < 2 ^ 53)%Z).
  { eapply Z.lt_le_trans; [exact H1|]. apply Z.pow_le_mono_r; lia. }
  apply IZR_lt in Hm1. apply IZR_le in H2.
  replace (53 - 1)%Z with 52%Z in H2 by lia.
  pose proof (pow2_pos e1). 
  assert (pow2 (e1 + 1) <= pow2 e2) by (apply pow2_le; lia).
  rewrite pow2_succ in *.
  replace (IZR (2 ^ 53)) with (2 * IZR (2 ^ 52)) in Hm1
    by (change (2 ^ 53)%Z with (2 * 2 ^ 52)%Z; rewrite mult_IZR; done).
  assert (0 < IZR (2 ^ 52)) by (apply IZR_lt; lia).
  nra.
Qed.

Lemma pos_compare_R (m1 m2 : positive) :
  match Pos.compare_cont Eq m1 m2 with
  | Lt => IZR (Zpos m1) < IZR (Zpos m2)
  | Eq => IZR (Zpos m1) = IZR (Zpos m2)
  | Gt => IZR (Zpos m2) < IZR (Zpos m1)
  end.
Proof.
  change (Pos.compare_cont Eq m1 m2) with (Pos.compare m1 m2).
  destruct (Pos.compare_spec m1 m2) as [->|H|H]; [done| |]; apply IZR_lt; lia.
Qed.

(** [x <= y] on finite floats is [<=] on their real values. *)
Lemma SFleb_R (x y : spec_float) :
  valid_binary x = true -> valid_binary y = true ->
  SF_finite x = true -> SF_finite y = true ->
  SFleb x y = true -> SF2R x <= SF2R y.
Proof.
  intros Vx Vy Fx Fy. unfold SFleb, SFcompare.
  destruct x as [sx|sx| |sx mx ex], y as [sy|sy| |sy my ey]; try discriminate; cbn [SF2R].
  - lra.
  - pose proof (finite_pos_value my ey). destruct sy; [discriminate|]. intros _. lra.
  - pose proof (finite_pos_value mx ex). destruct sx; [|discriminate]. intros _. lra.
  - pose proof (finite_pos_value mx ex) as Hx. pose proof (finite_pos_value my ey) as Hy.
    pose proof (pos_compare_R mx my) as Hc.
    pose proof (pow2_pos ex) as Hex.
    destruct sx, sy; try discriminate; [| intros _; lra |].
    + destruct (Z.compare_spec ex ey) as [->|Hlt|Hgt]; try discriminate.
      * destruct (Pos.compare_cont Eq mx my); try discriminate; intros _; nra.
      * intros _. pose proof (canonical_exp_lt _ _ _ _ _ _ Vy Vx Hgt). lra.
    + destruct (Z.compare_spec ex ey) as [->|Hlt|Hgt]; try discriminate.
      * destruct (Pos.compare_cont Eq mx my); try discriminate; intros _; nra.
      * intros _. pose proof (canonical_exp_lt _ _ _ _ _ _ Vx Vy Hlt). lra.
Qed.

Lemma leb_R (x y : float) :
  finite x -> finite y -> (x <=? y)%float = true -> F2R x <= F2R y.
Proof.
  unfold finite, F2R. rewrite leb_spec. intros.
  apply SFleb_R; auto using Prim2SF_valid.
Qed.

(** A float between two finite floats is finite. *)
Lemma leb_between_finite (a x b : float) :
  finite a -> finite b ->
  (a <=? x)%float = true -> (x <=? b)%float = true -> finite x.
Proof.
  unfold finite. rewrite !leb_spec. unfold SFleb, SFcompare.
  destruct (Prim2SF a) as [sa|sa| |sa ma ea]; try discriminate;
  destruct (Prim2SF b) as [sb|sb| |sb mb eb]; try discriminate;
  destruct (Prim2SF x) as [sx|sx| |sx mx ex]; try done;
  destruct sx; try done; try (destruct sa; done); try (destruct sb; done).
Qed.

End Primitive.

Section Normalised.
Local Open Scope R_scope.

(** ** Numeric facts *)

Lemma pow2_neg_IZR (n : Z) : (0 <= n)%Z -> pow2 (- n) = / IZR (2 ^ n).
Proof. intros Hn. by rewrite pow2_opp, pow2_IZR. Qed.

Lemma u64_small : u64 <= / 1000000000000000.
Proof.
  unfold u64. replace (pow2 (-53)) with (/ IZR (2 ^ 53))
    by (symmetry; apply (pow2_neg_IZR 53); lia).
  apply Rinv_le_contravar; [lra|]. change (2 ^ 53)%Z with 9007199254740992%Z. lra.
Qed.

Lemma eta64_small : eta64 <= / 1000000000000000.
Proof.
  unfold eta64. apply Rle_trans with (pow2 (-53)); [apply pow2_le; lia|apply u64_small].
Qed.

Lemma u64_pos : 0 < u64.
Proof. apply pow2_pos. Qed.

Lemma eta64_pos : 0 < eta64.
Proof. apply pow2_pos. Qed.

Lemma pow2_1023_big : 8192 * pow2 1010 = pow2 1023.
Proof.
  replace 1023%Z with (13 + 1010)%Z by lia. rewrite pow2_add. f_equal.
  rewrite (pow2_IZR 13) by lia. done.
Qed.

Lemma pow2_510 : pow2 510 = 1024 * pow2 500.
Proof.
  replace 510%Z with (10 + 500)%Z by lia. rewrite pow2_add. f_equal.
  rewrite (pow2_IZR 10) by lia. done.
Qed.

Lemma pow2_1010 : pow2 1010 = pow2 510 * pow2 500.
Proof. rewrite <- pow2_add. f_equal. Qed.

Lemma pow2_500_ge : 1 <= pow2 500.
Proof. rewrite <- pow2_0. apply pow2_le. lia. Qed.

Lemma F2R_zero : F2R 0 = 0.
Proof. reflexivity. Qed.

Lemma F2R_one : F2R 1 = 1.
Proof.
  unfold F2R. change (Prim2SF 1) with (S754_finite false 4503599627370496 (-52)).
  cbn [SF2R]. replace (pow2 (-52)) with (/ IZR (2 ^ 52))
    by (symmetry; apply (pow2_neg_IZR 52); lia).
  change (2 ^ 52)%Z with 4503599627370496%Z. field.
Qed.

Lemma F2R_2p500 : F2R 0x1p500 = pow2 500.
Proof.
  unfold F2R. change (Prim2SF 0x1p500) with (S754_finite false 4503599627370496 448).
  cbn [SF2R]. change 4503599627370496%Z with (2 ^ 52)%Z.
  rewrite <- (pow2_IZR 52) by lia. rewrite Rmult_1_l, <- pow2_add. f_equal.
Qed.

Lemma F2R_m2p500 : F2R (-0x1p500) = - pow2 500.
Proof.
  unfold F2R. change (Prim2SF (-0x1p500)) with (S754_finite true 4503599627370496 448).
  cbn [SF2R]. change 4503599627370496%Z with (2 ^ 52)%Z.
  rewrite <- (pow2_IZR 52) by lia.
  replace (-1 * pow2 52 * pow2 448) with (- (pow2 52 * pow2 448)) by ring.
  rewrite <- pow2_add. f_equal.
Qed.

Lemma finite_zero : finite 0.
Proof. reflexivity. Qed.

Lemma finite_one : finite 1.
Proof. reflexivity. Qed.

Lemma finite_2p500 : finite 0x1p500.
Proof. reflexivity. Qed.

Lemma finite_m2p500 : finite (-0x1p500).
Proof. reflexivity. Qed.

(** ** Errors in units of the image dimension

    Every operation below works on quantities of the form [q * W]; its
    error is stated for the quotient by [W]. *)

Lemma Rabs_bound (x a : R) : Rabs x <= a -> - a <= x <= a.
Proof. unfold Rabs. destruct (Rcase_abs x); lra. Qed.

Lemma unit_bound (r : R) :
  u64 * Rabs r + eta64 <= / 1000000000000000 * Rabs r + / 1000000000000000.
Proof.
  pose proof u64_small. pose proof eta64_small. pose proof (Rabs_pos r).
  pose proof u64_pos. nra.
Qed.

Variable W : float.
Hypothesis W_finite : finite W.
Hypothesis W_lo : 1 <= F2R W.
Hypothesis W_hi : F2R W <= pow2 500.

Lemma scaled_abs (q : R) : Rabs (q * F2R W) = Rabs q * F2R W.
Proof. rewrite Rabs_mult, (Rabs_pos_eq (F2R W)) by lra. done. Qed.

Lemma scaled_lt (q : R) : Rabs q <= pow2 510 -> Rabs (q * F2R W) < pow2 1023.
Proof.
  intros Hq. rewrite scaled_abs, <- pow2_1023_big, pow2_1010.
  pose proof (Rabs_pos q). pose proof (pow2_pos 510). pose proof (pow2_pos 500). nra.
Qed.

(** From an error on [q * W] to an error on [q]. *)
Lemma scaled_error (v q : R) :
  Rabs (v - q * F2R W) <= u64 * Rabs (q * F2R W) + eta64 ->
  Rabs (v / F2R W - q) <= / 1000000000000000 * Rabs q + / 1000000000000000.
Proof.
  intros Herr. rewrite scaled_abs in Herr.
  apply Rle_trans with (u64 * Rabs q + eta64); [|apply unit_bound].
  replace (v / F2R W - q) with ((v - q * F2R W) / F2R W) by (field; lra).
  unfold Rdiv. rewrite Rabs_mult, Rabs_inv, (Rabs_pos_eq (F2R W)) by lra.
  apply (Rmult_le_reg_r (F2R W)); [lra|].
  rewrite Rmult_assoc, Rinv_l, Rmult_1_r by lra.
  pose proof eta64_pos. pose proof u64_pos. pose proof (Rabs_pos q). nra.
Qed.

Lemma mul_W (x : float) :
  finite x -> Rabs (F2R x) <= pow2 510 ->
  finite (x * W)
  /\ Rabs (F2R (x * W) / F2R W - F2R x)
     <= / 1000000000000000 * Rabs (F2R x) + / 1000000000000000.
Proof.
  intros Fx Hx.
  destruct (mul_error x W Fx W_finite (scaled_lt _ Hx)) as [Hf Herr].
  split; [done|]. by apply scaled_error.
Qed.

Lemma div_W (a : float) :
  finite a -> Rabs (F2R a / F2R W) <= pow2 510 ->
  finite (a / W)
  /\ Rabs (F2R (a / W) - F2R a / F2R W)
     <= / 1000000000000000 * Rabs (F2R a / F2R W) + / 1000000000000000.
Proof.
  intros Fa Ha.
  assert (Hlt : Rabs (F2R a / F2R W) < pow2 1023).
  { rewrite <- pow2_1023_big, pow2_1010. pose proof (pow2_pos 510). pose proof pow2_500_ge. nra. }
  destruct (div_error a W Fa W_finite ltac:(lra) Hlt) as [Hf Herr].
  split; [done|]. eapply Rle_trans; [exact Herr|apply unit_bound].
Qed.

Lemma add_W (a b : float) :
  finite a -> finite b ->
  Rabs (F2R a / F2R W + F2R b / F2R W) <= pow2 510 ->
  finite (a + b)
  /\ Rabs (F2R (a + b) / F2R W - (F2R a / F2R W + F2R b / F2R W))
     <= / 1000000000000000 * Rabs (F2R a / F2R W + F2R b / F2R W) + / 1000000000000000.
Proof.
  intros Fa Fb Hab.
  assert (Heq : F2R a + F2R b = (F2R a / F2R W + F2R b / F2R W) * F2R W) by (field; lra).
  pose proof (scaled_lt _ Hab) as Hlt. rewrite <- Heq in Hlt.
  destruct (add_error a b Fa Fb Hlt) as [Hf Herr].
  split; [done|]. apply scaled_error. by rewrite <- Heq.
Qed.

End Normalised.

Section Axis.
Local Open Scope R_scope.

Lemma err_interval (v q B : R) :
  Rabs (v - q) <= / 1000000000000000 * Rabs q + / 1000000000000000 ->
  Rabs q <= B ->
  - (/ 1000000000000000 * B + / 1000000000000000) <= v - q
    <= / 1000000000000000 * B + / 1000000000000000.
Proof. intros H1 H2. apply Rabs_bound. lra. Qed.

Lemma pow2_510_big : 1024 <= pow2 510.
Proof. rewrite pow2_510. pose proof pow2_500_ge. lra. Qed.

(** A chain of comparisons between finite bounds keeps both numbers
    finite. *)
Lemma leb_chain_finite (a x y b : float) :
  finite a -> finite b ->
  (a <=? x)%float = true -> (x <=? y)%float = true -> (y <=? b)%float = true ->
  finite x /\ finite y.
Proof.
  unfold finite. rewrite !leb_spec. unfold SFleb, SFcompare.
  destruct (Prim2SF a) as [sa|sa| |sa ma ea]; try discriminate;
  destruct (Prim2SF b) as [sb|sb| |sb mb eb]; try discriminate;
  destruct (Prim2SF x) as [sx|sx| |sx mx ex]; try done;
  destruct (Prim2SF y) as [sy|sy| |sy my ey]; try done;
  try (destruct sx; done); try (destruct sy; done);
  try (destruct sx, sy; done); try (destruct sx, sa; done); try (destruct sy, sb; done).
Qed.

(** One axis of the round trip: a normalized interval [[x1, x2]] of
    [[0, 1]], scaled by the dimension [W] and divided by it again. *)
Lemma axis_roundtrip (x1 x2 W : float) :
  (0 <=? x1)%float = true -> (x1 <=? x2)%float = true -> (x2 <=? 1)%float = true ->
  (1 <=? W)%float = true -> (W <=? 0x1p500)%float = true ->
  close (/ 1000000) (x1 * W / W)%float x1
  /\ close (/ 1000000) ((x1 * W + (x2 - x1) * W) / W)%float x2
  /\ close (/ 1000000) ((x1 * W + 0) / W)%float x1
  /\ close (/ 1000000) ((x2 * W + 0) / W)%float x2.
Proof.
  intros H0 H12 H1 HW1 HW2.
  destruct (leb_chain_finite 0 x1 x2 1 finite_zero finite_one H0 H12 H1) as [F1 F2].
  pose proof (leb_between_finite 1 W 0x1p500 finite_one finite_2p500 HW1 HW2) as FW.
  pose proof (leb_R _ _ finite_zero F1 H0) as R0. rewrite F2R_zero in R0.
  pose proof (leb_R _ _ F1 F2 H12) as R12.
  pose proof (leb_R _ _ F2 finite_one H1) as R1. rewrite F2R_one in R1.
  pose proof (leb_R _ _ finite_one FW HW1) as RW1. rewrite F2R_one in RW1.
  pose proof (leb_R _ _ FW finite_2p500 HW2) as RW2. rewrite F2R_2p500 in RW2.
  pose proof pow2_510_big as Hbig.
  assert (Hx1abs : Rabs (F2R x1) = F2R x1) by (apply Rabs_pos_eq; lra).
  assert (Hx2abs : Rabs (F2R x2) = F2R x2) by (apply Rabs_pos_eq; lra).
  (* a1 = x1 * W, a2 = x2 * W *)
  destruct (mul_W W FW RW1 RW2 x1 F1 ltac:(rewrite Hx1abs; lra)) as [Fa1 Ea1].
  destruct (mul_W W FW RW1 RW2 x2 F2 ltac:(rewrite Hx2abs; lra)) as [Fa2 Ea2].
  rewrite Hx1abs in Ea1. rewrite Hx2abs in Ea2.
  apply Rabs_bound in Ea1, Ea2.
  set (A1 := F2R (x1 * W) / F2R W) in *. set (A2 := F2R (x2 * W) / F2R W) in *.
  (* the plain quotient *)
  assert (HA1 : Rabs A1 <= 2) by (apply Rabs_le; lra).
  assert (HA2 : Rabs A2 <= 2) by (apply Rabs_le; lra).
  destruct (div_W W FW RW1 (x1 * W) Fa1 ltac:(fold A1; lra)) as [Flo Elo].
  fold A1 in Elo. apply (fun H => err_interval _ _ 2 H HA1) in Elo.
  (* the width d = x2 - x1, scaled *)
  assert (Hdlt : Rabs (F2R x2 - F2R x1) < pow2 1023).
  { rewrite Rabs_pos_eq by lra. rewrite <- pow2_1023_big, pow2_1010.
    pose proof pow2_500_ge. nra. }
  destruct (sub_error x2 x1 F2 F1 Hdlt) as [Fd Ed].
  pose proof (unit_bound (F2R x2 - F2R x1)) as Hub.
  rewrite (Rabs_pos_eq (F2R x2 - F2R x1)) in Ed, Hub by lra.
  assert (Ed' : Rabs (F2R (x2 - x1) - (F2R x2 - F2R x1))
                <= / 1000000000000000 * 1 + / 1000000000000000) by lra.
  apply Rabs_bound in Ed'.
  assert (HD : Rabs (F2R (x2 - x1)) <= 2) by (apply Rabs_le; lra).
  destruct (mul_W W FW RW1 RW2 (x2 - x1) Fd ltac:(lra)) as [Fb Eb].
  apply (fun H => err_interval _ _ 2 H HD) in Eb.
  set (Bn := F2R ((x2 - x1) * W) / F2R W) in *.
  (* the sum of corner and width *)
  assert (HS : Rabs (A1 + Bn) <= 4) by (apply Rabs_le; lra).
  destruct (add_W W RW1 RW2 (x1 * W) ((x2 - x1) * W) Fa1 Fb ltac:(fold A1 Bn; lra))
    as [Fs Es].
  fold A1 Bn in Es. apply (fun H => err_interval _ _ 4 H HS) in Es.
  set (S := F2R (x1 * W + (x2 - x1) * W) / F2R W) in *.
  assert (HS' : Rabs S <= 5) by (apply Rabs_le; lra).
  destruct (div_W W FW RW1 _ Fs ltac:(fold S; lra)) as [Fhi Ehi].
  fold S in Ehi. apply (fun H => err_interval _ _ 5 H HS') in Ehi.
  (* the sums with a zero offset *)
  assert (Hz : F2R 0 / F2R W = 0) by (rewrite F2R_zero; unfold Rdiv; ring).
  destruct (add_W W RW1 RW2 (x1 * W) 0 Fa1 finite_zero
              ltac:(fold A1; rewrite Hz, Rplus_0_r; lra)) as [Fz1 Ez1].
  fold A1 in Ez1. rewrite Hz, Rplus_0_r in Ez1.
  apply (fun H => err_interval _ _ 2 H HA1) in Ez1.
  set (Z1 := F2R (x1 * W + 0) / F2R W) in *.
  assert (HZ1 : Rabs Z1 <= 3) by (apply Rabs_le; lra).
  destruct (div_W W FW RW1 _ Fz1 ltac:(fold Z1; lra)) as [Fq1 Eq1].
  fold Z1 in Eq1. apply (fun H => err_interval _ _ 3 H HZ1) in Eq1.
  destruct (add_W W RW1 RW2 (x2 * W) 0 Fa2 finite_zero
              ltac:(fold A2; rewrite Hz, Rplus_0_r; lra)) as [Fz2 Ez2].
  fold A2 in Ez2. rewrite Hz, Rplus_0_r in Ez2.
  apply (fun H => err_interval _ _ 2 H HA2) in Ez2.
  set (Z2 := F2R (x2 * W + 0) / F2R W) in *.
  assert (HZ2 : Rabs Z2 <= 3) by (apply Rabs_le; lra).
  destruct (div_W W FW RW1 _ Fz2 ltac:(fold Z2; lra)) as [Fq2 Eq2].
  fold Z2 in Eq2. apply (fun H => err_interval _ _ 3 H HZ2) in Eq2.
  unfold close. repeat split; try done; apply Rabs_le; lra.
Qed.

End Axis.

Section Translation.
Local Open Scope R_scope.

Local Ltac opaque_lra :=
  repeat match goal with x := _ |- _ => clearbody x end; lra.

Lemma in_range_R (v : float) :
  in_range v -> finite v /\ - pow2 500 <= F2R v <= pow2 500.
Proof.
  intros [Hlo Hhi].
  pose proof (leb_between_finite _ _ _ finite_m2p500 finite_2p500 Hlo Hhi) as Fv.
  split; [done|].
  pose proof (leb_R _ _ finite_m2p500 Fv Hlo) as H1. rewrite F2R_m2p500 in H1.
  pose proof (leb_R _ _ Fv finite_2p500 Hhi) as H2. rewrite F2R_2p500 in H2. lra.
Qed.

Lemma err_interval' (v q B : R) :
  Rabs (v - q) <= / 1000000000000000 * Rabs q + / 1000000000000000 ->
  - B <= q <= B ->
  - (/ 1000000000000000 * B + / 1000000000000000) <= v - q
    <= / 1000000000000000 * B + / 1000000000000000.
Proof. intros H1 H2. apply err_interval; [done|]. apply Rabs_le. lra. Qed.

(** One coordinate of the box: shifted by [dx] pixels and renormalized,
    then shifted by [-dx] and renormalized. *)
Lemma coord_translate (x dx W : float) :
  in_range x -> in_range dx ->
  (1 <=? W)%float = true -> (W <=? 0x1p500)%float = true ->
  within (tolerance (F2R x) (F2R dx / F2R W))
         ((x * W + dx) / W)%float (F2R x + F2R dx / F2R W)
  /\ within (tolerance (F2R x) (F2R dx / F2R W))
            (((x * W + dx) / W * W + - dx) / W)%float (F2R x).
Proof.
  intros [Fx Rx]%in_range_R [Fd Rd]%in_range_R HW1 HW2.
  pose proof (leb_between_finite 1 W 0x1p500 finite_one finite_2p500 HW1 HW2) as FW.
  pose proof (leb_R _ _ finite_one FW HW1) as RW1. rewrite F2R_one in RW1.
  pose proof (leb_R _ _ FW finite_2p500 HW2) as RW2. rewrite F2R_2p500 in RW2.
  destruct (opp_exact dx Fd) as [Fnd Rnd].
  set (X := F2R x) in *. set (D := F2R dx / F2R W).
  set (T := pow2 500) in *.
  assert (HT : 1 <= T) by apply pow2_500_ge.
  assert (H510 : pow2 510 = 1024 * T) by apply pow2_510.
  assert (HD : - T <= D <= T).
  { unfold D. split.
    - apply (Rmult_le_reg_r (F2R W)); [lra|]. unfold Rdiv.
      rewrite Rmult_assoc, Rinv_l, Rmult_1_r by lra. nra.
    - apply (Rmult_le_reg_r (F2R W)); [lra|]. unfold Rdiv.
      rewrite Rmult_assoc, Rinv_l, Rmult_1_r by lra. nra. }
  set (B := Rabs X + Rabs D + 1).
  assert (HB : 1 <= B /\ - B <= X <= B /\ - B <= D <= B /\ B <= 3 * T).
  { unfold B. unfold Rabs. destruct (Rcase_abs X), (Rcase_abs D); lra. }
  destruct HB as (HB1 & HBX & HBD & HBT).
  assert (Hnd : F2R (- dx) / F2R W = - D) by (rewrite Rnd; unfold D; field; lra).
  (* forward *)
  assert (G0 : Rabs X <= pow2 510) by (apply Rabs_le; opaque_lra).
  destruct (mul_W W FW RW1 RW2 x Fx G0) as [Fa Ea]. fold X in Ea.
  apply (fun H => err_interval' _ _ B H HBX) in Ea.
  set (A := F2R (x * W) / F2R W) in *.
  assert (G1 : Rabs (A + D) <= pow2 510) by (apply Rabs_le; opaque_lra).
  destruct (add_W W RW1 RW2 (x * W) dx Fa Fd G1) as [Fs Es].
  fold A D in Es.
  assert (IEs : - (3 * B) <= A + D <= 3 * B) by opaque_lra.
  apply (fun H => err_interval' _ _ _ H IEs) in Es.
  set (S1 := F2R (x * W + dx) / F2R W) in *.
  assert (G2 : Rabs S1 <= pow2 510) by (apply Rabs_le; opaque_lra).
  destruct (div_W W FW RW1 _ Fs G2) as [Fn En].
  fold S1 in En.
  assert (IEn : - (4 * B) <= S1 <= 4 * B) by opaque_lra.
  apply (fun H => err_interval' _ _ _ H IEn) in En.
  set (n := ((x * W + dx) / W)%float) in *. set (N := F2R n) in *.
  (* backward *)
  assert (G3 : Rabs N <= pow2 510) by (apply Rabs_le; opaque_lra).
  destruct (mul_W W FW RW1 RW2 n Fn G3) as [Fb Eb].
  fold N in Eb.
  assert (IEb : - (4 * B) <= N <= 4 * B) by opaque_lra.
  apply (fun H => err_interval' _ _ _ H IEb) in Eb.
  set (Bk := F2R (n * W) / F2R W) in *.
  assert (G4 : Rabs (Bk + F2R (- dx) / F2R W) <= pow2 510)
    by (rewrite Hnd; apply Rabs_le; opaque_lra).
  destruct (add_W W RW1 RW2 (n * W) (- dx) Fb Fnd G4) as [Fs2 Es2].
  fold Bk in Es2. rewrite Hnd in Es2.
  assert (IEs2 : - (4 * B) <= Bk + - D <= 4 * B) by opaque_lra.
  apply (fun H => err_interval' _ _ _ H IEs2) in Es2.
  set (S2 := F2R (n * W + - dx) / F2R W) in *.
  assert (G5 : Rabs S2 <= pow2 510) by (apply Rabs_le; opaque_lra).
  destruct (div_W W FW RW1 _ Fs2 G5) as [Fn2 En2].
  fold S2 in En2.
  assert (IEn2 : - (4 * B) <= S2 <= 4 * B) by opaque_lra.
  apply (fun H => err_interval' _ _ _ H IEn2) in En2.
  unfold within, tolerance. fold B N.
  split; (split; [done|]); apply Rabs_le; opaque_lra.
Qed.

(** One coordinate of a mask point, in pixels: shifted by [dx], then by
    [-dx]. *)
Lemma point_translate (p dx : float) :
  in_range p -> in_range dx ->
  within (tolerance (F2R p) (F2R dx)) (p + dx)%float (F2R p + F2R dx)
  /\ within (tolerance (F2R p) (F2R dx)) (p + dx + - dx)%float (F2R p).
Proof.
  intros [Fp Rp]%in_range_R [Fd Rd]%in_range_R.
  destruct (opp_exact dx Fd) as [Fnd Rnd].
  set (P := F2R p) in *. set (D := F2R dx) in *. set (T := pow2 500) in *.
  assert (HT : 1 <= T) by apply pow2_500_ge.
  assert (H1023 : 8192 * (1024 * T * T) = pow2 1023).
  { rewrite <- pow2_1023_big, pow2_1010, pow2_510. unfold T. ring. }
  set (B := Rabs P + Rabs D + 1).
  assert (HB : 1 <= B /\ - B <= P <= B /\ - B <= D <= B /\ B <= 3 * T).
  { unfold B. unfold Rabs. destruct (Rcase_abs P), (Rcase_abs D); lra. }
  destruct HB as (HB1 & HBP & HBD & HBT).
  assert (Hlt : forall v, - (4 * B) <= v <= 4 * B -> Rabs v < pow2 1023).
  { intros v Hv. rewrite <- H1023. apply Rle_lt_trans with (4 * B); [apply Rabs_le; opaque_lra|]. nra. }
  assert (G1 : Rabs (P + D) < pow2 1023) by (apply Hlt; opaque_lra).
  destruct (add_error p dx Fp Fd G1) as [F1 E1].
  fold P D in E1.
  pose proof (unit_bound (P + D)) as U1.
  assert (E1' : Rabs (F2R (p + dx) - (P + D))
                <= / 1000000000000000 * Rabs (P + D) + / 1000000000000000) by opaque_lra.
  assert (IE1p : - (2 * B) <= P + D <= 2 * B) by opaque_lra.
  apply (fun H => err_interval' _ _ _ H IE1p) in E1'.
  set (Q := F2R (p + dx)) in *.
  assert (G2 : Rabs (Q + F2R (- dx)) < pow2 1023) by (rewrite Rnd; apply Hlt; opaque_lra).
  destruct (add_error (p + dx) (- dx) F1 Fnd G2) as [F2 E2].
  fold Q in E2. rewrite Rnd in E2. fold D in E2.
  pose proof (unit_bound (Q + - D)) as U2.
  assert (E2' : Rabs (F2R (p + dx + - dx) - (Q + - D))
                <= / 1000000000000000 * Rabs (Q + - D) + / 1000000000000000) by opaque_lra.
  assert (IE2p : - (2 * B) <= Q + - D <= 2 * B) by opaque_lra.
  apply (fun H => err_interval' _ _ _ H IE2p) in E2'.
  unfold within, tolerance. fold B Q.
  split; (split; [done|]); apply Rabs_le; opaque_lra.
Qed.

End Translation.

(** * Geometry of the canvas: normalization and translation *)

Section GeometryFacts.
Import AppContext Canvas.
Local Open Scope R_scope.

Lemma image_dimension_R (W : float) :
  image_dimension W -> finite W /\ 1 <= F2R W <= pow2 500.
Proof.
  intros [H1 H2].
  pose proof (leb_between_finite 1 W 0x1p500 finite_one finite_2p500 H1 H2) as FW.
  pose proof (leb_R _ _ finite_one FW H1) as R1. rewrite F2R_one in R1.
  pose proof (leb_R _ _ FW finite_2p500 H2) as R2. rewrite F2R_2p500 in R2.
  done.
Qed.

(** On a box of dyadic fractions in an image of 200 by 100 the round trip
    is exact, and the drag of the sample object by [(50, -12.5)] and back
    returns its box. *)
Example roundtrip_sample :
  normalizeBox (denormalizeBbox [0.25; 0.25; 0.75; 0.5]%float 200 100) 200 100
  = [0.25; 0.25; 0.75; 0.5]%float.
Proof. reflexivity. Qed.

Example drag_sample :
  bbox (translate masked_object 50 (-12.5) 200 100) = [0.5; 0.125; 1; 0.375]%float
  /\ bbox (translate (translate masked_object 50 (-12.5) 200 100) (-50) 12.5 200 100)
     = bbox masked_object.
Proof. split; reflexivity. Qed.

(** C7. For image dimensions [W] and [H] (pixel counts, from [1] to
    [2^500]) and a normalized box
    [b = [x1, y1, x2, y2]] with [0 <= x1 <= x2 <= 1] and
    [0 <= y1 <= y2 <= 1], the box converted to pixels by [denormalizeBbox]
    and normalized again, and the box that [shiftBboxAndMask] converts to
    pixels, moves by nothing and normalizes again, are finite and within
    [1e-6] of [b] in each component. *)
Theorem normalized_roundtrip (b : list float) (W H : float) :
  unit_box b -> image_dimension W -> image_dimension H ->
  Forall2 (close (/ 1000000)) (normalizeBox (denormalizeBbox b W H) W H) b
  /\ forall obj, bbox obj = b ->
       Forall2 (close (/ 1000000)) (shiftBboxAndMask obj 0 0 W H).1 b.
Proof.
  intros Hb [HW1 HW2] [HH1 HH2].
  destruct b as [|x1 [|y1 [|x2 [|y2 [|? ?]]]]]; try done.
  destruct Hb as [(Hx0 & Hx1 & Hx2) (Hy0 & Hy1 & Hy2)].
  destruct (axis_roundtrip x1 x2 W Hx0 Hx1 Hx2 HW1 HW2) as (X1 & X2 & X3 & X4).
  destruct (axis_roundtrip y1 y2 H Hy0 Hy1 Hy2 HH1 HH2) as (Y1 & Y2 & Y3 & Y4).
  split.
  - unfold normalizeBox, denormalizeBbox, Js.num_at. cbn [nth box_x box_y box_width box_height].
    repeat (constructor; [assumption|]). constructor.
  - intros obj Hobj. unfold shiftBboxAndMask. rewrite Hobj.
    unfold Js.num_at. cbn [nth fst].
    repeat (constructor; [assumption|]). constructor.
Qed.

Lemma normalized_roundtrip_witness :
  Forall2 (close (/ 1000000))
          (normalizeBox (denormalizeBbox [0.25; 0.25; 0.75; 0.5]%float 200 100) 200 100)
          [0.25; 0.25; 0.75; 0.5]%float
  /\ forall obj, bbox obj = [0.25; 0.25; 0.75; 0.5]%float ->
       Forall2 (close (/ 1000000)) (shiftBboxAndMask obj 0 0 200 100).1
               [0.25; 0.25; 0.75; 0.5]%float.
Proof.
  apply normalized_roundtrip.
  - unfold unit_box. repeat split; reflexivity.
  - split; reflexivity.
  - split; reflexivity.
Defined.

(** The shifted geometry, coordinate by coordinate. *)
Lemma translate_bbox (obj : DetObject) (dx dy W H : float) :
  bbox (translate obj dx dy W H) = (shiftBboxAndMask obj dx dy W H).1.
Proof. unfold translate, shiftBboxAndMask. cbv zeta. destruct (mask obj); reflexivity. Qed.

Lemma translate_mask (obj : DetObject) (dx dy W H : float) :
  mask (translate obj dx dy W H)
  = option_map (List.map (fun pt => ((fst pt + dx)%float, (snd pt + dy)%float))) (mask obj).
Proof.
  unfold translate, shiftBboxAndMask. cbv zeta.
  destruct (mask obj) eqn:Hm; simpl; rewrite ?Hm; reflexivity.
Qed.

Lemma shift_bbox (obj : DetObject) (dx dy W H x1 y1 x2 y2 : float) :
  bbox obj = [x1; y1; x2; y2] ->
  (shiftBboxAndMask obj dx dy W H).1
  = [ ((x1 * W + dx) / W)%float; ((y1 * H + dy) / H)%float;
      ((x2 * W + dx) / W)%float; ((y2 * H + dy) / H)%float ].
Proof. intros Hb. unfold shiftBboxAndMask. rewrite Hb. reflexivity. Qed.

Lemma mask_points_translate (dx dy : float) (m : list (float * float)) :
  in_range dx -> in_range dy ->
  Forall (fun pt => in_range (fst pt) /\ in_range (snd pt)) m ->
  let shift (ex ey : float) :=
    List.map (fun pt => ((fst pt + ex)%float, (snd pt + ey)%float)) in
  Forall2 (fun p q => moved_by (F2R dx) (fst p) (fst q) /\ moved_by (F2R dy) (snd p) (snd q))
          m (shift dx dy m)
  /\ Forall2 (fun p q => restored (F2R dx) (fst p) (fst q) /\ restored (F2R dy) (snd p) (snd q))
             m (shift (- dx)%float (- dy)%float (shift dx dy m)).
Proof.
  intros Hdx Hdy Hm shift. unfold shift.
  induction Hm as [|[px py] m [Hpx Hpy] Hm [IH1 IH2]]; [by split; constructor|].
  destruct (point_translate px dx Hpx Hdx) as [Mx Rx].
  destruct (point_translate py dy Hpy Hdy) as [My Ry].
  split; (constructor; [by split|done]).
Qed.

Lemma F2R_quarter : F2R 0.25 = / 4.
Proof.
  unfold F2R. change (Prim2SF 0.25) with (S754_finite false 4503599627370496 (-54)).
  cbn [SF2R]. replace (pow2 (-54)) with (/ IZR (2 ^ 54))
    by (symmetry; apply (pow2_neg_IZR 54); lia).
  change (2 ^ 54)%Z with 18014398509481984%Z. field.
Qed.

(** C8 as stated fails: the sample object in an image of 200 by 100,
    dragged by [(2^70, 2^70)] and then by [(-2^70, -2^70)], comes back
    with the box [[0, 0, 0, 0]] and every mask point at [(0, 0)]: at
    that distance the pixel coordinates are rounded away. *)
Lemma translate_restores_fails : ~ translate_restores_claim.
Proof.
  intros Hclaim.
  assert (Hobj : object_in_range masked_object).
  { unfold object_in_range, masked_object, in_range. cbn [bbox mask length].
    split; [reflexivity|].
    split; repeat (constructor; [repeat split; reflexivity|]); constructor. }
  destruct (Hclaim masked_object 0x1p70%float 0x1p70%float 200%float 100%float Hobj
              ltac:(split; reflexivity) ltac:(split; reflexivity)
              ltac:(split; reflexivity) ltac:(split; reflexivity)) as [Hbox _].
  assert (Hback : bbox (translate (translate masked_object 0x1p70 0x1p70 200 100)
                                  (PrimFloat.opp 0x1p70) (PrimFloat.opp 0x1p70) 200 100)
                  = [0; 0; 0; 0]%float) by (vm_compute; reflexivity).
  rewrite Hback in Hbox. cbn [box_rel masked_object bbox] in Hbox.
  destruct Hbox as [[_ Hx] _]. rewrite F2R_zero, F2R_quarter in Hx.
  replace (0 - / 4) with (- / 4) in Hx by lra.
  rewrite Rabs_Ropp, !Rabs_pos_eq in Hx by lra. lra.
Qed.

(** C8, amended. For an object whose box has four coordinates, with the
    coordinates of the box and of the mask and the offsets within the
    bounds [-2^500] and [2^500], and image dimensions [W] and [H] (pixel
    counts, from [1] to [2^500]): the drag by [(dx, dy)] adds
    the same [dx] and [dy] to every mask point as to the pixel corners of
    the box, so that the box moves by [(dx / W, dy / H)] and the mask
    points by [(dx, dy)]; and a drag by [(-dx, -dy)]
    after it gives the coordinates of the original box and of the original
    mask points back; each within a tolerance that grows with the
    offset, [10^-13 * (|v| + |d| + 1)] for the coordinate [v] and the
    offset [d] in the unit of [v].  An object without a mask stays
    without one. *)
Theorem translate_then_inverse (obj : DetObject) (dx dy W H : float) :
  object_in_range obj -> in_range dx -> in_range dy ->
  image_dimension W -> image_dimension H ->
  let moved := translate obj dx dy W H in
  let back := translate moved (- dx)%float (- dy)%float W H in
  mask moved
    = option_map (List.map (fun pt => ((fst pt + dx)%float, (snd pt + dy)%float))) (mask obj)
  /\ box_rel pixel_shift (W, dx) (H, dy) (bbox obj) (bbox moved)
  /\ box_rel moved_by (F2R dx / F2R W) (F2R dy / F2R H) (bbox obj) (bbox moved)
  /\ mask_rel moved_by (F2R dx) (F2R dy) (mask obj) (mask moved)
  /\ box_rel restored (F2R dx / F2R W) (F2R dy / F2R H) (bbox obj) (bbox back)
  /\ mask_rel restored (F2R dx) (F2R dy) (mask obj) (mask back).
Proof.
  intros (Hlen & Hbox & Hmask) Hdx Hdy [HW1 HW2] [HH1 HH2] moved back.
  destruct (bbox obj) as [|x1 [|y1 [|x2 [|y2 [|? ?]]]]] eqn:Hb; try discriminate Hlen.
  apply Forall_cons in Hbox as [Hx1 Hbox]. apply Forall_cons in Hbox as [Hy1 Hbox].
  apply Forall_cons in Hbox as [Hx2 Hbox]. apply Forall_cons in Hbox as [Hy2 _].
  assert (Hb1 : bbox moved = _)
    by (unfold moved; rewrite translate_bbox; exact (shift_bbox _ dx dy W H _ _ _ _ Hb)).
  assert (Hb2 : bbox back = _)
    by (unfold back; rewrite translate_bbox; exact (shift_bbox _ _ _ W H _ _ _ _ Hb1)).
  assert (Hm1 : mask moved = _) by (unfold moved; apply translate_mask).
  assert (Hm2 : mask back = _) by (unfold back; rewrite translate_mask, Hm1; reflexivity).
  rewrite Hb1, Hb2, Hm1, Hm2. clear Hb1 Hb2 Hm1 Hm2. clearbody moved back.
  destruct (coord_translate x1 dx W Hx1 Hdx HW1 HW2) as [Mx1 Rx1].
  destruct (coord_translate y1 dy H Hy1 Hdy HH1 HH2) as [My1 Ry1].
  destruct (coord_translate x2 dx W Hx2 Hdx HW1 HW2) as [Mx2 Rx2].
  destruct (coord_translate y2 dy H Hy2 Hdy HH1 HH2) as [My2 Ry2].
  split; [reflexivity|].
  split; [by unfold box_rel, pixel_shift|].
  split; [by unfold box_rel, moved_by|].
  destruct (mask obj) as [m|]; cbn [option_map mask_rel].
  - destruct (mask_points_translate dx dy m Hdx Hdy Hmask) as [Mm Rm].
    split; [exact Mm|]. split; [by unfold box_rel, restored|exact Rm].
  - split; [done|]. split; [by unfold box_rel, restored|done].
Qed.

Lemma translate_then_inverse_witness :
  mask (translate masked_object 10 (-5) 200 100)
    = Some [(60, 20); (160, 20); (160, 45)]%float
  /\ box_rel restored (F2R 10 / F2R 200) (F2R (-5) / F2R 100)
       (bbox masked_object)
       (bbox (translate (translate masked_object 10 (-5) 200 100) (-10) 5 200 100))
  /\ mask_rel restored (F2R 10) (F2R (-5))
       (mask masked_object)
       (mask (translate (translate masked_object 10 (-5) 200 100) (-10) 5 200 100)).
Proof.
  assert (Hobj : object_in_range masked_object).
  { unfold object_in_range, masked_object, in_range. cbn [bbox mask length].
    split; [reflexivity|].
    split; repeat (constructor; [repeat split; reflexivity|]); constructor. }
  destruct (translate_then_inverse masked_object 10 (-5) 200 100 Hobj
              ltac:(split; reflexivity) ltac:(split; reflexivity)
              ltac:(split; reflexivity) ltac:(split; reflexivity))
    as (Hm & _ & _ & _ & Hb & Hk).
  split; [exact Hm|]. split; [exact Hb|exact Hk].
Defined.

End GeometryFacts.

(** * The store: navigation, visibility and edits of the object list *)

Section StoreOperations.
Import AppContext Canvas.

(** ** Navigation between images *)

Lemma index_ok_current (st : State) :
  index_ok st -> (currentImage st = None <-> images st = []).
Proof.
  unfold index_ok, currentImage. intros [[Himg Hidx]|Hidx].
  - rewrite Himg, Hidx. simpl. done.
  - destruct (0 <=? currentImageIndex st)%Z eqn:H0; [|lia].
    destruct (currentImageIndex st <? Z.of_nat (length (images st)))%Z eqn:H1; [|lia].
    simpl. split.
    + intros Hnone. apply lookup_ge_None in Hnone. lia.
    + intros Himg. rewrite Himg in Hidx. simpl in Hidx. lia.
Qed.

Lemma perform_index_ok (o : Op) (st : State) : index_ok st -> index_ok (perform o st).
Proof.
  unfold index_ok. intros Hok.
  destruct o; simpl.
  - (* addImage *)
    right. unfold addImage. simpl. rewrite length_app. simpl.
    destruct Hok as [[Himg Hidx]|Hidx].
    + rewrite Himg, Hidx. simpl. lia.
    + destruct (currentImageIndex st <? 0)%Z eqn:Hneg; lia.
  - (* removeImage *)
    unfold removeImage. cbn [images currentImageIndex].
    set (nxt := List.filter _ (images st)).
    assert (Hlen : (length nxt <= length (images st))%nat) by apply List.filter_length_le.
    assert (Hnil : nxt = [] <-> length nxt = 0%nat) by (destruct nxt; done).
    destruct (Z.of_nat (length nxt) <=? currentImageIndex st)%Z eqn:Hle;
      destruct Hok as [[Himg Hidx]|Hidx];
      try (rewrite Himg in Hlen; simpl in Hlen);
      destruct (decide (length nxt = 0%nat)) as [Hz|Hz];
      solve [left; split; [by apply Hnil|lia] | right; lia].
  - (* goToImage *)
    unfold goToImage.
    destruct ((0 <=? idx)%Z && (idx <? Z.of_nat (length (images st)))%Z) eqn:Hg;
      [|exact Hok].
    apply andb_true_iff in Hg as [H0 H1]. right. cbn [images currentImageIndex]. lia.
  - (* nextImage *)
    unfold nextImage.
    destruct (currentImageIndex st <? Z.of_nat (length (images st)) - 1)%Z eqn:Hn;
      [|exact Hok].
    right. unfold set_currentImageIndex. cbn [images currentImageIndex].
    destruct Hok as [[Himg Hidx]|Hidx]; [rewrite Himg, Hidx in Hn; done|lia].
  - (* prevImage *)
    unfold prevImage.
    destruct (0 <? currentImageIndex st)%Z eqn:Hp; [|exact Hok].
    right. unfold set_currentImageIndex. cbn [images currentImageIndex].
    destruct Hok as [[_ Hidx]|Hidx]; lia.
  - (* updateImageDimensions *)
    unfold updateImageDimensions.
    destruct (falsy w || falsy h); [exact Hok|]. simpl. rewrite length_map.
    destruct Hok as [[Himg Hidx]|Hidx]; [left; by rewrite Himg|by right].
  - (* the other operations leave the images and the index alone *)
    exact Hok.
  - exact Hok.
  - exact Hok.
  - unfold addBboxToResults. destruct (currentImage st); exact Hok.
  - unfold updateBboxInResults. destruct (currentImage st); exact Hok.
  - unfold removeBboxFromResults. destruct (currentImage st); exact Hok.
  - unfold updateObjectClass. destruct (currentImage st); exact Hok.
  - unfold toggleObjectVisibility. destruct (currentImage st); exact Hok.
Qed.

(** X1. Whatever operations of the context are performed from the initial
    state, the current index is [-1] exactly while there is no image and
    is otherwise the index of an image: [currentImage] is null only when
    the image list is empty. *)
Theorem current_image_defined (ops : list Op) :
  let st := performAll ops initialApp in
  index_ok st /\ (currentImage st = None <-> images st = []).
Proof.
  assert (H : forall ops st, index_ok st -> index_ok (performAll ops st)).
  { clear ops. induction ops as [|o ops IH]; intros st Hst; [exact Hst|].
    simpl. apply IH, perform_index_ok, Hst. }
  assert (Hok : index_ok (performAll ops initialApp)) by (apply H; left; done).
  split; [exact Hok|by apply index_ok_current].
Qed.

Lemma nextImage_moves (st : State) :
  nextImage st ≠ st <-> (currentImageIndex st < Z.of_nat (length (images st)) - 1)%Z.
Proof.
  unfold nextImage.
  destruct (Z.ltb_spec (currentImageIndex st) (Z.of_nat (length (images st)) - 1)).
  - split; [done|]. intros _ Heq. apply (f_equal currentImageIndex) in Heq.
    simpl in Heq. lia.
  - split; [done|lia].
Qed.

Lemma prevImage_moves (st : State) :
  prevImage st ≠ st <-> (0 < currentImageIndex st)%Z.
Proof.
  unfold prevImage. destruct (Z.ltb_spec 0 (currentImageIndex st)).
  - split; [done|]. intros _ Heq. apply (f_equal currentImageIndex) in Heq.
    simpl in Heq. lia.
  - split; [done|lia].
Qed.

Lemma set_currentImageIndex_same (st : State) :
  set_currentImageIndex (currentImageIndex st) st = st.
Proof. by destruct st. Qed.

(** X2. Next and Previous undo each other: when [nextImage] moves, a
    following [prevImage] returns to the state before, and the other way
    round; [nextImage] moves exactly when the current image is not the
    last one and then shows the image after it. *)
Theorem next_prev_inverse (st : State) :
  index_ok st ->
  (nextImage st ≠ st -> prevImage (nextImage st) = st)
  /\ (prevImage st ≠ st -> nextImage (prevImage st) = st)
  /\ (nextImage st ≠ st <->
        (currentImageIndex st < Z.of_nat (length (images st)) - 1)%Z)
  /\ (nextImage st ≠ st ->
        currentImage (nextImage st)
        = images st !! S (Z.to_nat (currentImageIndex st))).
Proof.
  intros Hok.
  assert (Hlow : (currentImageIndex st < Z.of_nat (length (images st)) - 1)%Z ->
                 (0 <= currentImageIndex st)%Z).
  { destruct Hok as [[Himg Hidx]|Hidx]; [rewrite Himg, Hidx; simpl|]; lia. }
  assert (Hhigh : (currentImageIndex st < Z.of_nat (length (images st)))%Z).
  { destruct Hok as [[Himg Hidx]|Hidx]; [rewrite Himg, Hidx; simpl|]; lia. }
  split; [|split; [|split; [apply nextImage_moves|]]].
  - intros Hmove%nextImage_moves. specialize (Hlow Hmove). unfold nextImage.
    destruct (Z.ltb_spec (currentImageIndex st) (Z.of_nat (length (images st)) - 1));
      [|lia].
    unfold prevImage, set_currentImageIndex. cbn [images currentImageIndex].
    destruct (Z.ltb_spec 0 (currentImageIndex st + 1)); [|lia].
    cbn [detectionMode imagePrompts detectionResults hiddenObjects].
    replace (currentImageIndex st + 1 - 1)%Z with (currentImageIndex st) by lia.
    by destruct st.
  - intros Hmove%prevImage_moves. unfold prevImage.
    destruct (Z.ltb_spec 0 (currentImageIndex st)); [|lia].
    unfold nextImage, set_currentImageIndex. cbn [images currentImageIndex].
    destruct (Z.ltb_spec (currentImageIndex st - 1) (Z.of_nat (length (images st)) - 1));
      [|lia].
    cbn [detectionMode imagePrompts detectionResults hiddenObjects].
    replace (currentImageIndex st - 1 + 1)%Z with (currentImageIndex st) by lia.
    by destruct st.
  - intros Hmove%nextImage_moves. specialize (Hlow Hmove). unfold nextImage.
    destruct (Z.ltb_spec (currentImageIndex st) (Z.of_nat (length (images st)) - 1));
      [|lia].
    unfold currentImage, set_currentImageIndex. cbn [images currentImageIndex].
    destruct (Z.leb_spec 0 (currentImageIndex st + 1)); [|lia].
    destruct (Z.ltb_spec (currentImageIndex st + 1) (Z.of_nat (length (images st))));
      [|lia].
    simpl. f_equal. lia.
Qed.

Lemma next_prev_inverse_witness :
  prevImage (nextImage (goToImage 0 two_images)) = goToImage 0 two_images
  /\ nextImage (prevImage two_images) = two_images.
Proof.
  split.
  - apply (next_prev_inverse (goToImage 0 two_images)); [right; simpl; lia|].
    intros Heq. apply (f_equal currentImageIndex) in Heq. discriminate Heq.
  - apply (next_prev_inverse two_images); [right; simpl; lia|].
    intros Heq. apply (f_equal currentImageIndex) in Heq. discriminate Heq.
Defined.

(** ** Removing an image *)

Lemma currentImage_lookup (st : State) :
  (0 <= currentImageIndex st < Z.of_nat (length (images st)))%Z ->
  currentImage st = images st !! Z.to_nat (currentImageIndex st).
Proof.
  intros H. unfold currentImage.
  destruct (Z.leb_spec 0 (currentImageIndex st)); [|lia].
  destruct (Z.ltb_spec (currentImageIndex st) (Z.of_nat (length (images st)))); [|lia].
  done.
Qed.

Lemma currentImage_none (st : State) :
  ~ (0 <= currentImageIndex st < Z.of_nat (length (images st)))%Z ->
  currentImage st = None.
Proof.
  intros H. unfold currentImage.
  destruct (Z.leb_spec 0 (currentImageIndex st));
    destruct (Z.ltb_spec (currentImageIndex st) (Z.of_nat (length (images st))));
    try done. lia.
Qed.

Lemma filter_other_ids (l : list Image) (i : nat) (img : Image) :
  NoDup (List.map img_id l) -> l !! i = Some img ->
  List.filter (fun x => negb (String.eqb (img_id x) (img_id img))) l
  = take i l ++ drop (S i) l.
Proof.
  revert i. induction l as [|x l IH]; intros i Hnd Hi; [done|].
  simpl in Hnd. apply NoDup_cons in Hnd as [Hx Hnd].
  destruct i as [|i]; simpl in Hi.
  - injection Hi as ->. simpl. rewrite String.eqb_refl. simpl.
    rewrite drop_0. clear IH.
    induction l as [|y l IH]; [done|]. simpl in *.
    apply not_elem_of_cons in Hx as [Hne Hx]. apply NoDup_cons in Hnd as [_ Hnd].
    destruct (String.eqb_spec (img_id y) (img_id img)) as [Heq|_]; [congruence|].
    simpl. f_equal. by apply IH.
  - simpl. destruct (String.eqb_spec (img_id x) (img_id img)) as [Heq|_].
    + exfalso. apply Hx. rewrite Heq. change (List.map img_id l) with (img_id <$> l).
      apply list_elem_of_fmap_2. by eapply list_elem_of_lookup_2.
    + simpl. f_equal. by apply IH.
Qed.

(** X3. Deleting the current image, when the image ids are distinct:
    exactly that image is removed, its results and hidden list are
    deleted and those of the other ids are kept, and the view moves to
    the image that followed it, or to the one before it when it was the
    last, or to none when it was the only one. *)
Theorem delete_current_image (st : State) (img : Image) :
  currentImage st = Some img ->
  NoDup (List.map img_id (images st)) ->
  let i := Z.to_nat (currentImageIndex st) in
  let st' := removeImage (img_id img) st in
  images st' = take i (images st) ++ drop (S i) (images st)
  /\ currentImage st'
     = (if decide (S i < length (images st))%nat then images st !! S i
        else if decide (0 < i)%nat then images st !! (i - 1)%nat
        else None)
  /\ detectionResults st' !! img_id img = None
  /\ hiddenObjects st' !! img_id img = None
  /\ (forall id, id ≠ img_id img ->
        detectionResults st' !! id = detectionResults st !! id
        /\ hiddenObjects st' !! id = hiddenObjects st !! id).
Proof.
  intros Hcur Hnd i st'.
  assert (Hrange : (0 <= currentImageIndex st < Z.of_nat (length (images st)))%Z
                   /\ images st !! i = Some img).
  { unfold currentImage in Hcur.
    destruct (Z.leb_spec 0 (currentImageIndex st));
      destruct (Z.ltb_spec (currentImageIndex st) (Z.of_nat (length (images st))));
      simpl in Hcur; try discriminate. split; [lia|exact Hcur]. }
  destruct Hrange as [Hrange Hi].
  assert (Himgs : images st' = take i (images st) ++ drop (S i) (images st)).
  { unfold st', removeImage. cbn [images]. by apply filter_other_ids. }
  assert (Hlen : S (length (images st')) = length (images st)).
  { rewrite Himgs, length_app, length_take, length_drop. lia. }
  split; [exact Himgs|]. split; [|split; [|split]].
  - assert (Hidx : currentImageIndex st'
                   = if (Z.of_nat (length (images st')) <=? currentImageIndex st)%Z
                     then (Z.of_nat (length (images st')) - 1)%Z
                     else currentImageIndex st) by reflexivity.
    clearbody st'.
    destruct (Z.leb_spec (Z.of_nat (length (images st'))) (currentImageIndex st)).
    + (* the last image was deleted *)
      destruct (decide (S i < length (images st))%nat); [lia|].
      destruct (decide (0 < i)%nat).
      * rewrite currentImage_lookup by lia. rewrite Hidx.
        replace (Z.to_nat (Z.of_nat (length (images st')) - 1)) with (i - 1)%nat by lia.
        rewrite Himgs, lookup_app_l by (rewrite length_take; lia).
        apply lookup_take_lt. lia.
      * apply currentImage_none. lia.
    + destruct (decide (S i < length (images st))%nat); [|lia].
      rewrite currentImage_lookup by lia. rewrite Hidx. fold i.
      rewrite Himgs, lookup_app_r by (rewrite length_take; lia).
      rewrite length_take, lookup_drop. f_equal. lia.
  - apply lookup_delete_eq.
  - apply lookup_delete_eq.
  - intros id Hid. unfold st', removeImage. cbn [detectionResults hiddenObjects].
    by rewrite !lookup_delete_ne.
Qed.

Lemma delete_current_image_witness :
  images (removeImage "img2" two_images) = [mkImage "img1" "a.png" 200%float 100%float]
  /\ currentImage (removeImage "img2" two_images)
     = Some (mkImage "img1" "a.png" 200%float 100%float).
Proof.
  assert (Hnd : NoDup (List.map img_id (images two_images))).
  { simpl. apply NoDup_cons. split; [|apply NoDup_singleton].
    intros Hin%list_elem_of_singleton. discriminate Hin. }
  destruct (delete_current_image two_images (mkImage "img2" "b.png" 0%float 0%float)
              eq_refl Hnd) as (Himgs & Hcur & _).
  split; [exact Himgs|exact Hcur].
Defined.

(** ** Image dimensions *)

(** X4. [updateImageDimensions] does nothing when the width or the height
    is zero or NaN; otherwise it gives the dimensions to every image with
    the id, in place: the other images, the ids, the names, the order and
    the current index are unchanged, and doing it again changes nothing. *)
Theorem updateImageDimensions_in_place (id : string) (w h : float) (st : State) :
  let st' := updateImageDimensions id w h st in
  (falsy w || falsy h = true -> st' = st)
  /\ (falsy w || falsy h = false ->
      (forall i img, images st !! i = Some img ->
         images st' !! i
         = Some (if decide (img_id img = id) then mkImage id (img_name img) w h else img))
      /\ length (images st') = length (images st)
      /\ List.map img_id (images st') = List.map img_id (images st)
      /\ List.map img_name (images st') = List.map img_name (images st)
      /\ currentImageIndex st' = currentImageIndex st
      /\ updateImageDimensions id w h st' = st').
Proof.
  intros st'. subst st'. unfold updateImageDimensions.
  destruct (falsy w || falsy h) eqn:Hf; (split; [done|]); [done|]. intros _.
  cbn [images currentImageIndex detectionMode imagePrompts detectionResults hiddenObjects].
  split; [|split; [|split; [|split; [|split]]]].
  - intros i img Hi. change (List.map ?f ?l) with (f <$> l).
    rewrite list_lookup_fmap, Hi. simpl.
    destruct (String.eqb_spec (img_id img) id) as [Heq|Hne].
    + rewrite decide_True by done. by rewrite Heq.
    + by rewrite decide_False.
  - apply length_map.
  - rewrite List.map_map. apply List.map_ext. intros img.
    by destruct (String.eqb (img_id img) id).
  - rewrite List.map_map. apply List.map_ext. intros img.
    by destruct (String.eqb (img_id img) id).
  - done.
  - f_equal. rewrite List.map_map. apply List.map_ext. intros img.
    destruct (String.eqb_spec (img_id img) id) as [Heq|Hne]; simpl.
    + by rewrite Heq, String.eqb_refl.
    + apply String.eqb_neq in Hne. by rewrite Hne.
Qed.

Lemma updateImageDimensions_in_place_witness :
  updateImageDimensions "img2" 0 480 two_images = two_images
  /\ images (updateImageDimensions "img2" 640 480 two_images) !! 1%nat
     = Some (mkImage "img2" "b.png" 640 480).
Proof.
  split.
  - exact (proj1 (updateImageDimensions_in_place "img2" 0 480 two_images) eq_refl).
  - exact (proj1 (proj2 (updateImageDimensions_in_place "img2" 640 480 two_images) eq_refl)
             1%nat (mkImage "img2" "b.png" 0 0) eq_refl).
Defined.

(** ** Visibility *)

Lemma currentHidden_toggle (st : State) (img : Image) (i : Z) :
  currentImage st = Some img ->
  currentHiddenObjects (toggleObjectVisibility i st)
  = if Js.includes (currentHiddenObjects st) i
    then Js.filter_ne (currentHiddenObjects st) i
    else currentHiddenObjects st ++ [i].
Proof.
  intros Hcur. unfold toggleObjectVisibility, currentHiddenObjects. rewrite Hcur.
  unfold set_hiddenObjects, currentImage in *. cbn [images currentImageIndex hiddenObjects].
  rewrite Hcur. by rewrite lookup_insert_eq.
Qed.

(** X5. Toggling the visibility of object [i] of the current image flips
    whether [i] is hidden and leaves every other index as it was, so that
    toggling twice restores the visibility of every object; the results
    and the hidden lists of the other images are not touched. *)
Theorem toggle_flips_one (st : State) (img : Image) (i : Z) :
  currentImage st = Some img ->
  let st1 := toggleObjectVisibility i st in
  (forall j, hidden_now st1 j
             = if (j =? i)%Z then negb (hidden_now st j) else hidden_now st j)
  /\ (forall j, hidden_now (toggleObjectVisibility i st1) j = hidden_now st j)
  /\ detectionResults st1 = detectionResults st
  /\ (forall id, id ≠ img_id img -> hiddenObjects st1 !! id = hiddenObjects st !! id).
Proof.
  intros Hcur st1.
  assert (Hflip : forall st, currentImage st = Some img ->
            forall j, hidden_now (toggleObjectVisibility i st) j
                      = if (j =? i)%Z then negb (hidden_now st j) else hidden_now st j).
  { clear st Hcur st1. intros st Hcur j. unfold hidden_now.
    rewrite (currentHidden_toggle _ _ _ Hcur).
    destruct (Js.includes (currentHiddenObjects st) i) eqn:Hi.
    - destruct (Z.eqb_spec j i) as [->|Hne].
      + rewrite Hi. simpl. apply includes_false. rewrite filter_ne_spec. tauto.
      + destruct (Js.includes (currentHiddenObjects st) j) eqn:Hj.
        * apply includes_spec. apply filter_ne_spec. by apply includes_spec in Hj.
        * apply includes_false. rewrite filter_ne_spec. apply includes_false in Hj. tauto.
    - destruct (Z.eqb_spec j i) as [->|Hne].
      + rewrite Hi. simpl. apply includes_spec. apply elem_of_app. right.
        by apply list_elem_of_singleton.
      + destruct (Js.includes (currentHiddenObjects st) j) eqn:Hj.
        * apply includes_spec. apply elem_of_app. left. by apply includes_spec.
        * apply includes_false. rewrite elem_of_app, list_elem_of_singleton.
          apply includes_false in Hj. tauto. }
  assert (Hcur1 : currentImage st1 = Some img).
  { unfold st1, toggleObjectVisibility. rewrite Hcur. exact Hcur. }
  split; [by apply Hflip|]. split; [|split].
  - intros j. rewrite (Hflip st1 Hcur1), (Hflip st Hcur).
    destruct (j =? i)%Z; [apply negb_involutive|done].
  - unfold st1, toggleObjectVisibility. by rewrite Hcur.
  - intros id Hid. unfold st1, toggleObjectVisibility. rewrite Hcur.
    cbn [set_hiddenObjects hiddenObjects]. by rewrite lookup_insert_ne.
Qed.

Lemma toggle_flips_one_witness :
  hidden_now (toggleObjectVisibility 2 three_objects) 2 = false
  /\ hidden_now (toggleObjectVisibility 2 (toggleObjectVisibility 2 three_objects)) 2 = true.
Proof.
  destruct (toggle_flips_one three_objects (mkImage "img1" "a.png" 200%float 100%float) 2
              eq_refl) as (H1 & H2 & _).
  split; [exact (H1 2%Z)|exact (H2 2%Z)].
Defined.

(** ** Edits of the object list *)

(** X6. [updateObjectClass(i, c)] on an existing object changes its class
    id and nothing else, when the JSON copy that the update takes of the
    result map changes nothing (every stored number is finite and not
    [-0]): its box, mask and confidence, the other objects,
    the class names, the other images and the hidden lists stay; for an
    index outside the list the state is unchanged. *)
Theorem updateObjectClass_frame (st : State) (img : Image) (r : Results) (i c : Z) :
  json_stable (detectionResults st) ->
  currentImage st = Some img ->
  detectionResults st !! img_id img = Some r ->
  let st' := updateObjectClass i c st in
  (forall o, Js.at_ (objects r) i = Some o ->
     exists r',
       detectionResults st' !! img_id img = Some r'
       /\ Js.at_ (objects r') i = Some (mkObject c (bbox o) (mask o) (confidence o))
       /\ (forall j, j ≠ i -> Js.at_ (objects r') j = Js.at_ (objects r) j)
       /\ length (objects r') = length (objects r)
       /\ classes r' = classes r
       /\ (forall id, id ≠ img_id img -> detectionResults st' !! id = detectionResults st !! id)
       /\ hiddenObjects st' = hiddenObjects st)
  /\ ((i < 0 \/ Z.of_nat (length (objects r)) <= i)%Z -> st' = st).
Proof.
  intros Hst Himg Hr st'. subst st'. unfold updateObjectClass. rewrite Himg.
  unfold json_stable in Hst.
  unfold set_detectionResults. cbn [detectionResults hiddenObjects images
    currentImageIndex detectionMode imagePrompts]. rewrite !Hst, Hr. cbn [mbind option_bind].
  split.
  - intros o Ho. rewrite Ho.
    cbn [detectionResults hiddenObjects images currentImageIndex detectionMode imagePrompts].
    pose proof (at_Some_range _ _ _ Ho) as Hrange.
    eexists. split; [by rewrite lookup_alter_eq, Hr|]. simpl.
    split; [|split; [|split; [|split; [|split]]]].
    + unfold Js.at_ in *. destruct (Z.ltb_spec i 0); [lia|].
      rewrite list_lookup_insert_eq by lia. done.
    + intros j Hj. unfold Js.at_. destruct (Z.ltb_spec j 0); [done|].
      apply list_lookup_insert_ne. lia.
    + apply length_insert.
    + done.
    + intros id Hid. by rewrite lookup_alter_ne.
    + done.
  - intros Hout. apply at_None_range in Hout. rewrite Hout.
    by destruct st.
Qed.

Lemma updateObjectClass_frame_witness :
  exists r',
    detectionResults (updateObjectClass 1 0 three_objects) !! "img1" = Some r'
    /\ Js.at_ (objects r') 1 = Some (mkObject 0 (bbox obj_b) (mask obj_b) (confidence obj_b))
    /\ length (objects r') = 3%nat.
Proof.
  destruct (proj1 (updateObjectClass_frame three_objects
                     (mkImage "img1" "a.png" 200%float 100%float)
                     (mkResults [obj_a; obj_b; obj_c] ["person"; "car"]) 1 0
                     eq_refl eq_refl eq_refl) obj_b eq_refl)
    as (r' & H1 & H2 & _ & H4 & _).
  exists r'. split; [exact H1|]. split; [exact H2|exact H4].
Defined.

Lemma splice1_last {A} (a : list A) (x : A) :
  Js.splice1 (a ++ [x]) (Z.of_nat (length a)) = a.
Proof.
  rewrite splice1_in_range by (rewrite length_app; cbn [length]; lia).
  rewrite Nat2Z.id, take_app_length.
  rewrite drop_app_ge by lia.
  replace (S (length a) - length a)%nat with 1%nat by lia.
  by rewrite app_nil_r.
Qed.

(** X7. Adding a box and removing it again: when the current image has
    results with [n] objects, index [n] is not in the hidden list, and
    the JSON copy of the stored results changes nothing (every stored
    number is finite and not [-0]),
    [addBboxToResults] followed by [removeBboxFromResults(n)] gives the
    state back; the added object had index [n], class, box and mask as
    given and confidence 1, and the objects before it kept their
    indices. *)
Theorem add_then_remove_bbox (st : State) (img : Image) (r : Results)
    (b : list float) (c : Z) (m : option (list (float * float))) :
  json_stable (detectionResults st) ->
  currentImage st = Some img ->
  detectionResults st !! img_id img = Some r ->
  let n := Z.of_nat (length (objects r)) in
  hidden_now st n = false ->
  let st1 := addBboxToResults b c m st in
  (exists r1, currentResults st1 = Some r1
     /\ Js.at_ (objects r1) n = Some (mkObject c b m 1%float)
     /\ (forall j, j ≠ n -> Js.at_ (objects r1) j = Js.at_ (objects r) j)
     /\ classes r1 = classes r)
  /\ hiddenObjects st1 = hiddenObjects st
  /\ removeBboxFromResults n st1 = st.
Proof.
  intros Hst Hcur Hr n Hvis st1.
  assert (Hcr : clone r = r).
  { pose proof (clone_lookup (detectionResults st) (img_id img)) as Hl.
    unfold json_stable in Hst. rewrite Hst, Hr in Hl. by injection Hl. }
  assert (Hdr : detectionResults st1
                = <[img_id img := mkResults (objects r ++ [mkObject c b m 1%float]) (classes r)]>
                    (detectionResults st)) by (by apply addBbox_existing).
  assert (Hrest : images st1 = images st /\ currentImageIndex st1 = currentImageIndex st
                  /\ hiddenObjects st1 = hiddenObjects st
                  /\ detectionMode st1 = detectionMode st
                  /\ imagePrompts st1 = imagePrompts st).
  { unfold st1, addBboxToResults. by rewrite Hcur. }
  destruct Hrest as (Himgs & Hidx & Hhid & Hmode & Hprompts).
  assert (Hcur1 : currentImage st1 = Some img).
  { unfold currentImage in *. by rewrite Himgs, Hidx. }
  split; [|split; [exact Hhid|]].
  - eexists. split; [|split; [|split]].
    + apply (currentResults_Some _ _ _ Hcur1). rewrite Hdr. apply lookup_insert_eq.
    + cbn [objects]. unfold n. rewrite at_nat. apply list_lookup_middle. done.
    + intros j Hj. cbn [objects]. unfold Js.at_.
      destruct (Z.ltb_spec j 0); [done|].
      destruct (decide (Z.to_nat j < length (objects r))%nat).
      * by apply lookup_app_l.
      * rewrite (lookup_ge_None_2 (objects r)) by lia.
        apply lookup_ge_None_2. rewrite length_app. simpl. unfold n in Hj. lia.
    + done.
  - unfold removeBboxFromResults. rewrite Hcur1.
    unfold set_hiddenObjects, set_detectionResults.
    cbn [images currentImageIndex detectionMode imagePrompts detectionResults hiddenObjects].
    rewrite Hhid, Hdr.
    assert (Hcl : clone (<[img_id img := mkResults (objects r ++ [mkObject c b m 1%float])
                                                   (classes r)]> (detectionResults st))
                  = <[img_id img := mkResults (objects r ++ [clone (mkObject c b m 1%float)])
                                              (classes r)]> (detectionResults st)).
    { rewrite clone_insert, Hst, clone_Results_eq. cbn [objects classes].
      rewrite clone_app. change (clone (objects r)) with (objects (clone r)).
      by rewrite Hcr. }
    rewrite !Hcl, lookup_insert_eq.
    unfold hidden_now, currentHiddenObjects in Hvis. rewrite Hcur in Hvis.
    rewrite Hvis. cbn [negb]. cbn [objects classes set_objects].
    unfold n. rewrite splice1_last, insert_insert_eq.
    rewrite insert_id by (rewrite Hr; by destruct r).
    rewrite Himgs, Hidx, Hmode, Hprompts. by destruct st.
Qed.

Lemma add_then_remove_bbox_witness :
  removeBboxFromResults 3 (addBboxToResults [0; 0; 1; 1]%float 1 None
                             (toggleObjectVisibility 2 three_objects))
  = toggleObjectVisibility 2 three_objects.
Proof.
  apply (add_then_remove_bbox (toggleObjectVisibility 2 three_objects)
           (mkImage "img1" "a.png" 200%float 100%float)
           (mkResults [obj_a; obj_b; obj_c] ["person"; "car"])
           [0; 0; 1; 1]%float 1 None eq_refl eq_refl eq_refl eq_refl).
Defined.

(** X8. Removing a hidden object: the objects after it move down by one
    index, and so does the hidden list, so that every remaining object is
    hidden after the removal exactly when it was hidden before.  (The
    objects are read after the JSON copy of the removal, which is taken
    to change nothing: every stored number is finite and not [-0].) *)
Theorem remove_hidden_keeps_visibility (st : State) (img : Image) (r : Results) (k : Z) :
  json_stable (detectionResults st) ->
  currentImage st = Some img ->
  detectionResults st !! img_id img = Some r ->
  (0 <= k < Z.of_nat (length (objects r)))%Z ->
  hidden_now st k = true ->
  let st' := removeBboxFromResults k st in
  exists r',
    currentResults st' = Some r'
    /\ classes r' = classes r
    /\ S (length (objects r')) = length (objects r)
    /\ (forall j, Js.at_ (objects r') j
                  = if (j <? k)%Z then Js.at_ (objects r) j else Js.at_ (objects r) (j + 1))
    /\ (forall j, hidden_now st' j
                  = if (j <? k)%Z then hidden_now st j else hidden_now st (j + 1)).
Proof.
  intros Hst Hcur Hr Hk Hhid st'.
  assert (Hcur' : currentImage st' = Some img).
  { unfold st', removeBboxFromResults. rewrite Hcur. exact Hcur. }
  exists (mkResults (Js.splice1 (objects r) k) (classes r)).
  split; [|split; [done|split; [|split]]].
  - apply (currentResults_Some _ _ _ Hcur'). by apply removeBbox_objects.
  - by apply splice1_length.
  - intros j. by apply splice1_lookup.
  - intros j. unfold hidden_now in *. unfold currentHiddenObjects in *.
    rewrite Hcur in *. rewrite Hcur'.
    destruct (removeBbox_hidden_of_hidden st img k Hcur Hhid) as (hidden' & Hh' & Hren).
    fold st' in Hh'. rewrite Hh'. cbn [default].
    specialize (Hren j).
    set (hidden := default [] (hiddenObjects st !! img_id img)) in *.
    destruct (Z.ltb_spec j k).
    + destruct (Js.includes hidden j) eqn:Hj.
      * apply includes_spec, Hren. left. split; [done|]. by apply includes_spec.
      * apply includes_false. intros Hin. apply Hren in Hin as [[_ Hin]|[? _]]; [|lia].
        by apply includes_false in Hj.
    + destruct (Js.includes hidden (j + 1)) eqn:Hj.
      * apply includes_spec, Hren. right. split; [done|]. by apply includes_spec.
      * apply includes_false. intros Hin. apply Hren in Hin as [[? _]|[_ Hin]]; [lia|].
        by apply includes_false in Hj.
Qed.

Lemma remove_hidden_keeps_visibility_witness :
  exists r',
    currentResults (removeBboxFromResults 1 (toggleObjectVisibility 1 three_objects)) = Some r'
    /\ Js.at_ (objects r') 1 = Some obj_c
    /\ hidden_now (removeBboxFromResults 1 (toggleObjectVisibility 1 three_objects)) 1 = true.
Proof.
  destruct (remove_hidden_keeps_visibility (toggleObjectVisibility 1 three_objects)
              (mkImage "img1" "a.png" 200%float 100%float)
              (mkResults [obj_a; obj_b; obj_c] ["person"; "car"]) 1
              eq_refl eq_refl eq_refl ltac:(simpl; lia) eq_refl)
    as (r' & H1 & _ & _ & H4 & H5).
  exists r'. split; [exact H1|]. split; [exact (H4 1%Z)|exact (H5 1%Z)].
Defined.

(** ** Text prompts *)

Lemma removeTextPrompt_from (p : list string) (s : nat) (idx : Z) :
  List.map snd
    (List.filter (fun ip => negb (Z.of_nat (fst ip) =? idx)%Z) (combine (seq s (length p)) p))
  = if decide (Z.of_nat s <= idx < Z.of_nat (s + length p))%Z
    then take (Z.to_nat idx - s) p ++ drop (S (Z.to_nat idx - s)) p
    else p.
Proof.
  revert s. induction p as [|x p IH]; intros s.
  - simpl. destruct (decide _); [lia|done].
  - cbn [length seq combine List.filter fst].
    destruct (Z.eqb_spec (Z.of_nat s) idx) as [Heq|Hne]; cbn [negb].
    + rewrite IH.
      rewrite decide_False by lia. rewrite decide_True by (cbn [length]; lia).
      replace (Z.to_nat idx - s)%nat with 0%nat by lia. done.
    + cbn [List.map snd]. rewrite IH.
      destruct (decide (Z.of_nat (S s) <= idx < Z.of_nat (S s + length p))%Z).
      * rewrite decide_True by (cbn [length]; lia).
        replace (Z.to_nat idx - s)%nat with (S (Z.to_nat idx - S s)) by lia. done.
      * rewrite decide_False by (cbn [length]; lia). done.
Qed.

(** X9. [removeTextPrompt(idx)] removes exactly the prompt at index [idx]
    and keeps the others in order; an index that is negative or not below
    the length removes nothing; and removing the index at which
    [addTextPrompt] put a prompt gives the list back. *)
Theorem removeTextPrompt_at (p : list string) (idx : Z) :
  ((0 <= idx < Z.of_nat (length p))%Z ->
     removeTextPrompt idx p = take (Z.to_nat idx) p ++ drop (S (Z.to_nat idx)) p)
  /\ ((idx < 0 \/ Z.of_nat (length p) <= idx)%Z -> removeTextPrompt idx p = p)
  /\ (forall x, removeTextPrompt (Z.of_nat (length p)) (addTextPrompt x p) = p).
Proof.
  unfold removeTextPrompt. split; [|split].
  - intros H. rewrite removeTextPrompt_from, decide_True by lia.
    by rewrite Nat.sub_0_r.
  - intros H. rewrite removeTextPrompt_from, decide_False by lia. done.
  - intros x. unfold addTextPrompt.
    rewrite removeTextPrompt_from, decide_True by (rewrite length_app; cbn [length]; lia).
    rewrite Nat.sub_0_r, Nat2Z.id, take_app_length.
    rewrite drop_app_ge by lia.
    replace (S (length p) - length p)%nat with 1%nat by lia.
    by rewrite app_nil_r.
Qed.

Lemma removeTextPrompt_at_witness :
  removeTextPrompt 1 ["person"; "car"; "dog"]%string = ["person"; "dog"]%string
  /\ removeTextPrompt 3 ["person"; "car"; "dog"]%string = ["person"; "car"; "dog"]%string.
Proof.
  split.
  - exact (proj1 (removeTextPrompt_at ["person"; "car"; "dog"]%string 1)
             ltac:(simpl; lia)).
  - exact (proj1 (proj2 (removeTextPrompt_at ["person"; "car"; "dog"]%string 3))
             ltac:(simpl; lia)).
Defined.

End StoreOperations.

(** * The canvas: gestures, prompts and edits through the handlers *)

Section CanvasOperations.
Import AppContext Canvas.

(** ** Gestures *)

Lemma step_gesture (e : Event) (w : World) :
  drawing (ui (step e w)) = drawing (ui (handle e w))
  /\ currentBox (ui (step e w)) = currentBox (ui (handle e w)).
Proof.
  unfold step. destruct (hiddenSelectionEffect_gesture (handle e w)) as (H1 & H2 & _).
  by split.
Qed.

Lemma idle_pointer_or_mode (e : Event) (w : World) :
  pointer_or_mode e -> gesture_idle w ->
  app (step e w) = app w /\ gesture_idle (step e w).
Proof.
  intros He [Hd Hb]. unfold gesture_idle.
  destruct (step_gesture e w) as [-> ->]. rewrite step_app.
  destruct He as [p mv| |m]; cbn [handle].
  - unfold handleMouseMove. rewrite Hd. cbn [andb].
    by destruct (isDragging (ui w) && bool_decide (editMode (ui w) = PAN)).
  - unfold handleMouseUp. rewrite Hd.
    by destruct (isDragging (ui w) && bool_decide (editMode (ui w) = PAN)).
  - done.
Qed.

Lemma idle_run (es : list Event) (w : World) :
  Forall pointer_or_mode es -> gesture_idle w ->
  app (run es w) = app w /\ gesture_idle (run es w).
Proof.
  intros Hes. revert w. induction Hes as [|e es He Hes IH]; intros w Hidle; [done|].
  cbn [run fold_left]. destruct (idle_pointer_or_mode e w He Hidle) as [Happ Hidle'].
  destruct (IH (step e w) Hidle') as [IH1 IH2].
  split; [by rewrite <- Happ|done].
Qed.

(** X10. Escape cancels a draw gesture: after the Escape key nothing is
    selected and no box is being drawn, and whatever pointer moves,
    pointer releases and mode switches follow, nothing is committed to
    the results or to the prompts and no box is being drawn. *)
Theorem escape_cancels_gesture (w : World) (es : list Event) :
  Forall pointer_or_mode es ->
  selectedObjectIndex (ui (step EKeyEscape w)) = None
  /\ app (run (EKeyEscape :: es) w) = app w
  /\ gesture_idle (run (EKeyEscape :: es) w).
Proof.
  intros Hes.
  assert (Hesc : app (step EKeyEscape w) = app w /\ gesture_idle (step EKeyEscape w)).
  { unfold gesture_idle. destruct (step_gesture EKeyEscape w) as [-> ->].
    by rewrite step_app. }
  destruct Hesc as [Happ Hidle].
  split.
  - unfold step, hiddenSelectionEffect. by cbn.
  - change (run (EKeyEscape :: es) w) with (run es (step EKeyEscape w)).
    destruct (idle_run es _ Hes Hidle) as [H1 H2]. split; [by rewrite H1|done].
Qed.

Lemma escape_cancels_gesture_witness :
  app (run [EKeyEscape; EMouseMove (Some (160, 80)%float) (10, 5)%float; EMouseUp]
           results_session)
  = app results_session.
Proof.
  apply (escape_cancels_gesture results_session
           [EMouseMove (Some (160, 80)%float) (10, 5)%float; EMouseUp]).
  repeat constructor.
Defined.

Local Ltac unfold_handlers :=
  unfold handleMouseDown, handleMouseMove, handleMouseUp, handleKeyDelete,
    handleDeleteSelected, handleKeyEscape, handleBoxSelect, handleGroupDragEnd,
    handleTransformEnd, handleClassChange, setEditMode, withApp, detectionModeEffect,
    resultsEffect, setEditMode, pointerToImage, imageEffect, onResize, fitToContainer.

Lemma handle_gesture_coherent (e : Event) (w : World) :
  gesture_coherent w -> gesture_coherent (handle e w).
Proof.
  unfold gesture_coherent. intros H.
  destruct e; cbn [handle]; unfold_handlers;
    repeat case_match; cbn [ui drawing currentBox set_gesture set_selected set_isDragging
      set_stagePosition set_editMode set_image set_scale set_stageSize] in *;
    try exact H; try (split; [done|intros _; tauto]); try (split; [intros; discriminate|by intros []]).
  all: try (split; [intros; by eexists|done]).
  all: try (match goal with H : _ && _ = true |- _ => apply andb_true_iff in H as [? _] end;
            split; [intros; by eexists|done]).
  all: repeat match goal with
              | Hd : drawing _ = _ |- _ => rewrite Hd
              | Hb : currentBox _ = _ |- _ => rewrite Hb
              end; exact H.
Qed.

(** X11. In every state the canvas can reach, a candidate box is held
    exactly while a draw gesture is on: [currentBox] is set if and only
    if [drawing] is true. *)
Theorem box_held_while_drawing (w : World) :
  reachable w -> gesture_coherent w.
Proof.
  induction 1 as [|w e _ IH].
  - split; [discriminate|by intros []].
  - unfold gesture_coherent. destruct (step_gesture e w) as [-> ->].
    by apply handle_gesture_coherent.
Qed.

Lemma box_held_while_drawing_witness :
  drawing (ui text_session) = true <-> is_Some (currentBox (ui text_session)).
Proof. exact (box_held_while_drawing text_session text_session_reachable). Defined.

(** ** Image prompts *)

Local Ltac unfold_store :=
  unfold addBboxToResults, updateBboxInResults, removeBboxFromResults, updateObjectClass,
    toggleObjectVisibility, addDetectionResult, setDetectionMode, addImage, goToImage,
    removeImage, updateImageDimensions, set_detectionResults, set_hiddenObjects.

Lemma handle_prompts (e : Event) (w : World) :
  imagePrompts (app (handle e w)) = imagePrompts (app w)
  \/ exists cb imgW imgH,
       imagePrompts (app (handle e w))
       = mkPrompts (bboxes (imagePrompts (app w)) ++ [normalizeBox cb imgW imgH])
                   (cls (imagePrompts (app w)) ++ [0%Z]).
Proof.
  destruct e; cbn [handle]; unfold_handlers;
    repeat case_match; cbn [app]; unfold_store; repeat case_match;
    cbn [imagePrompts updateImagePrompts]; try (by left).
  all: right; by eexists _, _, _.
Qed.

(** X12. In every state the canvas can reach, the image prompts are
    aligned: there are as many class ids as prompt boxes, every prompt box
    has four coordinates, and every class id is 0. *)
Theorem prompts_stay_aligned (w : World) :
  reachable w -> prompts_aligned (imagePrompts (app w)).
Proof.
  induction 1 as [|w e _ (Hlen & Hfour & Hzero)].
  - split; [done|]. split; constructor.
  - rewrite step_app. destruct (handle_prompts e w) as [->|(cb & imgW & imgH & ->)];
      [done|].
    unfold prompts_aligned. cbn [bboxes cls]. split; [|split].
    + rewrite !length_app. simpl. lia.
    + apply Forall_app. split; [done|]. by repeat constructor.
    + apply Forall_app. split; [done|]. by repeat constructor.
Qed.

Lemma prompts_stay_aligned_witness :
  prompts_aligned (imagePrompts (app (step EMouseUp prompt_session))).
Proof.
  apply (prompts_stay_aligned (step EMouseUp prompt_session)).
  apply reachable_step, prompt_session_reachable.
Defined.

(** ** Panning *)

Lemma hiddenSelectionEffect_view (w : World) :
  let w' := hiddenSelectionEffect w in
  isDragging (ui w') = isDragging (ui w) /\ stagePosition (ui w') = stagePosition (ui w)
  /\ scale (ui w') = scale (ui w) /\ image (ui w') = image (ui w).
Proof.
  unfold hiddenSelectionEffect. destruct (selectedObjectIndex (ui w)); [|done].
  by destruct (Js.includes _ _).
Qed.

(** X13. In Pan mode the pointer events of the stage never edit: the
    results, the prompts and the hidden lists are unchanged, no box is
    started, and the mode stays Pan.  A press on the stage starts the
    drag, a move during the drag adds the pointer movement to the stage
    position, and a release ends the drag. *)
Theorem pan_never_edits (w : World) (e : Event) :
  editMode (ui w) = PAN -> stage_pointer e ->
  app (step e w) = app w
  /\ editMode (ui (step e w)) = PAN
  /\ drawing (ui (step e w)) = drawing (ui w)
  /\ currentBox (ui (step e w)) = currentBox (ui w)
  /\ match e with
     | EMouseDown true _ => isDragging (ui (step e w)) = true
     | EMouseMove _ mv =>
         isDragging (ui w) = true ->
         stagePosition (ui (step e w))
         = ((fst (stagePosition (ui w)) + fst mv)%float,
            (snd (stagePosition (ui w)) + snd mv)%float)
     | EMouseUp => isDragging (ui (step e w)) = false
     | _ => True
     end.
Proof.
  intros Hpan He. rewrite step_app. unfold step.
  destruct (hiddenSelectionEffect_gesture (handle e w)) as (-> & -> & _ & ->).
  destruct (hiddenSelectionEffect_view (handle e w)) as (-> & -> & _).
  destruct He as [onStage p|p mv|]; cbn [handle].
  - unfold handleMouseDown. destruct onStage; [|done].
    cbn [set_selected editMode]. rewrite Hpan. done.
  - unfold handleMouseMove. rewrite Hpan. rewrite bool_decide_eq_true_2 by done.
    rewrite bool_decide_eq_false_2 by done. rewrite !andb_true_r, andb_false_r.
    destruct (isDragging (ui w)); cbn [app ui set_stagePosition editMode drawing
      currentBox stagePosition]; done.
  - unfold handleMouseUp. rewrite Hpan. rewrite bool_decide_eq_true_2 by done.
    rewrite andb_true_r.
    destruct (isDragging (ui w)) eqn:Hd; cbn [app ui set_isDragging editMode drawing
      currentBox isDragging]; [done|].
    repeat case_match; try done; congruence.
Qed.

Lemma pan_never_edits_witness :
  app (step (EMouseDown true (Some (50, 25)%float)) (step (ESetEditMode PAN) results_session))
  = app (step (ESetEditMode PAN) results_session)
  /\ isDragging (ui (step (EMouseDown true (Some (50, 25)%float))
                          (step (ESetEditMode PAN) results_session))) = true.
Proof.
  destruct (pan_never_edits (step (ESetEditMode PAN) results_session)
              (EMouseDown true (Some (50, 25)%float)) eq_refl (sp_down _ _))
    as (H1 & _ & _ & _ & H5).
  split; [exact H1|exact H5].
Defined.

(** ** Edits of an object through the handlers *)

Lemma updateBbox_stores (st : State) (img : Image) (r : Results) (i : Z)
    (b : list float) (m : option (list (float * float))) (obj : DetObject) :
  json_stable (detectionResults st) ->
  currentImage st = Some img ->
  detectionResults st !! img_id img = Some r ->
  Js.at_ (objects r) i = Some obj ->
  let st' := updateBboxInResults i b m st in
  exists r',
    currentResults st' = Some r'
    /\ Js.at_ (objects r') i = Some (stored b m obj)
    /\ (forall j, j ≠ i -> Js.at_ (objects r') j = Js.at_ (objects r) j)
    /\ length (objects r') = length (objects r)
    /\ classes r' = classes r
    /\ hiddenObjects st' = hiddenObjects st.
Proof.
  intros Hst Hcur Hr Ho st'. unfold json_stable in Hst.
  assert (Hcur' : currentImage st' = Some img).
  { unfold st', updateBboxInResults. rewrite Hcur. exact Hcur. }
  pose proof (at_Some_range _ _ _ Ho) as Hrange.
  exists (mkResults (<[Z.to_nat i := stored b m obj]> (objects r)) (classes r)).
  split; [|split; [|split; [|split; [|split]]]].
  - apply (currentResults_Some _ _ _ Hcur').
    unfold st', updateBboxInResults. rewrite Hcur.
    unfold set_detectionResults. cbn [detectionResults]. rewrite !Hst, Hr.
    cbn [mbind option_bind]. rewrite Ho. rewrite lookup_alter_eq, Hr. done.
  - cbn [objects]. unfold Js.at_. destruct (Z.ltb_spec i 0); [lia|].
    apply list_lookup_insert_eq. lia.
  - intros j Hj. cbn [objects]. unfold Js.at_. destruct (Z.ltb_spec j 0); [done|].
    apply list_lookup_insert_ne. lia.
  - apply length_insert.
  - done.
  - unfold st', updateBboxInResults. by rewrite Hcur.
Qed.

(** X14. The end of a drag and the end of a resize of object [i] of the
    loaded current image: the object is replaced by the one that
    [shiftBboxAndMask] (for the drag, by the offset of the dragged group)
    or [scaleBboxAndMask] (for the resize, by the scale factors of the
    node) computes from it, with the class id and the confidence kept; all
    other objects keep their index and content, and the class names, the
    hidden lists and the component state are unchanged.  (The stored
    results are read after the JSON copy of the update, which is taken
    to change nothing: every stored number is finite and not [-0].) *)
Theorem edit_handlers_store (w : World) (img : Image) (r : Results) (i : Z)
    (obj : DetObject) (imgW imgH : float) :
  json_stable (detectionResults (app w)) ->
  image (ui w) = Some (imgW, imgH) ->
  currentImage (app w) = Some img ->
  detectionResults (app w) !! img_id img = Some r ->
  Js.at_ (objects r) i = Some obj ->
  let edited (w' : World) (geometry : list float * option (list (float * float))) :=
    ui w' = ui w
    /\ hiddenObjects (app w') = hiddenObjects (app w)
    /\ exists r',
         currentResults (app w') = Some r'
         /\ Js.at_ (objects r') i = Some (stored geometry.1 geometry.2 obj)
         /\ (forall j, j ≠ i -> Js.at_ (objects r') j = Js.at_ (objects r) j)
         /\ length (objects r') = length (objects r)
         /\ classes r' = classes r in
  (forall dx dy, edited (handleGroupDragEnd i dx dy w) (shiftBboxAndMask obj dx dy imgW imgH))
  /\ (forall sx sy nx ny,
        edited (handleTransformEnd i sx sy nx ny w)
               (scaleBboxAndMask obj sx sy nx ny imgW imgH))
  /\ (forall dx dy, stored (shiftBboxAndMask obj dx dy imgW imgH).1
                           (shiftBboxAndMask obj dx dy imgW imgH).2 obj
                    = translate obj dx dy imgW imgH).
Proof.
  intros Hst Himg Hcur Hr Ho edited.
  assert (Hres : currentResults (app w) = Some r) by (by eapply currentResults_Some).
  split; [|split].
  - intros dx dy. unfold handleGroupDragEnd. rewrite Himg, Hres, Ho.
    destruct (shiftBboxAndMask obj dx dy imgW imgH) as [nb nm].
    destruct (updateBbox_stores (app w) img r i nb nm obj Hst Hcur Hr Ho)
      as (r' & H1 & H2 & H3 & H4 & H5 & H6).
    split; [done|]. split; [exact H6|]. by exists r'.
  - intros sx sy nx ny. unfold handleTransformEnd. rewrite Himg, Hres, Ho.
    destruct (scaleBboxAndMask obj sx sy nx ny imgW imgH) as [nb nm].
    destruct (updateBbox_stores (app w) img r i nb nm obj Hst Hcur Hr Ho)
      as (r' & H1 & H2 & H3 & H4 & H5 & H6).
    split; [done|]. split; [exact H6|]. by exists r'.
  - intros dx dy. unfold translate, stored.
    by destruct (shiftBboxAndMask obj dx dy imgW imgH) as [nb [nm|]].
Qed.

Lemma edit_handlers_store_witness :
  exists r',
    currentResults (app (handleGroupDragEnd 0 50 (-12.5) selected_session)) = Some r'
    /\ Js.at_ (objects r') 0
       = Some (mkObject 0 [0.25; -0.125; 0.75; 0.375]%float None 1%float).
Proof.
  destruct (proj1 (edit_handlers_store selected_session
                     (mkImage "img1" "a.png" 200%float 100%float)
                     (mkResults [obj_a] ["person"]) 0 obj_a 200 100
                     eq_refl eq_refl eq_refl eq_refl eq_refl) 50%float (-12.5)%float)
    as (_ & _ & r' & H1 & H2 & _).
  exists r'. split; [exact H1|exact H2].
Defined.

End CanvasOperations.

(** * The canvas: resizing and the view *)

(** ** Multiplication by one is exact *)

Section Exact.

Lemma shr_1_even (q : positive) :
  shr_1 (Build_shr_record (Zpos (xO q)) false false) = Build_shr_record (Zpos q) false false.
Proof. reflexivity. Qed.

Lemma iter_shr_1_xO (n : nat) (m : positive) :
  Nat.iter n shr_1 (Build_shr_record (Zpos (Nat.iter n xO m)) false false)
  = Build_shr_record (Zpos m) false false.
Proof.
  induction n as [|n IH]; [done|].
  change (Nat.iter (S n) shr_1 ?r) with (shr_1 (Nat.iter n shr_1 r)).
  rewrite <- iter_swap. change (Nat.iter (S n) xO m) with (xO (Nat.iter n xO m)).
  rewrite shr_1_even. apply IH.
Qed.

Lemma binary_round_aux_one (s : bool) (m : positive) (e : Z) :
  valid_binary (S754_finite s m e) = true ->
  binary_round_aux prec emax s (Zpos (m * 4503599627370496)) (e + -52) loc_Exact
  = S754_finite s m e.
Proof.
  intros Hv. pose proof (valid_finite _ _ _ Hv) as [Hcan Hmax].
  unfold binary_round_aux.
  assert (Hshift : shr_fexp prec emax (Zpos (m * 4503599627370496)) (e + -52) loc_Exact
                   = (Build_shr_record (Zpos m) false false, e)).
  { assert (Hd : Zdigits2 (Zpos (m * 4503599627370496)) = (Zpos (digits2_pos m) + 52)%Z).
    { rewrite Pos2Z.inj_mul. change (Z.pos 4503599627370496) with (2 ^ 52)%Z.
      by rewrite Zdigits2_shift by lia. }
    unfold shr_fexp. rewrite Hd, fexp64.
    replace (Z.max (Z.pos (digits2_pos m) + 52 + (e + -52) - 53) (-1074) - (e + -52))%Z
      with 52%Z by lia.
    unfold shr. rewrite iter_pos_nat. f_equal; [|lia].
    change (Pos.to_nat 52) with 52%nat. rewrite Pos.mul_comm.
    change (4503599627370496 * m)%positive with (Nat.iter 52 xO m).
    apply iter_shr_1_xO. }
  rewrite Hshift. cbn [shr_m loc_of_shr_record round_nearest_even].
  assert (Hshift2 : shr_fexp prec emax (Zpos m) e loc_Exact
                    = (Build_shr_record (Zpos m) false false, e)).
  { unfold shr_fexp. rewrite fexp64. simpl Zdigits2.
    replace (Z.max (Z.pos (digits2_pos m) + e - 53) (-1074) - e)%Z with 0%Z by lia.
    reflexivity. }
  rewrite Hshift2. cbn [shr_m].
  destruct (Z.leb_spec e (emax - prec)); [done|]. unfold emax, prec in *. lia.
Qed.

Lemma fmul_1_r (x : float) : (x * 1)%float = x.
Proof.
  apply Prim2SF_inj. rewrite mul_spec.
  change (Prim2SF 1) with (S754_finite false 4503599627370496 (-52)).
  pose proof (Prim2SF_valid x) as Hv.
  destruct (Prim2SF x) as [s|s| |s m e]; unfold SF64mul, SFmul; try done; try (by destruct s).
  replace (xorb s false) with s by (by destruct s). by apply binary_round_aux_one.
Qed.

End Exact.

(** ** Resizing by the factor one *)

Section Rescale.
Import AppContext Canvas.
Local Open Scope R_scope.

Local Ltac opaque_lra :=
  repeat match goal with x := _ |- _ => clearbody x end; lra.

(** A point taken relative to a corner [a] and put back: [a + (p - a)]. *)
Lemma point_rebase (p a : float) :
  finite p -> finite a ->
  Rabs (F2R p) <= 2 * pow2 500 -> Rabs (F2R a) <= 2 * pow2 500 ->
  within (tolerance (F2R p) (F2R a)) (a + (p - a))%float (F2R p).
Proof.
  intros Fp Fa Hp Ha.
  set (P := F2R p) in *. set (A := F2R a) in *. set (T := pow2 500) in *.
  assert (HT : 1 <= T) by apply pow2_500_ge.
  assert (H1023 : 8192 * (1024 * T * T) = pow2 1023).
  { rewrite <- pow2_1023_big, pow2_1010, pow2_510. unfold T. ring. }
  set (B := Rabs P + Rabs A + 1).
  assert (HB : 1 <= B /\ - B <= P <= B /\ - B <= A <= B /\ B <= 5 * T).
  { unfold B. unfold Rabs in *. destruct (Rcase_abs P), (Rcase_abs A); lra. }
  destruct HB as (HB1 & HBP & HBA & HBT).
  assert (Hlt : forall v, - (4 * B) <= v <= 4 * B -> Rabs v < pow2 1023).
  { intros v Hv. rewrite <- H1023. apply Rle_lt_trans with (4 * B); [apply Rabs_le; lra|]. nra. }
  assert (G1 : Rabs (P - A) < pow2 1023) by (apply Hlt; opaque_lra).
  destruct (sub_error p a Fp Fa G1) as [F1 E1]. fold P A in E1.
  pose proof (unit_bound (P - A)) as U1.
  assert (E1' : Rabs (F2R (p - a) - (P - A))
                <= / 1000000000000000 * Rabs (P - A) + / 1000000000000000) by opaque_lra.
  assert (I1 : - (2 * B) <= P - A <= 2 * B) by opaque_lra.
  apply (fun H => err_interval' _ _ _ H I1) in E1'.
  set (Q := F2R (p - a)) in *.
  assert (G2 : Rabs (A + Q) < pow2 1023) by (apply Hlt; opaque_lra).
  destruct (add_error a (p - a) Fa F1 G2) as [F2 E2]. fold Q A in E2.
  pose proof (unit_bound (A + Q)) as U2.
  assert (E2' : Rabs (F2R (a + (p - a)) - (A + Q))
                <= / 1000000000000000 * Rabs (A + Q) + / 1000000000000000) by opaque_lra.
  assert (I2 : - (2 * B) <= A + Q <= 2 * B) by opaque_lra.
  apply (fun H => err_interval' _ _ _ H I2) in E2'.
  unfold within, tolerance. fold B.
  split; [done|]. apply Rabs_le. opaque_lra.
Qed.

(** The pixel corner [x * W] of a normalized coordinate. *)
Lemma corner_bound (x W : float) :
  finite x -> 0 <= F2R x <= 1 -> image_dimension W ->
  finite (x * W) /\ Rabs (F2R (x * W)) <= 2 * pow2 500.
Proof.
  intros Fx [R0 R1] [FW [RW1 RW2]]%image_dimension_R.
  pose proof pow2_500_ge as HT. pose proof pow2_510 as H510.
  set (T := pow2 500) in *. set (T' := pow2 510) in *.
  assert (G : Rabs (F2R x) <= T') by (apply Rabs_le; opaque_lra).
  destruct (mul_W W FW RW1 RW2 x Fx G) as [Fa Ea].
  split; [done|].
  assert (I : - 1 <= F2R x <= 1) by opaque_lra.
  apply (fun H => err_interval' _ _ 1 H I) in Ea.
  set (q := F2R (x * W) / F2R W) in *.
  assert (Hq : F2R (x * W) = q * F2R W) by (unfold q; field; opaque_lra).
  rewrite Hq. clearbody q T T'.
  assert (Hq2 : - 2 <= q <= 2) by lra.
  assert (HW : 0 <= F2R W) by lra.
  pose proof (Rmult_le_compat_r (F2R W) q 2 HW (proj2 Hq2)).
  pose proof (Rmult_le_compat_r (F2R W) (- 2) q HW (proj1 Hq2)).
  apply Rabs_le. lra.
Qed.

End Rescale.

Section Resize.
Import AppContext Canvas.
Local Open Scope R_scope.

(** X15. A resize with both scale factors 1: the new box is exactly the
    box taken to pixels and normalized again, whatever the node position;
    for a normalized box in the unit square and image dimensions from [1]
    to [2^500] it is within [1e-6] of the box in each component, and every
    mask point within the bounds is put back within the tolerance of its
    distance to the pixel corner. *)
Theorem scale_one_restores (obj : DetObject) (W H ax ay : float) :
  let scaled := scaleBboxAndMask obj 1 1 ax ay W H in
  scaled.1 = normalizeBox (denormalizeBbox (bbox obj) W H) W H
  /\ (unit_box (bbox obj) -> mask_in_range obj ->
      image_dimension W -> image_dimension H ->
      Forall2 (close (/ 1000000)) scaled.1 (bbox obj)
      /\ mask_rel restored (F2R (Js.num_at (bbox obj) 0 * W))
                  (F2R (Js.num_at (bbox obj) 1 * H)) (mask obj) scaled.2).
Proof.
  intros scaled. subst scaled. unfold scaleBboxAndMask. cbn [fst snd].
  rewrite !fmul_1_r. split; [reflexivity|].
  intros Hb Hmask HW HH.
  destruct (bbox obj) as [|x1 [|y1 [|x2 [|y2 [|? ?]]]]]; try done.
  destruct Hb as [(Hx0 & Hx1 & Hx2) (Hy0 & Hy1 & Hy2)].
  unfold Js.num_at. cbn [nth].
  split.
  - destruct HW as [HW1 HW2], HH as [HH1 HH2].
    destruct (axis_roundtrip x1 x2 W Hx0 Hx1 Hx2 HW1 HW2) as (X1 & X2 & _).
    destruct (axis_roundtrip y1 y2 H Hy0 Hy1 Hy2 HH1 HH2) as (Y1 & Y2 & _).
    repeat (constructor; [assumption|]). constructor.
  - destruct HW as [HW1 HW2], HH as [HH1 HH2].
    destruct (leb_chain_finite 0 x1 x2 1 finite_zero finite_one Hx0 Hx1 Hx2) as [Fx1 Fx2].
    destruct (leb_chain_finite 0 y1 y2 1 finite_zero finite_one Hy0 Hy1 Hy2) as [Fy1 Fy2].
    assert (Rx : 0 <= F2R x1 <= 1).
    { pose proof (leb_R _ _ finite_zero Fx1 Hx0) as R0. rewrite F2R_zero in R0.
      pose proof (leb_R _ _ Fx1 Fx2 Hx1). pose proof (leb_R _ _ Fx2 finite_one Hx2) as R2.
      rewrite F2R_one in R2. lra. }
    assert (Ry : 0 <= F2R y1 <= 1).
    { pose proof (leb_R _ _ finite_zero Fy1 Hy0) as R0. rewrite F2R_zero in R0.
      pose proof (leb_R _ _ Fy1 Fy2 Hy1). pose proof (leb_R _ _ Fy2 finite_one Hy2) as R2.
      rewrite F2R_one in R2. lra. }
    destruct (corner_bound x1 W Fx1 Rx (conj HW1 HW2)) as [Fax Bax].
    destruct (corner_bound y1 H Fy1 Ry (conj HH1 HH2)) as [Fay Bay].
    unfold mask_in_range in Hmask.
    destruct (mask obj) as [m|]; cbn [mask_rel]; [|done].
    induction Hmask as [|[px py] m [[Fpx Rpx]%in_range_R [Fpy Rpy]%in_range_R] Hm IH];
      [constructor|].
    cbn [List.map]. constructor; [|exact IH]. cbn [fst snd]. rewrite !fmul_1_r.
    pose proof pow2_500_ge.
    cbn [fst snd] in *. split; apply point_rebase; try assumption; apply Rabs_le; lra.
Qed.

Lemma scale_one_restores_witness :
  Forall2 (close (/ 1000000)) (scaleBboxAndMask masked_object 1 1 0 0 200 100).1
          (bbox masked_object)
  /\ (scaleBboxAndMask masked_object 1 1 0 0 200 100).2 = mask masked_object.
Proof.
  split; [|reflexivity].
  apply (proj2 (scale_one_restores masked_object 200 100 0 0)).
  - unfold unit_box, masked_object. cbn [bbox]. repeat split; reflexivity.
  - unfold mask_in_range, masked_object, in_range. cbn [mask].
    repeat (constructor; [repeat split; reflexivity|]). constructor.
  - split; reflexivity.
  - split; reflexivity.
Defined.

End Resize.

(** ** Comparisons and [Math.min] *)

Section Compare.

(** [Math.min] on two numbers: NaN when one of them is NaN; otherwise one
    of the two, and not above either. *)
Lemma min_spec (x y : float) :
  (is_nan x || is_nan y = true -> Js.min x y = nan)
  /\ (is_nan x || is_nan y = false ->
      (Js.min x y = x \/ Js.min x y = y)
      /\ is_nan (Js.min x y) = false
      /\ (Js.min x y <=? x)%float = true
      /\ (Js.min x y <=? y)%float = true).
Proof.
  unfold Js.min. destruct (is_nan x || is_nan y) eqn:Hn; (split; [done|]); [done|].
  intros _. apply orb_false_iff in Hn as [Hx Hy].
  pose proof Hx as Hx'. pose proof Hy as Hy'. rewrite is_nan_spec in Hx', Hy'.
  assert (Hxx : (x <=? x)%float = true).
  { rewrite leb_spec. unfold SFleb. rewrite SFcompare_refl; [done|].
    intros E. by rewrite E in Hx'. }
  assert (Hyy : (y <=? y)%float = true).
  { rewrite leb_spec. unfold SFleb. rewrite SFcompare_refl; [done|].
    intros E. by rewrite E in Hy'. }
  assert (Lxy : forall c, SFcompare (Prim2SF x) (Prim2SF y) = Some c -> c ≠ Gt ->
                (x <=? y)%float = true).
  { intros c Hc Hne. rewrite leb_spec. unfold SFleb. rewrite Hc. by destruct c. }
  assert (Lyx : forall c, SFcompare (Prim2SF x) (Prim2SF y) = Some c -> c ≠ Lt ->
                (y <=? x)%float = true).
  { intros c Hc Hne. rewrite leb_spec. unfold SFleb.
    rewrite (SFcompare_swap (Prim2SF x) (Prim2SF y)), Hc. by destruct c. }
  rewrite !ltb_spec. unfold SFltb.
  rewrite (SFcompare_swap (Prim2SF x) (Prim2SF y)).
  destruct (SFcompare (Prim2SF x) (Prim2SF y)) as [[| |]|] eqn:Hc; simpl.
  - destruct (get_sign x).
    + split; [by left|]. split; [done|]. split; [done|]. by apply (Lxy Eq).
    + split; [by right|]. split; [done|]. split; [|done]. by apply (Lyx Eq).
  - split; [by left|]. split; [done|]. split; [done|]. by apply (Lxy Lt).
  - split; [by right|]. split; [done|]. split; [|done]. by apply (Lyx Gt).
  - apply SFcompare_None in Hc as [E|E]; [by rewrite E in Hx'|by rewrite E in Hy'].
Qed.

End Compare.

(** ** The fitted scale *)

Section View.
Import AppContext Canvas.

Lemma min_one (v : float) : (1 <=? v)%float = true -> Js.min v 1 = 1%float.
Proof.
  rewrite leb_spec. unfold SFleb. intros Hle.
  assert (Hv : is_nan v = false).
  { rewrite is_nan_spec. destruct (Prim2SF v); try done. }
  unfold Js.min. rewrite Hv. change (is_nan 1) with false. cbn [orb].
  rewrite !ltb_spec. unfold SFltb.
  rewrite (SFcompare_swap (Prim2SF 1) (Prim2SF v)).
  destruct (SFcompare (Prim2SF 1) (Prim2SF v)) as [[| |]|] eqn:Hc; try done; simpl.
  assert (Heq : v = 1%float).
  { apply Prim2SF_inj.
    change (Prim2SF 1) with (S754_finite false 4503599627370496 (-52)).
    apply SFcompare_Eq_finite. rewrite SFcompare_swap.
    change (S754_finite false 4503599627370496 (-52)) with (Prim2SF 1). by rewrite Hc. }
  rewrite Heq. reflexivity.
Qed.

(** X16. Reset view never edits and never magnifies: the results, the
    gesture, the selection and the mode are unchanged and the stage goes
    back to the origin; with a loaded image and a container the new scale
    is [Math.min(cW / W, cH / H, 1)], which is NaN when a ratio is NaN and
    otherwise is one of the two ratios or 1, is at most 1, and is exactly
    1 when both ratios are at least 1; without an image or a container
    the scale is kept. *)
Theorem reset_view_fits (w : World) (c : option (float * float)) :
  let w' := handleResetView c w in
  app w' = app w
  /\ stagePosition (ui w') = (0%float, 0%float)
  /\ drawing (ui w') = drawing (ui w) /\ currentBox (ui w') = currentBox (ui w)
  /\ selectedObjectIndex (ui w') = selectedObjectIndex (ui w)
  /\ editMode (ui w') = editMode (ui w)
  /\ match image (ui w), c with
     | Some (imgW, imgH), Some (cW, cH) =>
         let sX := (cW / imgW)%float in
         let sY := (cH / imgH)%float in
         let s := scale (ui w') in
         (is_nan sX || is_nan sY = true -> s = nan)
         /\ (is_nan sX || is_nan sY = false ->
             is_nan s = false
             /\ (s <=? 1)%float = true
             /\ (s = 1%float \/ s = sX \/ s = sY)
             /\ ((1 <=? sX)%float = true -> (1 <=? sY)%float = true -> s = 1%float))
     | _, _ => scale (ui w') = scale (ui w)
     end.
Proof.
  intros w'. subst w'. unfold handleResetView. cbn [set_stagePosition image].
  destruct (image (ui w)) as [[imgW imgH]|], c as [[cW cH]|]; cbn [app ui stagePosition
    drawing currentBox selectedObjectIndex editMode scale set_scale]; repeat split; try done.
  - intros Hn. unfold fitScale. rewrite (proj1 (min_spec _ _) Hn). reflexivity.
  - destruct (proj2 (min_spec (cW / imgW) (cH / imgH)) H) as (_ & Hi & _).
    unfold fitScale. apply (proj2 (min_spec _ 1)). by rewrite Hi.
  - destruct (proj2 (min_spec (cW / imgW) (cH / imgH)) H) as (_ & Hi & _).
    unfold fitScale. apply (proj2 (min_spec _ 1)). by rewrite Hi.
  - destruct (proj2 (min_spec (cW / imgW) (cH / imgH)) H) as (Hsel & Hi & _).
    unfold fitScale.
    destruct (proj2 (min_spec (Js.min (cW / imgW) (cH / imgH)) 1)) as ([E|E] & _);
      [by rewrite Hi| |by left].
    rewrite E. right. exact Hsel.
  - intros H1 H2. unfold fitScale. apply min_one.
    destruct (proj2 (min_spec (cW / imgW) (cH / imgH)) H) as ([E|E] & _); by rewrite E.
Qed.

Lemma reset_view_fits_witness :
  scale (ui (handleResetView (Some (400, 300)%float) results_session)) = 1%float
  /\ app (handleResetView (Some (400, 300)%float) results_session) = app results_session.
Proof.
  destruct (reset_view_fits results_session (Some (400, 300)%float))
    as (Happ & _ & _ & _ & _ & _ & Hs).
  split; [|exact Happ].
  exact (proj2 (proj2 (proj2 (proj2 Hs eq_refl))) eq_refl eq_refl).
Defined.

End View.

(** * The export: accounting, explicit keys and the printed numbers *)

Section ExportAccounting.
Import Conversion.

Variable float_of_str : string -> option float.

Implicit Types (ann : annotation) (m : gmap string Z) (W H : Z).



(** ** Explicit keys *)

Lemma field_keyed ann key (i : nat) (x : float) :
  ann !! key = Some (PyFloat x) ->
  field float_of_str ann key i
  = match subscript (default (PyList [PyInt 0; PyInt 0; PyInt 0; PyInt 0]) (ann !! "bbox")) i with
    | Ok _ => Ok x
    | Raise e => Raise e
    end.
Proof.
  intros Hk. unfold field. rewrite Hk.
  by destruct (subscript _ i).
Qed.

Lemma export_single ann W H m :
  (0 < W)%Z -> (0 < H)%Z ->
  convert_to_yolo_format float_of_str [ann] W H m
  = match try_body float_of_str ann W H m with
    | Ok (inl line) => (Ok line, [])
    | Ok (inr w) => (Ok EmptyString, [w])
    | Raise e => if caught e then (Ok EmptyString, [WError e ann]) else (Raise e, [])
    end.
Proof.
  intros HW HH. unfold convert_to_yolo_format.
  destruct (Z.leb_spec W 0); [lia|]. destruct (Z.leb_spec H 0); [lia|]. simpl.
  destruct (try_body float_of_str ann W H m) as [[line|w]|e]; try done.
  by destruct (caught e).
Qed.

(** X18. An annotation that gives the box by the keys [x], [y], [width]
    and [height]: the line is computed from the keys when there is no
    [bbox] entry or a [bbox] list of at least four entries, whose values
    are not used; but the [bbox] entry is indexed before the keys are
    looked up, so that with a [bbox] list of fewer than four entries, or a
    [bbox] of [None], the record is skipped with an [IndexError] or
    [TypeError] warning although the keys give the whole box. *)
Theorem explicit_keys_read_bbox_first ann (name : string) (id : Z) (x y w h : float)
    W H (fW fH : float) m :
  ann !! "category_name" = Some (PyStr name) ->
  m !! name = Some id ->
  ann !! "x" = Some (PyFloat x) -> ann !! "y" = Some (PyFloat y) ->
  ann !! "width" = Some (PyFloat w) -> ann !! "height" = Some (PyFloat h) ->
  (0 < W)%Z -> (0 < H)%Z ->
  float_of_int W = Ok fW -> float_of_int H = Ok fH ->
  let line := spec_line fW fH (mkRow id x y w h) in
  (ann !! "bbox" = None ->
     convert_to_yolo_format float_of_str [ann] W H m = (Ok line, []))
  /\ (forall l, ann !! "bbox" = Some (PyList l) -> (4 <= length l)%nat ->
        convert_to_yolo_format float_of_str [ann] W H m = (Ok line, []))
  /\ (forall l, ann !! "bbox" = Some (PyList l) -> (length l < 4)%nat ->
        convert_to_yolo_format float_of_str [ann] W H m
        = (Ok EmptyString, [WError IndexError ann]))
  /\ (ann !! "bbox" = Some PyNone ->
        convert_to_yolo_format float_of_str [ann] W H m
        = (Ok EmptyString, [WError TypeError ann])).
Proof.
  intros Hc Hid Hx Hy Hw Hh HW HH HfW HfH line.
  assert (Hline : line = yolo_line id (clamp01 ((x + w / 2) / fW))
                                   (clamp01 ((y + h / 2) / fH))
                                   (clamp01 (w / fW)) (clamp01 (h / fH))).
  { unfold line, spec_line, yolo_line.
    cbn [row_class row_x row_y row_width row_height]. by rewrite !clamp01_truncate. }
  clearbody line. subst line.
  assert (Hbody : try_body float_of_str ann W H m
                  = (x_min ← field float_of_str ann "x" 0;
                     y_min ← field float_of_str ann "y" 1;
                     width ← field float_of_str ann "width" 2;
                     height ← field float_of_str ann "height" 3;
                     Ok (inl (yolo_line id (clamp01 ((x_min + width / 2) / fW))
                                        (clamp01 ((y_min + height / 2) / fH))
                                        (clamp01 (width / fW)) (clamp01 (height / fH)))))).
  { unfold try_body. rewrite Hc. simpl. rewrite Hid.
    destruct (field float_of_str ann "x" 0) as [x0|]; [|done]. simpl.
    destruct (field float_of_str ann "y" 1) as [y0|]; [|done]. simpl.
    destruct (field float_of_str ann "width" 2) as [w0|]; [|done]. simpl.
    destruct (field float_of_str ann "height" 3) as [h0|]; [|done]. simpl.
    rewrite HfW, HfH. done. }
  rewrite (export_single ann W H m HW HH), Hbody.
  rewrite (field_keyed ann "x" 0 x Hx), (field_keyed ann "y" 1 y Hy),
    (field_keyed ann "width" 2 w Hw), (field_keyed ann "height" 3 h Hh).
  split; [|split; [|split]].
  - intros ->. done.
  - intros l -> Hl. destruct l as [|v0 [|v1 [|v2 [|v3 l]]]]; simpl in Hl; try lia. done.
  - intros l -> Hl. destruct l as [|v0 [|v1 [|v2 [|v3 l]]]]; simpl in Hl; try lia; done.
  - intros ->. done.
Qed.

End ExportAccounting.


Lemma explicit_keys_read_bbox_first_witness :
  Conversion.convert_to_yolo_format no_parse [keyed_annotation []] 200 100 class_map
  = (Conversion.Ok EmptyString,
     [Conversion.WError Conversion.IndexError (keyed_annotation [])]).
Proof.
  apply (proj1 (proj2 (proj2
           (explicit_keys_read_bbox_first no_parse (keyed_annotation []) "person" 0 0 0 100 50
              200 100 200 100 class_map eq_refl eq_refl eq_refl eq_refl eq_refl eq_refl
              eq_refl eq_refl eq_refl eq_refl))) []); [reflexivity|simpl; lia].
Defined.

(** A record of an unknown class between two good ones. *)
Lemma export_skips_record_witness :
  (Conversion.convert_to_yolo_format no_parse
     ([good_annotation] ++ unknown_annotation :: [good_annotation]) 200 100 class_map).1
  = (Conversion.convert_to_yolo_format no_parse
       ([good_annotation] ++ [good_annotation]) 200 100 class_map).1
  /\ exists w,
       w ∈ (Conversion.convert_to_yolo_format no_parse
              ([good_annotation] ++ unknown_annotation :: [good_annotation])
              200 100 class_map).2.
Proof.
  apply (export_skips_record no_parse [good_annotation] [good_annotation]
           unknown_annotation 200 100 class_map); [lia|lia| |].
  - left. eexists. vm_compute. reflexivity.
  - intros a Ha%list_elem_of_singleton e He. subst a. vm_compute in He. discriminate He.
Defined.

(** * The JSON copy and the items of a string *)

Section JsonCopy.
Import AppContext.

#[local] Instance float_idem : CloneIdem float.
Proof.
  intros x. unfold clone, clone_float.
  destruct (is_nan x || is_infinity x) eqn:E1.
  - assert (Hx : Js.to_number (Js.json_number x) = 0%float)
      by (unfold Js.json_number; by rewrite E1).
    rewrite !Hx. reflexivity.
  - destruct (is_zero x) eqn:E2.
    + assert (Hx : Js.to_number (Js.json_number x) = 0%float)
        by (unfold Js.json_number; by rewrite E1, E2).
      rewrite !Hx. reflexivity.
    + assert (Hx : Js.to_number (Js.json_number x) = x)
        by (unfold Js.json_number; by rewrite E1, E2).
      by rewrite !Hx.
Qed.

#[local] Instance Z_idem : CloneIdem Z.
Proof. done. Qed.

#[local] Instance string_idem : CloneIdem string.
Proof. done. Qed.

#[local] Instance list_idem {A} `{CloneIdem A} : CloneIdem (list A).
Proof.
  intros l. unfold clone, clone_list. rewrite map_map.
  apply map_ext. intros v. apply clone_idem.
Qed.

#[local] Instance option_idem {A} `{CloneIdem A} : CloneIdem (option A).
Proof.
  intros [v|]; [|done]. unfold clone, clone_option. f_equal. apply clone_idem.
Qed.

#[local] Instance pair_idem {A B} `{CloneIdem A} `{CloneIdem B} : CloneIdem (A * B).
Proof.
  intros [a b]. unfold clone, clone_pair. cbn [fst snd]. f_equal; apply clone_idem.
Qed.

#[local] Instance DetObject_idem : CloneIdem DetObject.
Proof.
  intros o. unfold clone, clone_DetObject.
  cbn [class_id bbox mask confidence]. f_equal; apply clone_idem.
Qed.

#[local] Instance Results_idem : CloneIdem Results.
Proof.
  intros r. unfold clone, clone_Results.
  cbn [objects classes]. f_equal; apply clone_idem.
Qed.

#[local] Instance map_idem {A} `{CloneIdem A} : CloneIdem (gmap string A).
Proof.
  intros m. unfold clone, clone_map. rewrite <- map_fmap_compose.
  apply map_fmap_ext. intros k v _. apply clone_idem.
Qed.

(** X19. The JSON copy is a projection: the copy of a result map is left
    as it is by a further copy, so that the result set that
    [addDetectionResult] stores is one that the copies of the later
    updates do not change. *)
Theorem clone_idempotent (m : gmap string Results) (id : string) (r : Results)
    (st : State) :
  json_stable (clone m)
  /\ exists r', detectionResults (addDetectionResult id r st) !! id = Some r'
                /\ json_stable r'.
Proof.
  split; [apply clone_idem|].
  exists (clone r). split; [|apply clone_idem].
  unfold addDetectionResult. cbn. apply lookup_insert_eq.
Qed.

End JsonCopy.

Section StringItems.
Import Conversion.

Lemma concat_empty_cons (x : string) (xs : list string) :
  String.concat EmptyString (x :: xs) = x +:+ String.concat EmptyString xs.
Proof.
  destruct xs as [|y ys]; cbn [String.concat].
  - induction x as [|c x IH]; [done|].
    change (String c x = String c (x +:+ EmptyString)). by f_equal.
  - done.
Qed.

Lemma split_points_concat (s : string) :
  (split_points s).1 +:+ String.concat EmptyString (split_points s).2 = s.
Proof.
  induction s as [|c rest IH]; [done|].
  cbn [split_points]. destruct (split_points rest) as [pending chars].
  cbn [fst snd] in IH. destruct (continuation c); cbn [fst snd].
  - change (String c (pending +:+ String.concat EmptyString chars) = String c rest).
    by rewrite IH.
  - rewrite concat_empty_cons.
    change (String c (pending +:+ String.concat EmptyString chars) = String c rest).
    by rewrite IH.
Qed.

Lemma split_points_ascii (s : string) :
  Forall (fun c => continuation c = false) (list_ascii_of_string s) ->
  split_points s
  = (EmptyString, (fun c => String c EmptyString) <$> list_ascii_of_string s).
Proof.
  induction s as [|c rest IH]; [done|].
  cbn [list_ascii_of_string]. intros [Hc Hrest]%Forall_cons.
  cbn [split_points]. rewrite (IH Hrest), Hc. done.
Qed.

(** X20. The items of a [str]: [code_points] cuts the string without
    losing or reordering a byte, and a string of ASCII characters is cut
    into its characters, so that the subscript [s[i]] of such a string is
    its [i]-th character and raises [IndexError] beyond its length. *)
Theorem code_points_items (s : string) (i : nat) :
  String.concat EmptyString (code_points s) = s
  /\ (Forall (fun c => continuation c = false) (list_ascii_of_string s) ->
      subscript (PyStr s) i
      = match list_ascii_of_string s !! i with
        | Some c => Ok (PyStr (String c EmptyString))
        | None => Raise IndexError
        end).
Proof.
  split.
  - unfold code_points. pose proof (split_points_concat s) as H.
    destruct (split_points s) as [[|c pending] chars]; cbn [fst snd] in H; [done|].
    by rewrite concat_empty_cons.
  - intros Hs. unfold subscript, code_points. rewrite (split_points_ascii s Hs).
    rewrite list_lookup_fmap. by destruct (list_ascii_of_string s !! i).
Qed.

End StringItems.

(** A box given as the string ["1234"]: its item 2 is ["3"]. *)
Lemma code_points_items_witness :
  Conversion.subscript (Conversion.PyStr "1234") 2
  = Conversion.Ok (Conversion.PyStr "3").
Proof.
  refine (proj2 (code_points_items "1234" 2) _).
  repeat constructor.
Defined.
